(** * kollabi: the decomposition engine of [CollabExplainer]

    A shallow embedding of [src/kollabi/explainer.py]: the combination
    canonicalizer ([__sort_comb], [__adjust_order]), the term algebra
    ([__get_terms], [__get_excluded_terms]), the memoizing model cache
    ([__get_model]), the validator ([__assert_comb_valid]), the
    decomposition ([compute]) and the query layer ([get], [new_split]).

    Python tuples and lists are both Rocq lists; feature names are strings.
    numpy, scikit-learn and the GAM learner are outside the repository and
    enter through two interfaces, [External] and [Learner]. *)

From Stdlib Require Import QArith Qround.
From stdpp Require Import gmap strings list fin_maps sorting.

Local Open Scope string_scope.
Local Open Scope Z_scope.
Local Open Scope nat_scope.
Local Open Scope list_scope.

(** ** Python's ordering on strings and tuples *)

(** Python orders [str] by code point and tuples lexicographically; a
    three-way comparison with the laws of a total order captures both. *)
Class TotalCmp {A : Type} (cmp : A → A → comparison) : Prop := {
  cmp_eq : ∀ x y, cmp x y = Eq → x = y;
  cmp_refl : ∀ x, cmp x x = Eq;
  cmp_antisym : ∀ x y, cmp x y = CompOpp (cmp y x);
  cmp_trans : ∀ x y z, cmp x y = Lt → cmp y z = Lt → cmp x z = Lt
}.

(** [x <= y] as Python evaluates it. *)
Definition leb_of {A} (cmp : A → A → comparison) (x y : A) : bool :=
  match cmp x y with Gt => false | _ => true end.

Definition le_of {A} (cmp : A → A → comparison) (x y : A) : Prop :=
  leb_of cmp x y = true.

(** Tuples of strings compare element by element, a proper prefix first. *)
Fixpoint tuple_compare (s t : list string) : comparison :=
  match s, t with
  | [], [] => Eq
  | [], _ :: _ => Lt
  | _ :: _, [] => Gt
  | a :: s', b :: t' =>
      match String.compare a b with
      | Eq => tuple_compare s' t'
      | c => c
      end
  end.

(** The sort key [lambda x: (len(x), x)] of [__sort_comb]. *)
Definition key_compare (s t : list string) : comparison :=
  match Nat.compare (length s) (length t) with
  | Eq => tuple_compare s t
  | c => c
  end.

(** [sorted]: Python's sort is stable; insertion from the right keeps an
    element in front of the equal ones that followed it. *)
Fixpoint insert_sorted {A} (leb : A → A → bool) (x : A) (l : list A) : list A :=
  match l with
  | [] => [x]
  | y :: l' => if leb x y then x :: y :: l' else y :: insert_sorted leb x l'
  end.

Fixpoint sorted {A} (leb : A → A → bool) (l : list A) : list A :=
  match l with
  | [] => []
  | x :: l' => insert_sorted leb x (sorted leb l')
  end.

Definition sorted_str : list string → list string := sorted (leb_of String.compare).

(** ** Combination canonicalizer *)

(** [__sort_comb(comb, inner_only)]. *)
Definition sort_comb (comb : list (list string)) (inner_only : bool)
  : list (list string) :=
  let comb_s := map sorted_str comb in
  if negb inner_only then sorted (leb_of key_compare) comb_s else comb_s.

(** [RETURN_NAMES]. *)
Definition RETURN_NAMES : list string :=
  ["var_g1"; "var_g2"; "var_gC"; "additive_collab_explv";
   "additive_collab_cov"; "interactive_collab"].

(** ** Term algebra *)

(** A GAM term is a tuple of features (an interaction) or a bare feature
    name (a main effect); [compute] mixes both in one list. *)
Inductive term :=
  | TTuple (fs : list string)
  | TStr (f : string).

#[global] Instance term_eq_dec : EqDecision term.
Proof. solve_decision. Defined.

(** [itertools.combinations(l, d)]: the [d]-element subsequences of [l], in
    the order of the positions. *)
Fixpoint combinations {A} (l : list A) (d : nat) : list (list A) :=
  match d with
  | 0 => [[]]
  | S d' =>
      match l with
      | [] => []
      | x :: l' => map (cons x) (combinations l' d') ++ combinations l' d
      end
  end.

(** [range(2, order + 1)]. *)
Definition range2 (order : Z) : list nat := seq 2 (Z.to_nat (order - 1)).

(** [__get_terms(fs, order, exclude)]. *)
Definition get_terms (fs : list string) (order : Z) (exclude : list term)
  : list term :=
  let terms := concat (map (λ d, map TTuple (combinations fs d)) (range2 order)) in
  filter (λ t, t ∉ exclude) terms.

(** [__get_excluded_terms(comb, order, C)]. *)
Definition get_excluded_terms (comb : list (list string)) (order : Z)
    (C : list string) : list term :=
  let C_l := C in
  let termss := map (λ elem, get_terms (elem ++ C_l) order []) comb in
  let allowed_terms := concat termss in
  let fs := concat comb ++ C_l in
  let all_terms := get_terms fs order [] in
  filter (λ t, t ∉ allowed_terms) all_terms.

(** ** The external collaborators *)

(** numpy and scikit-learn, as far as the engine calls them. [num] stands
    for a float64, [nan] among its values: division is total (by zero it
    yields inf or nan and a warning, no exception), and so are [np.var] and
    [np.cov]. The two scikit-learn functions validate their input and raise
    [ValueError] where it fails ([r2_score] on nan or inf, on no samples
    or on lengths that differ; [train_test_split] on a test size outside
    its range or on a partition left empty): [None] stands for that.
    [rng] is numpy's global random state, which [train_test_split] draws
    from. *)
Class External := {
  num : Type;
  of_Z : Z → num;
  nan : num;
  fadd : num → num → num;
  fsub : num → num → num;
  fmul : num → num → num;
  fdiv : num → num → num;
  np_var : list num → num;
  np_cov : list num → list num → num;
  r2_score : list num → list num → option num;
  rng : Type;
  train_test_split :
    list (string * list num) → list num → num → rng →
    option ((list (string * list num) * list (string * list num)
             * list num * list num) * rng)
}.

(** A numeric column, and a data frame as its named columns in order. *)
Definition vec `{External} : Type := list num.
Definition table `{External} : Type := list (string * list num).

(** The [exclude] argument of the learner's constructor: absent
    ([Learner()]), [None], or a list of terms. *)
Inductive exclude_arg :=
  | ExclDefault
  | ExclNone
  | ExclTerms (ts : list term).

(** The learner's capability contract. [learner_fit e X y] is the state of
    the object built by [Learner(exclude=e)] after [fit(X, y)]. *)
Class Learner `{External} := {
  predictor : Type;
  learner_fit : exclude_arg → table → vec → predictor;
  predict : predictor → table → vec;
  predict_components : predictor → table → list term → vec
}.

(** ** Exceptions and results *)

(** What the engine raises: the assertions of the validator, the
    [KeyError] of a missing column, and [ValueError] for what scikit-learn
    raises on its input, [InvalidParameterError] being one. *)
Inductive exn :=
  | AssertionError (msg : string)
  | KeyError (label : string)
  | ValueError
  | RecursionError.

Inductive res (A : Type) :=
  | Ok (a : A)
  | Raise (e : exn).
Arguments Ok {A} a.
Arguments Raise {A} e.

Definition is_Ok {A} (r : res A) : bool :=
  match r with
  | Ok _ => true
  | Raise _ => false
  end.

Definition res_bind {A B} (r : res A) (k : A → res B) : res B :=
  match r with
  | Ok a => k a
  | Raise e => Raise e
  end.

(** What a scikit-learn call gives: its value, or [ValueError]. *)
Definition sklearn {A} (o : option A) : res A :=
  match o with
  | Some a => Ok a
  | None => Raise ValueError
  end.

Fixpoint res_mapM {A B} (f : A → res B) (l : list A) : res (list B) :=
  match l with
  | [] => Ok []
  | x :: l' => res_bind (f x) (λ y, res_bind (res_mapM f l') (λ ys, Ok (y :: ys)))
  end.

(** ** pandas: column selection and Series *)

(** [X[label]]: the column of that name, or [KeyError]. *)
Definition column `{External} (X : table) (label : string) : res vec :=
  match list_find (λ c, c.1 = label) X with
  | Some (_, c) => Ok c.2
  | None => Raise (KeyError label)
  end.

(** [X.loc[:, cols]] and [X[cols]]: the named columns in the order asked. *)
Definition loc_cols `{External} (X : table) (cols : list string) : res table :=
  res_mapM (λ c, res_bind (column X c) (λ v, Ok (c, v))) cols.

(** Elementwise arithmetic of aligned columns. *)
Definition vsub `{External} (a b : vec) : vec := zip_with fsub a b.

(** A prediction, or the scalar [0] that [compute] uses for an empty [C]. *)
Inductive pred_val `{External} :=
  | PScalar (x : num)
  | PVec (v : vec).
Arguments PScalar {_} x.
Arguments PVec {_} v.

Definition sub_pred `{External} (y : vec) (b : pred_val) : vec :=
  match b with
  | PScalar x => map (λ yi, fsub yi x) y
  | PVec v => vsub y v
  end.

Definition var_pred `{External} (b : pred_val) : num :=
  match b with
  | PScalar x => np_var [x]
  | PVec v => np_var v
  end.

(** A [pd.Series] object: its identity and its labelled values in order. *)
Record Series `{External} := mkSeries {
  sid : nat;
  sdata : list (string * num)
}.
Arguments mkSeries {_} sid sdata.

Definition index `{External} (s : Series) : list string := (sdata s).*1.

(** The value at a label, or [KeyError]. *)
Definition series_at `{External} (d : list (string * num)) (label : string)
  : res num :=
  match list_find (λ c, c.1 = label) d with
  | Some (_, c) => Ok c.2
  | None => Raise (KeyError label)
  end.

(** The data of [s.rename(mapping)]: each label replaced where the mapping
    has it. *)
Definition rename_data `{External} (mapping : list (string * string))
    (d : list (string * num)) : list (string * num) :=
  map (λ c, (match list_find (λ m, m.1 = c.1) mapping with
             | Some (_, m) => m.2
             | None => c.1
             end, c.2)) d.

(** The data of [s.loc[labels]]. *)
Definition loc_data `{External} (d : list (string * num)) (labels : list string)
  : res (list (string * num)) :=
  res_mapM (λ l, res_bind (series_at d l) (λ v, Ok (l, v))) labels.

(** A fitted learner object: its identity and its fitted state. *)
Record predictor_obj `{Learner} := mkPredictor {
  pid : nat;
  pfit : predictor
}.
Arguments mkPredictor {_ _} pid pfit.

(** ** The engine *)

(** Cache keys: [(order, comb_s, tuple(C_s))] and [(comb_s, tuple(sorted(C)))]. *)
Definition mkey : Type := Z * list (list string) * list string.
Definition dkey : Type := list (list string) * list string.

(** One call of a learner's [fit]: the object fitted, and the model-cache key
    it was fitted for ([None] for the auxiliary fits of [compute]). *)
Record fit_event := mkFit {
  fe_key : option mkey;
  fe_pid : nat
}.

Section engine.
Context `{Lrn : Learner}.

(** The attributes of a [CollabExplainer], the counter that names new
    objects, the log of [fit] calls and numpy's random state. *)
Record engine := mkEngine {
  df : table;
  target : string;
  fs : list string;
  test_size : num;
  X_train : table;
  X_test : table;
  y_train : vec;
  y_test : vec;
  verbose : bool;
  decomps : gmap dkey Series;
  models : gmap mkey predictor_obj;
  next_id : nat;
  fit_log : list fit_event;
  rng_state : rng
}.

(** A method: it may raise, and what it did to the engine before stays. *)
Definition M (A : Type) : Type := engine → res A * engine.

Definition ret {A} (a : A) : M A := λ st, (Ok a, st).
Definition raise {A} (e : exn) : M A := λ st, (Raise e, st).
Definition bind {A B} (m : M A) (k : A → M B) : M B :=
  λ st, match m st with
        | (Ok a, st') => k a st'
        | (Raise e, st') => (Raise e, st')
        end.
Definition lift {A} (r : res A) : M A := λ st, (r, st).
Definition gets {A} (f : engine → A) : M A := λ st, (Ok (f st), st).
Definition modify (f : engine → engine) : M unit := λ st, (Ok tt, f st).

Notation "'let*' x ':=' m 'in' k" := (bind m (λ x, k))
  (at level 10, x name, m at level 100, k at level 200).

Definition set_models (f : gmap mkey predictor_obj → gmap mkey predictor_obj)
    (st : engine) : engine :=
  mkEngine (df st) (target st) (fs st) (test_size st) (X_train st) (X_test st)
    (y_train st) (y_test st) (verbose st) (decomps st) (f (models st))
    (next_id st) (fit_log st) (rng_state st).

Definition set_decomps (f : gmap dkey Series → gmap dkey Series)
    (st : engine) : engine :=
  mkEngine (df st) (target st) (fs st) (test_size st) (X_train st) (X_test st)
    (y_train st) (y_test st) (verbose st) (f (decomps st)) (models st)
    (next_id st) (fit_log st) (rng_state st).

Definition set_test_size (ts : num) (st : engine) : engine :=
  mkEngine (df st) (target st) (fs st) ts (X_train st) (X_test st)
    (y_train st) (y_test st) (verbose st) (decomps st) (models st)
    (next_id st) (fit_log st) (rng_state st).

Definition set_split (parts : table * table * vec * vec) (r : rng)
    (st : engine) : engine :=
  let '(Xtr, Xte, ytr, yte) := parts in
  mkEngine (df st) (target st) (fs st) (test_size st) Xtr Xte ytr yte
    (verbose st) (decomps st) (models st) (next_id st) (fit_log st) r.

(** A new object takes the next identity. *)
Definition fresh : M nat :=
  λ st, (Ok (next_id st),
         mkEngine (df st) (target st) (fs st) (test_size st) (X_train st)
           (X_test st) (y_train st) (y_test st) (verbose st) (decomps st)
           (models st) (S (next_id st)) (fit_log st) (rng_state st)).

Definition log_fit (ev : fit_event) : M unit :=
  modify (λ st,
    mkEngine (df st) (target st) (fs st) (test_size st) (X_train st)
      (X_test st) (y_train st) (y_test st) (verbose st) (decomps st)
      (models st) (next_id st) (fit_log st ++ [ev]) (rng_state st)).

(** [model = self.Learner(exclude=e); model.fit(X, y)]. *)
Definition new_fitted (key : option mkey) (e : exclude_arg) (X : table) (y : vec)
  : M predictor_obj :=
  let* i := fresh in
  let* _ := log_fit (mkFit key i) in
  ret (mkPredictor i (learner_fit e X y)).

(** [pd.Series(values, index=labels)], and a new object with given data. *)
Definition new_series (d : list (string * num)) : M Series :=
  let* i := fresh in
  ret (mkSeries i d).

(** [__init__]; [rng0] is numpy's random state at the call. *)
Definition init (df0 : table) (target0 : string) (test_size0 : num)
    (verbose0 : bool) (rng0 : rng) : res engine :=
  let fs0 := filter (λ col, col ≠ target0) df0.*1 in
  res_bind (loc_cols df0 fs0) (λ X,
  res_bind (column df0 target0) (λ y,
  res_bind (sklearn (train_test_split X y test_size0 rng0)) (λ sp,
  let '((Xtr, Xte, ytr, yte), r) := sp in
  Ok (mkEngine df0 target0 fs0 test_size0 Xtr Xte ytr yte verbose0 ∅ ∅ 0 [] r)))).

(** [new_split(test_size)]; [None] is the default argument. *)
Definition new_split (test_size_arg : option num) : M unit :=
  let* test_size0 :=
    match test_size_arg with
    | None => gets test_size
    | Some ts => let* _ := modify (set_test_size ts) in ret ts
    end in
  let* X := (λ st, lift (loc_cols (df st) (fs st)) st) in
  let* y := (λ st, lift (column (df st) (target st)) st) in
  let* r := gets rng_state in
  let* sp := lift (sklearn (train_test_split X y test_size0 r)) in
  let* _ := modify (set_split sp.1 sp.2) in
  modify (set_decomps (λ _, ∅)).

(** [__adjust_order(comb, res)]. The rename is out of place: [rename],
    [copy] and [loc] each build a new Series and leave [res] as it is. *)
Definition adjust_order (comb : list (list string)) (res0 : Series) : M Series :=
  if bool_decide (sort_comb comb true = sort_comb comb false) then
    ret res0
  else
    let* res_s := new_series
      (rename_data [("var_g1", "var_g2"); ("var_g2", "var_g1")] (sdata res0)) in
    let* res_s := new_series (sdata res_s) in
    let* d := lift (loc_data (sdata res_s) (index res0)) in
    let* res_s := new_series d in
    ret res_s.

(** [__get_model(comb, order, C)], the recursive call left open. *)
Definition get_model_body
    (self_get_model : list (list string) → Z → list string → M predictor_obj)
    (comb : list (list string)) (order : Z) (C : list string) : M predictor_obj :=
  let comb_s := sort_comb comb false in
  let C_s := sorted_str C in
  let fs0 := concat comb in
  let fs_full := fs0 ++ C in
  let key := (order, comb_s, C_s) in
  let* cached := gets (λ st, models st !! key) in
  match cached with
  | Some model => ret model
  | None =>
      let* y_res :=
        if bool_decide (0 < length C_s) then
          let* model := self_get_model [C_s] order [] in
          let* XC := (λ st, lift (loc_cols (X_train st) C_s) st) in
          let y_pred := predict (pfit model) XC in
          let* y := gets y_train in
          ret (vsub y y_pred)
        else gets y_train in
      let e :=
        if bool_decide (1 < length comb_s)
        then ExclTerms (get_excluded_terms comb order C)
        else ExclNone in
      let* X := (λ st, lift (loc_cols (X_train st) fs_full) st) in
      let* model := new_fitted (Some key) e X y_res in
      let* _ := modify (set_models (λ ms, <[key := model]> ms)) in
      ret model
  end.

(** The recursion goes one call deep ([C = []] in the inner call); the
    interpreter's depth limit is far away. *)
Fixpoint get_model_fuel (n : nat) (comb : list (list string)) (order : Z)
    (C : list string) : M predictor_obj :=
  match n with
  | 0 => raise RecursionError
  | S n' => get_model_body (get_model_fuel n') comb order C
  end.

Definition get_model : list (list string) → Z → list string → M predictor_obj :=
  get_model_fuel 2.

(** An element of a combination as the caller wrote it: a feature name, a
    tuple, a list, or a value of another type. *)
Inductive group_arg :=
  | GStr (s : string)
  | GTuple (l : list string)
  | GList (l : list string)
  | GOther.

(** The loop of [__assert_comb_valid]: each element becomes a list, and its
    features must be columns. *)
Fixpoint check_groups (fs0 : list string) (comb : list group_arg)
  : res (list (list string)) :=
  match comb with
  | [] => Ok []
  | g :: rest =>
      res_bind
        (match g with
         | GStr s => Ok [s]
         | GTuple l => Ok l
         | GList l => Ok l
         | GOther => Raise (AssertionError
             "The elements of the combination must be strings or lists")
         end)
        (λ l,
          if bool_decide (Forall (λ f, f ∈ fs0) l)
          then res_bind (check_groups fs0 rest) (λ rest', Ok (l :: rest'))
          else Raise (AssertionError "Feature not in the dataset"))
  end.

(** [set(a).intersection(set(b))] is empty. *)
Definition disjointb (a b : list string) : bool :=
  bool_decide (Forall (λ x, x ∉ b) a).

(** [__assert_comb_valid(comb, C)]. *)
Definition assert_comb_valid (comb : list group_arg) (C : list string)
  : M (list (list string)) :=
  if bool_decide (length comb = 2) then
    let* fs0 := gets fs in
    let* comb_ := lift (check_groups fs0 comb) in
    if disjointb (nth 0 comb_ []) (nth 1 comb_ []) then
      if disjointb (nth 0 comb_ [] ++ nth 1 comb_ []) C then
        ret comb_
      else raise (AssertionError
             "the conditioning set must be disjoint from the two sets")
    else raise (AssertionError "the two sets of features must be disjoint")
  else raise (AssertionError "Please provide exactly two sets of features").

(** Lines 296 to 325 of [compute]: from the explained variances, the raw
    covariance of the components and the two target variances to the
    values of the returned Series. *)
Definition assemble (var_f1 var_f2 var_GAM var_total var_fC cov_g1_g2
    var_y_res var_y : num) : list (string * num) :=
  let cov_g1_g2 := fdiv cov_g1_g2 var_y_res in
  let additive_collab := fmul (fsub (fadd var_f1 var_f2) var_GAM) (of_Z (-1)) in
  let additive_collab_wo_cov := fadd additive_collab (fmul (of_Z 2) cov_g1_g2) in
  let interactive_collab := fsub var_total var_GAM in
  let factor := fdiv var_y_res var_y in
  let var_f1 := fmul var_f1 factor in
  let var_f2 := fmul var_f2 factor in
  let additive_collab := fmul additive_collab factor in
  let cov_g1_g2 := fmul cov_g1_g2 factor in
  let interactive_collab := fmul interactive_collab factor in
  let var_fC := fmul var_fC factor in
  zip RETURN_NAMES
    [var_f1; var_f2; var_fC; additive_collab_wo_cov;
     fmul (of_Z (-2)) cov_g1_g2; interactive_collab].

(** [X_test[cols]] and [X_train[cols]] on the engine. *)
Definition test_cols (cols : list string) : M table :=
  λ st, lift (loc_cols (X_test st) cols) st.
Definition train_cols (cols : list string) : M table :=
  λ st, lift (loc_cols (X_train st) cols) st.

(** What [compute] has in hand at line 296: the four explained variances,
    the share of the baseline, the raw covariance of the two components
    and the variances of the residual and of the true evaluation target. *)
Record parts := mkParts {
  p_var_f1 : num;
  p_var_f2 : num;
  p_var_GAM : num;
  p_var_total : num;
  p_var_fC : num;
  p_cov : num;
  p_var_y_res : num;
  p_var_y : num
}.

(** [compute(comb, order, C)] up to line 316. Logging, timing and printing
    are left out; of the [verbose] block what stays is its call of
    [r2_score] on the training partition, which can raise. *)
Definition compute_parts (comb : list group_arg) (order : Z) (C : list string)
  : M parts :=
  let* comb := assert_comb_valid comb [] in
  let fs0 := concat comb in
  let fs_full := fs0 ++ C in
  let fs_0 := nth 0 comb [] ++ C in
  let fs_1 := nth 1 comb [] ++ C in
  let* b_pred :=
    if bool_decide (0 < length C) then
      let* b := get_model [C] order [] in
      let* XC := test_cols C in
      ret (PVec (predict (pfit b) XC))
    else ret (PScalar (of_Z 0)) in
  let* yt := gets y_test in
  let y_test_res := sub_pred yt b_pred in
  let var_y_res := np_var y_test_res in
  let var_fC := fdiv (var_pred b_pred) var_y_res in
  let* model_full := get_model [fs0] order C in
  let* Xfull := test_cols fs_full in
  let* var_total :=
    lift (sklearn (r2_score y_test_res (predict (pfit model_full) Xfull))) in
  let* model_order1 := get_model comb order C in
  let* Xfull1 := test_cols fs_full in
  let* var_GAM :=
    lift (sklearn (r2_score y_test_res (predict (pfit model_order1) Xfull1))) in
  let* f1 := get_model [nth 0 comb []] order C in
  let* X0 := test_cols fs_0 in
  let* var_f1 := lift (sklearn (r2_score y_test_res (predict (pfit f1) X0))) in
  let* f2 := get_model [nth 1 comb []] order C in
  let* X1 := test_cols fs_1 in
  let* var_f2 := lift (sklearn (r2_score y_test_res (predict (pfit f2) X1))) in
  let terms_C := get_terms C order [] ++ map TStr C in
  let terms_g1 := get_terms fs_0 order terms_C ++ map TStr (nth 0 comb []) in
  let terms_g2 := get_terms fs_1 order terms_C ++ map TStr (nth 1 comb []) in
  let* Xte := gets X_test in
  let g1_test := predict_components (pfit model_order1) Xte terms_g1 in
  let g2_test := predict_components (pfit model_order1) Xte terms_g2 in
  let* g_res :=
    if bool_decide (0 < length C) then
      let* Xtr := gets X_train in
      let g1_train := predict_components (pfit model_order1) Xtr terms_g1 in
      let g2_train := predict_components (pfit model_order1) Xtr terms_g2 in
      let* XtrC1 := train_cols C in
      let* model_g1 := new_fitted None ExclDefault XtrC1 g1_train in
      let* XteC1 := test_cols C in
      let g1_pred := predict (pfit model_g1) XteC1 in
      let g1_res := vsub g1_test g1_pred in
      let* XtrC2 := train_cols C in
      let* model_g2 := new_fitted None ExclDefault XtrC2 g2_train in
      let* XteC2 := test_cols C in
      let g2_pred := predict (pfit model_g2) XteC2 in
      let g2_res := vsub g2_test g2_pred in
      ret (g1_res, g2_res)
    else ret (g1_test, g2_test) in
  let cov_g1_g2 := np_cov g_res.1 g_res.2 in
  let* v := gets verbose in
  let* _ :=
    if v then
      let* ytr := gets y_train in
      let* Xtr := gets X_train in
      let* _ := lift (sklearn (r2_score ytr (predict (pfit model_full) Xtr))) in
      ret tt
    else ret tt in
  let* yt1 := gets y_test in
  let var_y := np_var yt1 in
  ret (mkParts var_f1 var_f2 var_GAM var_total var_fC cov_g1_g2 var_y_res var_y).

(** [compute(comb, order, C)]. *)
Definition compute (comb : list group_arg) (order : Z) (C : list string)
  : M Series :=
  let* p := compute_parts comb order C in
  new_series
    (assemble (p_var_f1 p) (p_var_f2 p) (p_var_GAM p) (p_var_total p)
       (p_var_fC p) (p_cov p) (p_var_y_res p) (p_var_y p)).

(** [get(comb, C)]. *)
Definition get (comb : list group_arg) (C : list string) : M Series :=
  let* comb := assert_comb_valid comb [] in
  let comb_s := sort_comb comb false in
  let key := (comb_s, sorted_str C) in
  let* cached := gets (λ st, decomps st !! key) in
  match cached with
  | Some res0 => adjust_order comb res0
  | None =>
      let* res0 := compute (map GTuple comb_s) 2 C in
      let* _ := modify (set_decomps (λ ds, <[key := res0]> ds)) in
      ret res0
  end.

(** The value of a field of a returned Series. *)
Definition field (s : Series) (label : string) : res num :=
  series_at (sdata s) label.
End engine.

Notation "'let*' x ':=' m 'in' k" := (bind m (λ x, k))
  (at level 10, x name, m at level 100, k at level 200).

(** ** Vocabulary of the specification *)

(** [comb'] is [comb] with its groups permuted and the features inside each
    group reordered. *)
Definition reordering (comb comb' : list (list string)) : Prop :=
  ∃ mid, Forall2 Permutation comb mid ∧ mid ≡ₚ comb'.

(** [l] is an interaction term over the features [fs0]: between 2 and
    [order] of them, in the order they have in [fs0]. *)
Definition term_over (fs0 : list string) (order : Z) (l : list string) : Prop :=
  l `sublist_of` fs0 ∧ 2 ≤ length l ∧ (Z.of_nat (length l) ≤ order)%Z.

(** [l] has features of two different groups of [comb]. *)
Definition cross_group (comb : list (list string)) (l : list string) : Prop :=
  ∃ i j gi gj x y,
    i ≠ j ∧ comb !! i = Some gi ∧ comb !! j = Some gj ∧
    x ∈ gi ∧ y ∈ gj ∧ x ∈ l ∧ y ∈ l.

(** [l] lies inside one group of [comb] joined with [C]. *)
Definition within_group (comb : list (list string)) (C l : list string) : Prop :=
  ∃ g, g ∈ comb ∧ ∀ x, x ∈ l → x ∈ g ∨ x ∈ C.

(** The rescaling factor of step 9 and the covariance-adjusted additive term
    of step 8, from what [compute] has gathered. *)
Definition factor_of `{External} (var_y_res var_y : num) : num :=
  fdiv var_y_res var_y.

Definition wo_cov_of `{External} (var_f1 var_f2 var_GAM cov_g1_g2 var_y_res : num)
  : num :=
  fadd (fmul (fsub (fadd var_f1 var_f2) var_GAM) (of_Z (-1)))
       (fmul (of_Z 2) (fdiv cov_g1_g2 var_y_res)).

(** The model-cache keys of the logged fits, in order. *)
Definition keyed (log : list fit_event) : list mkey := omap fe_key log.

(** How many times [fit] ran for the key [k]. *)
Definition fits_for (k : mkey) (log : list fit_event) : nat :=
  length (filter (λ ev, fe_key ev = Some k) log).

Section vocabulary.
Context `{Lrn : Learner}.

(** What no method but [new_split] writes. *)
Definition same_data (st st' : engine) : Prop :=
  df st' = df st ∧ target st' = target st ∧ fs st' = fs st
  ∧ test_size st' = test_size st
  ∧ X_train st' = X_train st ∧ X_test st' = X_test st
  ∧ y_train st' = y_train st ∧ y_test st' = y_test st
  ∧ verbose st' = verbose st ∧ rng_state st' = rng_state st.

(** Every keyed fit is for a key of its own, and that key is cached. *)
Definition cache_inv (st : engine) : Prop :=
  NoDup (keyed (fit_log st))
  ∧ ∀ k, k ∈ keyed (fit_log st) → is_Some (models st !! k).

(** From one engine state to a later one without a resplit in between. *)
Definition later (st st' : engine) : Prop :=
  same_data st st'
  ∧ models st ⊆ models st'
  ∧ next_id st ≤ next_id st'
  ∧ fit_log st `prefix_of` fit_log st'
  ∧ (cache_inv st → cache_inv st').

(** A later state with the decomposition cache as it was. *)
Definition quiet (st st' : engine) : Prop :=
  later st st' ∧ decomps st' = decomps st.

(** The effect of a method on the engine, whatever it returns or raises. *)
Definition steps {A} (R : engine → engine → Prop) (m : M A) : Prop :=
  ∀ st, R st (m st).2.

(** The calls a client can make. *)
Inductive call :=
  | CallGet (comb : list group_arg) (C : list string)
  | CallCompute (comb : list group_arg) (order : Z) (C : list string)
  | CallGetModel (comb : list (list string)) (order : Z) (C : list string)
  | CallNewSplit (test_size_arg : option num).

Definition run_call (c : call) (st : engine) : engine :=
  match c with
  | CallGet comb C => (get comb C st).2
  | CallCompute comb order C => (compute comb order C st).2
  | CallGetModel comb order C => (get_model comb order C st).2
  | CallNewSplit ts => (new_split ts st).2
  end.

Definition run (cs : list call) (st : engine) : engine :=
  foldl (λ st c, run_call c st) st cs.

Definition is_resplit (c : call) : bool :=
  match c with
  | CallNewSplit _ => true
  | _ => false
  end.

(** The engine after a learner was fitted for [key] and cached. *)
Definition fitted (key : mkey) (m : predictor) (st : engine) : engine :=
  mkEngine (df st) (target st) (fs st) (test_size st) (X_train st) (X_test st)
    (y_train st) (y_test st) (verbose st) (decomps st)
    (<[key := mkPredictor (next_id st) m]> (models st))
    (S (next_id st)) (fit_log st ++ [mkFit (Some key) (next_id st)])
    (rng_state st).

(** The last three statements of [__get_model]: select the training
    columns, fit, cache. *)
Definition fit_step (key : mkey) (e : exclude_arg) (cols : list string)
    (y : vec) (st : engine) : res predictor_obj * engine :=
  match loc_cols (X_train st) cols with
  | Ok X =>
      let m := learner_fit e X y in
      (Ok (mkPredictor (next_id st) m), fitted key m st)
  | Raise err => (Raise err, st)
  end.

Definition exclude_for (comb : list (list string)) (order : Z) (C : list string)
  : exclude_arg :=
  if bool_decide (1 < length (sort_comb comb false))
  then ExclTerms (get_excluded_terms comb order C)
  else ExclNone.

(** [__get_model] with its monadic steps and its one recursive call
    written out. *)
Definition get_model_explicit (comb : list (list string)) (order : Z)
    (C : list string) (st : engine) : res predictor_obj * engine :=
  let key := (order, sort_comb comb false, sorted_str C) in
  let ckey := (order, [sorted_str C], @nil string) in
  match models st !! key with
  | Some m => (Ok m, st)
  | None =>
      if bool_decide (0 < length (sorted_str C)) then
        match
          match models st !! ckey with
          | Some b => (Ok b, st)
          | None => fit_step ckey ExclNone (sorted_str C) (y_train st) st
          end
        with
        | (Ok b, st1) =>
            match loc_cols (X_train st1) (sorted_str C) with
            | Ok XC =>
                fit_step key (exclude_for comb order C) (concat comb ++ C)
                  (vsub (y_train st1) (predict (pfit b) XC)) st1
            | Raise err => (Raise err, st1)
            end
        | (Raise err, st1) => (Raise err, st1)
        end
      else
        fit_step key (exclude_for comb order C) (concat comb ++ C)
          (y_train st) st
  end.

(** The two partitions have every feature column. *)
Definition has_columns (st : engine) : Prop :=
  Forall (λ c, c ∈ (X_train st).*1) (fs st)
  ∧ Forall (λ c, c ∈ (X_test st).*1) (fs st).

(** Every cached Series has the six labels in order and was made before
    the objects still to come. *)
Definition decomps_inv (st : engine) : Prop :=
  ∀ k s, decomps st !! k = Some s →
         index s = RETURN_NAMES ∧ sid s < next_id st.

(** A sequence of [get] calls with one conditioning set: the answers in
    order, and the engine after the last. *)
Fixpoint ask (qs : list (list group_arg)) (C : list string) (st : engine)
  : list (res Series) * engine :=
  match qs with
  | [] => ([], st)
  | q :: qs' =>
      let '(r, st1) := get q C st in
      let '(rs, st2) := ask qs' C st1 in
      (r :: rs, st2)
  end.

(** The query [q] is valid and [kc] is its canonical combination. *)
Definition asks_for (st : engine) (kc : list (list string))
    (q : list group_arg) : Prop :=
  ∃ comb_, (assert_comb_valid q [] st).1 = Ok comb_
           ∧ sort_comb comb_ false = kc.

(** The method [m] returns, for every engine that satisfies [P], a value
    that satisfies [Q], and is [quiet]. *)
Definition succeeds {A} (P : engine → Prop) (m : M A) (Q : A → Prop) : Prop :=
  ∀ st, P st → ∃ a st', m st = (Ok a, st') ∧ quiet st st' ∧ Q a.

(** The method [m], on every engine that satisfies [P], returns a value
    that satisfies [Q] or raises the [ValueError] of a scikit-learn call;
    either way it is [quiet]. *)
Definition proceeds {A} (P : engine → Prop) (m : M A) (Q : A → Prop) : Prop :=
  ∀ st, P st →
    (∃ a st', m st = (Ok a, st') ∧ quiet st st' ∧ Q a)
    ∨ (∃ st', m st = (Raise ValueError, st') ∧ quiet st st').

(** The engine has the features [fs0], and its partitions their columns. *)
Definition ready (fs0 : list string) (st : engine) : Prop :=
  fs st = fs0 ∧ has_columns st.

(** The values of a Series with those of the two groups exchanged. *)
Definition swap_groups (d : list (string * num)) : list (string * num) :=
  match d with
  | (l1, v1) :: (l2, v2) :: rest => (l1, v2) :: (l2, v1) :: rest
  | _ => d
  end.
End vocabulary.

(** ** More of the vocabulary *)

(** The list that the validator makes of an element of a combination: a
    string becomes a list of one, a tuple a list, a list stays; a value of
    another type has none. *)
Definition as_list (g : group_arg) : option (list string) :=
  match g with
  | GStr s => Some [s]
  | GTuple l => Some l
  | GList l => Some l
  | GOther => None
  end.

(** Line 267 of [compute]: [terms_C = self.__get_terms(C, order) + C]. *)
Definition terms_C_of (C : list string) (order : Z) : list term :=
  get_terms C order [] ++ map TStr C.

(** Lines 268 and 269: [self.__get_terms(g + C, order, exclude=terms_C) + g]
    for a group [g]. *)
Definition terms_g_of (g C : list string) (order : Z) : list term :=
  get_terms (g ++ C) order (terms_C_of C order) ++ map TStr g.

Section failures.
Context `{Lrn : Learner}.

(** Whatever the method [m] raises satisfies [P]. *)
Definition raises_only {A} (P : exn → Prop) (m : M A) : Prop :=
  ∀ st e st', m st = (Raise e, st') → P e.

(** The exception is a [KeyError]. *)
Definition is_KeyError (e : exn) : Prop := ∃ c, e = KeyError c.

(** The exception comes from a library: the [KeyError] of pandas for a
    missing column, or the [ValueError] of scikit-learn. *)
Definition is_library_error (e : exn) : Prop :=
  is_KeyError e ∨ e = ValueError.
End failures.

(** scikit-learn's [train_test_split], where it returns, keeps the columns
    of the frame it splits, in both partitions. *)
Definition split_keeps_columns `{External} : Prop :=
  ∀ X y ts r sp,
    train_test_split X y ts r = Some sp →
    sp.1.1.1.1.*1 = X.*1 ∧ sp.1.1.1.2.*1 = X.*1.

Section data.
Context `{Lrn : Learner}.

(** The data frame has the target and every feature as a column. *)
Definition data_ok (st : engine) : Prop :=
  target st ∈ (df st).*1 ∧ Forall (λ f, f ∈ (df st).*1) (fs st).
End data.

(** ** The aggregating queries *)

(** A [pd.DataFrame] of float cells: the row labels, the column labels
    and the rows. *)
Record frame `{External} := mkFrame {
  f_index : list string;
  f_columns : list string;
  f_rows : list (list num)
}.
Arguments mkFrame {_} f_index f_columns f_rows.

(** [pd.DataFrame(index=idx, columns=cols)]: every cell is NaN. *)
Definition empty_frame `{External} (idx cols : list string) : frame :=
  mkFrame idx cols (map (λ _, map (λ _, nan) cols) idx).

(** A Series aligned with column labels: the value at each label, NaN
    where the Series has none. *)
Definition align `{External} (s : Series) (cols : list string)
  : list num :=
  map (λ c, match series_at (sdata s) c with
            | Ok v => v
            | Raise _ => nan
            end) cols.

(** [results.loc[label] = s]: the aligned Series is written to every row of
    that label; a label the index has not is appended with its row. *)
Definition set_row `{External} (results : frame) (label : string) (s : Series)
  : frame :=
  let row := align s (f_columns results) in
  if bool_decide (label ∈ f_index results) then
    mkFrame (f_index results) (f_columns results)
      (zip_with (λ l r, if bool_decide (l = label) then row else r)
         (f_index results) (f_rows results))
  else
    mkFrame (f_index results ++ [label]) (f_columns results)
      (f_rows results ++ [row]).

Section aggregation.
Context `{Lrn : Learner}.

(** [for label in labels: results.loc[label] = query(label)]. *)
Fixpoint fill_rows (query : string → M Series) (labels : list string)
    (results : frame) : M frame :=
  match labels with
  | [] => ret results
  | label :: labels' =>
      let* s := query label in
      fill_rows query labels' (set_row results label s)
  end.

(** [get_one_vs_rest(feature)]. *)
Definition get_one_vs_rest (feature : string) : M Series :=
  let* fs0 := gets fs in
  let rest := filter (λ col, col ≠ feature) fs0 in
  get [GStr feature; GList rest] [].

(** [get_all_one_vs_rest()]. *)
Definition get_all_one_vs_rest : M frame :=
  let* fs0 := gets fs in
  fill_rows get_one_vs_rest fs0 (empty_frame fs0 RETURN_NAMES).

End aggregation.

Section frames.
Context `{Lrn : Learner}.

(** A later state that has every decomposition the earlier one had. *)
Definition grows (st st' : engine) : Prop :=
  later st st' ∧ decomps st ⊆ decomps st'.

(** Every row of [fr] whose label [l] is in [L] holds the values of a
    Series with the six labels that satisfies [ans l]. *)
Definition rows_from (ans : string → Series → Prop) (L : list string)
    (fr : frame) : Prop :=
  ∀ i l,
    f_index fr !! i = Some l → l ∈ L →
    ∃ s, f_rows fr !! i = Some (sdata s).*2
         ∧ index s = RETURN_NAMES ∧ ans l s.
End frames.

(** ** The validator on arbitrary values *)

(** A Python value as the validator inspects it: a string, a tuple, a
    list, or a value of another type. *)
#[local] Unset Elimination Schemes.
Inductive pyobj :=
  | PStr (s : string)
  | PTuple (items : list pyobj)
  | PList (items : list pyobj)
  | POther.
#[local] Set Elimination Schemes.

(** [f in self.fs]: only a string equals a column name. *)
Definition in_fs (fs0 : list string) (f : pyobj) : bool :=
  match f with
  | PStr s => bool_decide (s ∈ fs0)
  | _ => false
  end.

(** The names in a list of values. *)
Definition strings_of (l : list pyobj) : list string :=
  omap (λ o, match o with PStr s => Some s | _ => None end) l.

(** The loop of [__assert_comb_valid] on values of any type. *)
Fixpoint check_groups_obj (fs0 : list string) (comb : list pyobj)
  : res (list (list string)) :=
  match comb with
  | [] => Ok []
  | g :: rest =>
      res_bind
        (match g with
         | PStr s => Ok [PStr s]
         | PTuple l => Ok l
         | PList l => Ok l
         | POther => Raise (AssertionError
             "The elements of the combination must be strings or lists")
         end)
        (λ l,
          if forallb (in_fs fs0) l
          then res_bind (check_groups_obj fs0 rest)
                 (λ rest', Ok (strings_of l :: rest'))
          else Raise (AssertionError "Feature not in the dataset"))
  end.

(** A combination written with strings, tuples and lists of names, as a
    value. *)
Definition of_group_arg (g : group_arg) : pyobj :=
  match g with
  | GStr s => PStr s
  | GTuple l => PTuple (map PStr l)
  | GList l => PList (map PStr l)
  | GOther => POther
  end.

(** A key of the decomposition cache, [(comb_s, tuple(sorted(C)))], as the
    sequence that [get] receives when it is passed as a combination. *)
Definition key_items (k : dkey) : list pyobj :=
  [PTuple (map (λ g, PTuple (map PStr g)) k.1); PTuple (map PStr k.2)].

Section any_value.
Context `{Lrn : Learner}.

(** [__assert_comb_valid(comb, C)] for a combination of any values. *)
Definition assert_comb_valid_obj (comb : list pyobj) (C : list string)
  : M (list (list string)) :=
  if bool_decide (length comb = 2) then
    let* fs0 := gets fs in
    let* comb_ := lift (check_groups_obj fs0 comb) in
    if disjointb (nth 0 comb_ []) (nth 1 comb_ []) then
      if disjointb (nth 0 comb_ [] ++ nth 1 comb_ []) C then
        ret comb_
      else raise (AssertionError
             "the conditioning set must be disjoint from the two sets")
    else raise (AssertionError "the two sets of features must be disjoint")
  else raise (AssertionError "Please provide exactly two sets of features").

(** [get(comb, C)] for a combination of any values. *)
Definition get_obj (comb : list pyobj) (C : list string) : M Series :=
  let* comb := assert_comb_valid_obj comb [] in
  let comb_s := sort_comb comb false in
  let key := (comb_s, sorted_str C) in
  let* cached := gets (λ st, decomps st !! key) in
  match cached with
  | Some res0 => adjust_order comb res0
  | None =>
      let* res0 := compute (map GTuple comb_s) 2 C in
      let* _ := modify (set_decomps (λ ds, <[key := res0]> ds)) in
      ret res0
  end.

(** Every key of the decomposition cache has two groups. *)
Definition keys_inv (st : engine) : Prop :=
  ∀ k s, decomps st !! k = Some s → length k.1 = 2.
End any_value.

(** How many fits of the log were for no model-cache key: the auxiliary
    learners of [compute]. *)
Definition unkeyed (log : list fit_event) : nat :=
  length (filter (λ ev, fe_key ev = None) log).

Section counting.
Context `{Lrn : Learner}.

(** When [m] returns, it has made [n] fits for no key. *)
Definition adds {A} (n : nat) (m : M A) : Prop :=
  ∀ st a st', m st = (Ok a, st') →
    unkeyed (fit_log st') = unkeyed (fit_log st) + n.
End counting.

(** ** A runnable instance: exact arithmetic and a least-squares stub learner *)

Module Stub.

(** Numbers: a rational, or [None] for what float64 calls inf or nan. *)
Definition qnum : Type := option Q.

#[global] Instance Q_eq_dec : EqDecision Q.
Proof. solve_decision. Defined.

Definition qlift2 (f : Q → Q → Q) (a b : qnum) : qnum :=
  match a, b with
  | Some x, Some y => Some (Qred (f x y))
  | _, _ => None
  end.

Definition qadd : qnum → qnum → qnum := qlift2 Qplus.
Definition qsub : qnum → qnum → qnum := qlift2 Qminus.
Definition qmul : qnum → qnum → qnum := qlift2 Qmult.
Definition qdiv (a b : qnum) : qnum :=
  match a, b with
  | Some x, Some y => if Qeq_bool y 0 then None else Some (Qred (x / y))
  | _, _ => None
  end.
Definition qZ (z : Z) : qnum := Some (inject_Z z).

Definition qsum (l : list qnum) : qnum := foldr qadd (qZ 0) l.
Definition qlen (l : list qnum) : qnum := qZ (Z.of_nat (length l)).
Definition qmean (l : list qnum) : qnum := qdiv (qsum l) (qlen l).
Definition qsq (x : qnum) : qnum := qmul x x.

(** [np.var]: the mean squared deviation from the mean. *)
Definition q_var (l : list qnum) : qnum :=
  let m := qmean l in qmean (map (λ x, qsq (qsub x m)) l).

(** [np.cov(a, b)[0, 1]]: the sample covariance, over [n - 1]. *)
Definition q_cov (a b : list qnum) : qnum :=
  let ma := qmean a in
  let mb := qmean b in
  qdiv (qsum (zip_with (λ x y, qmul (qsub x ma) (qsub y mb)) a b))
       (qsub (qlen a) (qZ 1)).

(** [r2_score(y_true, y_pred)]: it raises on inf or nan, on no samples and
    on lengths that differ; for one sample it is nan; with a constant
    [y_true] scikit-learn returns 1 for a perfect prediction and 0
    otherwise. *)
Definition q_r2 (y p : list qnum) : option qnum :=
  if bool_decide (Forall is_Some y ∧ Forall is_Some p
                  ∧ length y = length p ∧ 0 < length y)
  then
    if bool_decide (length y < 2) then Some None else
    let m := qmean y in
    let ss_res := qsum (zip_with (λ a b, qsq (qsub a b)) y p) in
    let ss_tot := qsum (map (λ a, qsq (qsub a m)) y) in
    match qdiv ss_res ss_tot with
    | Some r => Some (qsub (qZ 1) (Some r))
    | None =>
        match ss_res, ss_tot with
        | Some r, Some t =>
            Some (if Qeq_bool t 0
                  then (if Qeq_bool r 0 then qZ 1 else qZ 0) else None)
        | _, _ => Some None
        end
    end
  else None.

(** A split without shuffling: the rows are rotated by the random state,
    the last [ceil(test_size * n)] of them are the test partition. Like
    scikit-learn it raises for a test size that is not strictly between 0
    and 1 and for a training partition left empty; the random state is
    then as it was. *)
Definition q_split (X : list (string * list qnum)) (y : list qnum)
    (ts : qnum) (r : nat)
  : option ((list (string * list qnum) * list (string * list qnum) *
             list qnum * list qnum) * nat) :=
  match ts with
  | Some t =>
      if Qlt_le_dec 0 t then
        if Qlt_le_dec t 1 then
          let n := length y in
          let n_test := Z.to_nat (Qceiling (t * inject_Z (Z.of_nat n))) in
          let n_train := n - n_test in
          if bool_decide (n_train = 0) then None else
          let rot := λ c : list qnum, rotate r c in
          Some ((map (λ c, (c.1, take n_train (rot c.2))) X,
                 map (λ c, (c.1, drop n_train (rot c.2))) X,
                 take n_train (rot y), drop n_train (rot y)), S r)
        else None
      else None
  | None => None
  end.

#[global] Instance q_external : External := {|
  num := qnum;
  of_Z := qZ;
  nan := None;
  fadd := qadd;
  fsub := qsub;
  fmul := qmul;
  fdiv := qdiv;
  np_var := q_var;
  np_cov := q_cov;
  r2_score := q_r2;
  rng := nat;
  train_test_split := q_split
|}.

#[global] Instance num_eq_dec : EqDecision (@num q_external) :=
  _ : EqDecision (option Q).
#[global] Instance table_eq_dec : EqDecision (@table q_external) :=
  _ : EqDecision (list (string * list (option Q))).

(** The sum of the columns of a table, row by row. *)
Definition rowsums (X : list (string * list qnum)) : list qnum :=
  match X with
  | [] => []
  | c :: rest => foldl (λ acc c', zip_with qadd acc c'.2) c.2 rest
  end.

(** The stub learner: [y ~ beta * (sum of the features)], [beta] by least
    squares; it has main effects only, so interaction terms contribute 0. *)
Definition stub_fit (e : exclude_arg) (X : list (string * list qnum))
    (y : list qnum) : qnum :=
  let s := rowsums X in
  qdiv (qsum (zip_with qmul s y)) (qsum (map qsq s)).

Definition stub_predict (beta : qnum) (X : list (string * list qnum))
  : list qnum :=
  map (qmul beta) (rowsums X).

Definition stub_components (beta : qnum) (X : list (string * list qnum))
    (terms : list term) : list qnum :=
  map (qmul beta) (rowsums (filter (λ c, TStr c.1 ∈ terms) X)).

#[global] Instance stub_learner : Learner := {|
  predictor := qnum;
  learner_fit := stub_fit;
  predict := stub_predict;
  predict_components := stub_components
|}.

Definition qs (l : list Z) : list qnum := map qZ l.

(** A data set of eight rows: features a, b, c and the target y. *)
Definition sample_df : list (string * list qnum) :=
  [("a", qs [1; 2; 3; 4; 5; 6; 7; 8]);
   ("b", qs [2; 1; 4; 3; 1; 5; 2; 6]);
   ("c", qs [1; 0; 2; 1; 3; 0; 2; 1]);
   ("y", qs [6; 4; 13; 11; 10; 16; 13; 21])]%Z.

Definition half : qnum := Some (1 # 2)%Q.

(** [CollabExplainer(sample_df, 'y', Stub, test_size=0.5)]. *)
Definition sample_engine : res engine := init sample_df "y" half false 0.

(** An engine over no data, for a constructor that raised. *)
Definition blank : engine :=
  mkEngine [] "" [] (qZ 0) [] [] [] [] false ∅ ∅ 0 [] 0.

Definition engine_of (e : res engine) : engine :=
  match e with
  | Ok st => st
  | Raise _ => blank
  end.

Definition sample_state : engine := engine_of sample_engine.

(** The same features with a target that is constant on the test rows. *)
Definition flat_df : list (string * list qnum) :=
  [("a", qs [1; 2; 3; 4; 5; 6; 7; 8]);
   ("b", qs [2; 1; 4; 3; 1; 5; 2; 6]);
   ("c", qs [1; 0; 2; 1; 3; 0; 2; 1]);
   ("y", qs [6; 4; 13; 11; 9; 9; 9; 9])]%Z.

Definition flat_state : engine := engine_of (init flat_df "y" half false 0).

(** The same data with a missing value, a nan, among the training rows of
    feature a: the stub's coefficient, and so its predictions, are nan. *)
Definition nan_df : list (string * list qnum) :=
  [("a", None :: qs [2; 3; 4; 5; 6; 7; 8]);
   ("b", qs [2; 1; 4; 3; 1; 5; 2; 6]);
   ("c", qs [1; 0; 2; 1; 3; 0; 2; 1]);
   ("y", qs [6; 4; 13; 11; 10; 16; 13; 21])]%Z.

Definition nan_state : engine := engine_of (init nan_df "y" half false 0).

End Stub.

(** * Properties *)

(** ** Laws of the orderings *)

#[global] Instance ascii_total_cmp : TotalCmp Ascii.compare.
Proof.
  split.
  - apply Ascii.compare_eq_iff.
  - intros x. apply N.compare_refl.
  - apply Ascii.compare_antisym.
  - intros x y z. unfold Ascii.compare. rewrite !N.compare_lt_iff.
    apply N.lt_trans.
Qed.

Lemma string_compare_refl (s : string) : String.compare s s = Eq.
Proof.
  induction s as [|a s IH]; simpl; [done|].
  by rewrite (cmp_refl (cmp := Ascii.compare)).
Qed.

Lemma string_compare_trans (x y z : string) :
  String.compare x y = Lt → String.compare y z = Lt → String.compare x z = Lt.
Proof.
  revert y z. induction x as [|a x IH]; intros [|b y] [|c z]; simpl; try done.
  destruct (Ascii.compare a b) eqn:Eab; try done;
    destruct (Ascii.compare b c) eqn:Ebc; try done.
  - apply cmp_eq in Eab as ->. apply cmp_eq in Ebc as ->.
    rewrite (cmp_refl (cmp := Ascii.compare)). apply IH.
  - apply cmp_eq in Eab as ->. by rewrite Ebc.
  - apply cmp_eq in Ebc as ->. by rewrite Eab.
  - by rewrite (cmp_trans (cmp := Ascii.compare) a b c Eab Ebc).
Qed.

#[global] Instance string_total_cmp : TotalCmp String.compare.
Proof.
  split.
  - apply String.compare_eq_iff.
  - apply string_compare_refl.
  - apply String.compare_antisym.
  - apply string_compare_trans.
Qed.

Lemma tuple_compare_eq (s t : list string) : tuple_compare s t = Eq → s = t.
Proof.
  revert t. induction s as [|a s IH]; intros [|b t]; simpl; try done.
  destruct (String.compare a b) eqn:E; try done.
  intros Hst. apply cmp_eq in E as ->. by rewrite (IH t).
Qed.

Lemma tuple_compare_refl (s : list string) : tuple_compare s s = Eq.
Proof.
  induction s as [|a s IH]; simpl; [done|].
  by rewrite (cmp_refl (cmp := String.compare)).
Qed.

Lemma tuple_compare_antisym (s t : list string) :
  tuple_compare s t = CompOpp (tuple_compare t s).
Proof.
  revert t. induction s as [|a s IH]; intros [|b t]; simpl; try done.
  rewrite (cmp_antisym (cmp := String.compare) a b).
  destruct (String.compare b a); simpl; auto.
Qed.

Lemma tuple_compare_trans (x y z : list string) :
  tuple_compare x y = Lt → tuple_compare y z = Lt → tuple_compare x z = Lt.
Proof.
  revert y z. induction x as [|a x IH]; intros [|b y] [|c z]; simpl; try done.
  destruct (String.compare a b) eqn:Eab; try done;
    destruct (String.compare b c) eqn:Ebc; try done.
  - apply cmp_eq in Eab as ->. apply cmp_eq in Ebc as ->.
    rewrite (cmp_refl (cmp := String.compare)). apply IH.
  - apply cmp_eq in Eab as ->. by rewrite Ebc.
  - apply cmp_eq in Ebc as ->. by rewrite Eab.
  - by rewrite (cmp_trans (cmp := String.compare) a b c Eab Ebc).
Qed.

#[global] Instance tuple_total_cmp : TotalCmp tuple_compare.
Proof.
  split.
  - apply tuple_compare_eq.
  - apply tuple_compare_refl.
  - apply tuple_compare_antisym.
  - apply tuple_compare_trans.
Qed.

#[global] Instance key_total_cmp : TotalCmp key_compare.
Proof.
  unfold key_compare. split.
  - intros x y. destruct (Nat.compare_spec (length x) (length y)); try done.
    apply cmp_eq.
  - intros x. rewrite Nat.compare_refl. apply cmp_refl.
  - intros x y. rewrite (Nat.compare_antisym (length x) (length y)).
    destruct (length x ?= length y); simpl; try done. apply cmp_antisym.
  - intros x y z.
    destruct (Nat.compare_spec (length x) (length y)) as [Exy|Lxy|Gxy]; try done;
      destruct (Nat.compare_spec (length y) (length z)) as [Eyz|Lyz|Gyz]; try done;
      destruct (Nat.compare_spec (length x) (length z)) as [Exz|Lxz|Gxz];
      try lia; try done.
    apply cmp_trans.
Qed.

(** ** Sorting *)

Section cmp_laws.
Context {A : Type} (cmp : A → A → comparison) `{!TotalCmp cmp}.

Lemma cmp_gt_lt x y : cmp x y = Gt → cmp y x = Lt.
Proof. intros Hxy. rewrite cmp_antisym, Hxy. done. Qed.

Lemma cmp_lt_gt x y : cmp x y = Lt → cmp y x = Gt.
Proof. intros Hxy. rewrite cmp_antisym, Hxy. done. Qed.

Lemma cmp_eq_iff x y : cmp x y = Eq ↔ x = y.
Proof. split; [apply cmp_eq | intros ->; apply cmp_refl]. Qed.

Lemma leb_of_total x y : leb_of cmp x y = true ∨ leb_of cmp y x = true.
Proof.
  unfold leb_of. rewrite (cmp_antisym y x).
  destruct (cmp x y); simpl; auto.
Qed.

Lemma leb_of_antisym x y :
  leb_of cmp x y = true → leb_of cmp y x = true → x = y.
Proof.
  unfold leb_of. rewrite (cmp_antisym y x).
  destruct (cmp x y) eqn:E; simpl; try done.
  intros _ _. by apply cmp_eq.
Qed.

Lemma leb_of_trans x y z :
  leb_of cmp x y = true → leb_of cmp y z = true → leb_of cmp x z = true.
Proof.
  unfold leb_of.
  destruct (cmp x y) eqn:Exy; try done; intros _.
  - apply cmp_eq in Exy as ->. done.
  - destruct (cmp y z) eqn:Eyz; try done; intros _.
    + apply cmp_eq in Eyz as ->. by rewrite Exy.
    + by rewrite (cmp_trans x y z).
Qed.

#[local] Instance le_of_total : Total (le_of cmp).
Proof. intros x y. apply leb_of_total. Qed.
#[local] Instance le_of_trans : Transitive (le_of cmp).
Proof. intros x y z. apply leb_of_trans. Qed.
#[local] Instance le_of_antisym : AntiSymm (=) (le_of cmp).
Proof. intros x y. apply leb_of_antisym. Qed.

Lemma insert_sorted_perm x l : insert_sorted (leb_of cmp) x l ≡ₚ x :: l.
Proof.
  induction l as [|y l IH]; simpl; [done|].
  destruct (leb_of cmp x y); [done|].
  rewrite IH. apply perm_swap.
Qed.

Lemma sorted_perm l : sorted (leb_of cmp) l ≡ₚ l.
Proof.
  induction l as [|x l IH]; simpl; [done|].
  by rewrite insert_sorted_perm, IH.
Qed.

Lemma insert_sorted_Sorted x l :
  Sorted (le_of cmp) l → Sorted (le_of cmp) (insert_sorted (leb_of cmp) x l).
Proof.
  induction 1 as [|y l Hs IH Hhd]; simpl.
  - repeat constructor.
  - destruct (leb_of cmp x y) eqn:E.
    + constructor; [by constructor|]. by constructor.
    + constructor; [done|].
      assert (le_of cmp y x) as Hyx.
      { destruct (leb_of_total x y) as [H|H]; [congruence|done]. }
      destruct Hhd as [|z l' Hyz]; simpl.
      * by constructor.
      * destruct (leb_of cmp x z); by constructor.
Qed.

Lemma sorted_Sorted l : Sorted (le_of cmp) (sorted (leb_of cmp) l).
Proof.
  induction l as [|x l IH]; simpl; [constructor|].
  by apply insert_sorted_Sorted.
Qed.

(** The output of [sorted] depends on the multiset of its input only. *)
Lemma sorted_perm_eq l1 l2 :
  l1 ≡ₚ l2 → sorted (leb_of cmp) l1 = sorted (leb_of cmp) l2.
Proof.
  intros Hp. apply (Sorted_unique (le_of cmp)); try apply sorted_Sorted.
  by rewrite !sorted_perm.
Qed.

Lemma sorted_idemp l :
  sorted (leb_of cmp) (sorted (leb_of cmp) l) = sorted (leb_of cmp) l.
Proof.
  apply (Sorted_unique (le_of cmp)); try apply sorted_Sorted.
  by rewrite sorted_perm.
Qed.

Lemma sorted_fixed l : Sorted (le_of cmp) l → sorted (leb_of cmp) l = l.
Proof.
  intros Hs. apply (Sorted_unique (le_of cmp)); [apply sorted_Sorted|done|].
  apply sorted_perm.
Qed.
End cmp_laws.

(** ** Canonicalization *)

Lemma key_le_iff (x y : list string) :
  le_of key_compare x y ↔
  length x < length y ∨ (length x = length y ∧ le_of tuple_compare x y).
Proof.
  unfold le_of, leb_of, key_compare.
  destruct (Nat.compare_spec (length x) (length y)) as [E|L|G].
  - split; [auto|]. intros [?|[_ ?]]; [lia|done].
  - split; [auto|done].
  - split; [done|]. intros [?|[? _]]; lia.
Qed.

Lemma inner_sort_reordering (comb : list (list string)) :
  Forall2 Permutation comb (map sorted_str comb).
Proof.
  induction comb as [|g comb IH]; simpl; constructor; [|done].
  symmetry. apply sorted_perm; apply _.
Qed.

Lemma inner_sort_invariant (comb mid : list (list string)) :
  Forall2 Permutation comb mid → map sorted_str comb = map sorted_str mid.
Proof.
  induction 1 as [|g g' comb mid Hg _ IH]; simpl; [done|].
  f_equal; [|done]. unfold sorted_str. by apply sorted_perm_eq; try apply _.
Qed.

Lemma sort_comb_full (comb : list (list string)) :
  sort_comb comb false = sorted (leb_of key_compare) (map sorted_str comb).
Proof. done. Qed.

Lemma sort_comb_inner (comb : list (list string)) :
  sort_comb comb true = map sorted_str comb.
Proof. done. Qed.

Lemma sort_comb_reordering (comb comb' : list (list string)) :
  reordering comb comb' → sort_comb comb false = sort_comb comb' false.
Proof.
  intros (mid & Hin & Hout). rewrite !sort_comb_full.
  rewrite (inner_sort_invariant comb mid Hin).
  apply sorted_perm_eq; try apply _. by apply Permutation_map.
Qed.

Lemma sort_comb_swap (G1 G2 : list string) :
  sort_comb [G1; G2] false = sort_comb [G2; G1] false.
Proof.
  apply sort_comb_reordering. exists [G1; G2]. split.
  - by repeat constructor.
  - apply perm_swap.
Qed.

(** C8: full canonicalization sorts inside each group, then the groups by
    (cardinality, tuple); its output is the same for every permutation of
    the groups and every reordering inside them, so [G1, G2] and [G2, G1]
    get one canonical key. *)
Theorem sort_comb_permutation_invariant (comb comb' : list (list string)) :
  reordering comb comb' →
  sort_comb comb false = sort_comb comb' false
  ∧ Forall (Sorted (le_of String.compare)) (sort_comb comb false)
  ∧ Sorted (le_of key_compare) (sort_comb comb false)
  ∧ reordering comb (sort_comb comb false)
  ∧ (∀ G1 G2, sort_comb [G1; G2] false = sort_comb [G2; G1] false).
Proof.
  intros Hre. split; [by apply sort_comb_reordering|].
  rewrite sort_comb_full. repeat split.
  - rewrite (sorted_perm key_compare). apply Forall_forall.
    intros g Hg. apply list_elem_of_fmap in Hg as (g0 & -> & _).
    apply sorted_Sorted; apply _.
  - apply sorted_Sorted; apply _.
  - exists (map sorted_str comb). split; [apply inner_sort_reordering|].
    symmetry. apply sorted_perm; apply _.
  - apply sort_comb_swap.
Qed.

Lemma sort_comb_permutation_invariant_witness :
  reordering [["b"; "a"]; ["c"]] [["c"]; ["a"; "b"]]
  ∧ sort_comb [["b"; "a"]; ["c"]] false
    = sort_comb [["c"]; ["a"; "b"]] false.
Proof.
  assert (reordering [["b"; "a"]; ["c"]] [["c"]; ["a"; "b"]]) as Hre.
  { exists [["a"; "b"]; ["c"]]. split.
    - constructor; [apply perm_swap|]. by repeat constructor.
    - apply perm_swap. }
  split; [exact Hre|].
  apply (sort_comb_permutation_invariant _ _ Hre).
Defined.

(** ** Term algebra *)

Lemma elem_of_map {A B} (f : A → B) (l : list A) (y : B) :
  y ∈ map f l ↔ ∃ x, y = f x ∧ x ∈ l.
Proof. apply list_elem_of_fmap. Qed.

Lemma elem_of_concat {A} (ls : list (list A)) (x : A) :
  x ∈ concat ls ↔ ∃ l, x ∈ l ∧ l ∈ ls.
Proof.
  induction ls as [|l0 ls IH]; simpl.
  - split; [by intros ?%elem_of_nil|]. by intros (l & _ & ?%elem_of_nil).
  - rewrite elem_of_app, IH. split.
    + intros [H|(l & H1 & H2)]; [exists l0|exists l]; split; try done.
      * apply elem_of_cons; by left.
      * apply elem_of_cons; by right.
    + intros (l & H1 & [->|H2]%elem_of_cons); [by left|right; eauto].
Qed.

Lemma combinations_0 {A} (l : list A) : combinations l 0 = [[]].
Proof. by destruct l. Qed.

(** [itertools.combinations(l, d)] lists exactly the subsequences of [l]
    with [d] elements. *)
Lemma elem_of_combinations {A} (l : list A) (d : nat) (t : list A) :
  t ∈ combinations l d ↔ t `sublist_of` l ∧ length t = d.
Proof.
  revert d t. induction l as [|x l IH]; intros [|d] t.
  - simpl. rewrite list_elem_of_singleton, sublist_nil_r. split.
    + by intros ->.
    + by intros [-> _].
  - simpl. rewrite elem_of_nil, sublist_nil_r. split; [done|].
    by intros [-> ?].
  - rewrite combinations_0, list_elem_of_singleton. split.
    + intros ->. split; [apply sublist_nil_l|done].
    + intros [_ Hlen]. by destruct t.
  - simpl. rewrite elem_of_app, elem_of_map, sublist_cons_r, !IH. split.
    + intros [(t' & -> & [Hsub Hlen]%IH)|[Hsub Hlen]].
      * split; [right; eauto|]. simpl. by rewrite Hlen.
      * split; [by left|done].
    + intros [[Hsub|(t' & -> & Hsub)] Hlen].
      * by right.
      * left. exists t'. split; [done|]. rewrite IH. split; [done|].
        simpl in Hlen. lia.
Qed.

Lemma elem_of_range2 (order : Z) (d : nat) :
  d ∈ range2 order ↔ 2 ≤ d ∧ (Z.of_nat d ≤ order)%Z.
Proof. unfold range2. rewrite elem_of_seq. lia. Qed.

(** What [__get_terms] enumerates when nothing is excluded. *)
Lemma elem_of_get_terms (fs0 : list string) (order : Z) (t : term) :
  t ∈ get_terms fs0 order [] ↔ ∃ l, t = TTuple l ∧ term_over fs0 order l.
Proof.
  unfold get_terms, term_over. rewrite list_elem_of_filter, elem_of_concat.
  split.
  - intros (_ & ts & Ht & (d & -> & Hd)%elem_of_map).
    apply elem_of_map in Ht as (l & -> & Hl).
    apply elem_of_combinations in Hl as [Hsub Hlen].
    apply elem_of_range2 in Hd. exists l. rewrite Hlen. done.
  - intros (l & -> & Hsub & H2 & Hord). split; [apply not_elem_of_nil|].
    exists (map TTuple (combinations fs0 (length l))). split.
    + apply elem_of_map. exists l. split; [done|].
      by apply elem_of_combinations.
    + apply elem_of_map. exists (length l). split; [done|].
      by apply elem_of_range2.
Qed.

(** In a list without duplicates, a subsequence whose elements all lie in
    another subsequence is a subsequence of that one. *)
Lemma sublist_restrict {A} (l k t : list A) :
  NoDup l → k `sublist_of` l → t `sublist_of` l →
  (∀ x, x ∈ t → x ∈ k) → t `sublist_of` k.
Proof.
  intros Hnd. revert k t.
  induction Hnd as [|x l Hx Hnd IH]; intros k t Hk Ht Hin.
  - apply sublist_nil_r in Ht as ->. apply sublist_nil_l.
  - apply sublist_cons_r in Hk as [Hk|(k' & -> & Hk)];
      apply sublist_cons_r in Ht as [Ht|(t' & -> & Ht)].
    + by apply IH.
    + exfalso. apply Hx. apply (elem_of_sublist k); [|done].
      apply Hin. apply elem_of_cons; by left.
    + apply sublist_cons. apply IH; [done..|].
      intros y Hy. pose proof (Hin y Hy) as [->|?]%elem_of_cons; [|done].
      exfalso. apply Hx. by apply (elem_of_sublist t).
    + apply sublist_skip. apply IH; [done..|].
      intros y Hy. pose proof (Hin y) as Hy'. rewrite !elem_of_cons in Hy'.
      destruct Hy' as [->|?]; [by right| |done].
      exfalso. apply Hx. by apply (elem_of_sublist t').
Qed.

Lemma group_sublist_concat (comb : list (list string)) (g C : list string) :
  g ∈ comb → (g ++ C) `sublist_of` (concat comb ++ C).
Proof.
  intros (c1 & c2 & ->)%list_elem_of_split.
  apply sublist_app; [|done]. rewrite concat_app. simpl.
  apply sublist_inserts_l, sublist_inserts_r. done.
Qed.

(** A feature of a duplicate-free combination has one group. *)
Lemma group_unique (comb : list (list string)) (i j : nat)
    (gi gj : list string) (x : string) :
  NoDup (concat comb) → comb !! i = Some gi → comb !! j = Some gj →
  x ∈ gi → x ∈ gj → i = j.
Proof.
  revert i j. induction comb as [|g comb IH]; intros i j Hnd Hi Hj Hxi Hxj.
  - done.
  - simpl in Hnd. apply NoDup_app in Hnd as (_ & Hdisj & Hnd).
    destruct i as [|i], j as [|j]; simpl in *; simplify_eq.
    + done.
    + exfalso. apply (Hdisj x Hxi). apply elem_of_concat.
      exists gj. split; [done|]. by apply list_elem_of_lookup_2 with j.
    + exfalso. apply (Hdisj x Hxj). apply elem_of_concat.
      exists gi. split; [done|]. by apply list_elem_of_lookup_2 with i.
    + f_equal. by apply IH.
Qed.

Lemma allowed_iff_within (comb : list (list string)) (order : Z)
    (C l : list string) :
  NoDup (concat comb ++ C) → term_over (concat comb ++ C) order l →
  (∃ g, g ∈ comb ∧ TTuple l ∈ get_terms (g ++ C) order []) ↔
  within_group comb C l.
Proof.
  intros Hnd (Hsub & H2 & Hord). split.
  - intros (g & Hg & (l' & [= <-] & Hsub' & _)%elem_of_get_terms).
    exists g. split; [done|]. intros x Hx. apply elem_of_app.
    by apply (elem_of_sublist l).
  - intros (g & Hg & Hin). exists g. split; [done|].
    apply elem_of_get_terms. exists l. split; [done|]. repeat split; try done.
    apply (sublist_restrict (concat comb ++ C)); try done.
    + by apply group_sublist_concat.
    + intros x Hx. apply elem_of_app. auto.
Qed.

Lemma cross_iff_not_within (comb : list (list string)) (C l : list string) :
  comb ≠ [] → NoDup (concat comb ++ C) →
  (∀ x, x ∈ l → x ∈ concat comb ++ C) →
  cross_group comb l ↔ ¬ within_group comb C l.
Proof.
  intros Hne Hnd Hl.
  apply NoDup_app in Hnd as (Hndc & Hdisj & _).
  assert (∀ g, g ∈ comb → ¬ (∀ x, x ∈ l → x ∈ g ∨ x ∈ C) →
          ∃ x i gi, x ∈ l ∧ (x ∉ g) ∧ (comb !! i = Some gi) ∧ x ∈ gi) as Hout.
  { intros g Hg Hnot.
    assert (¬ Forall (λ x, x ∈ g ∨ x ∈ C) l) as Hnf.
    { rewrite Forall_forall. done. }
    apply not_Forall_Exists in Hnf; [|apply _].
    apply Exists_exists in Hnf as (x & Hx & Hxn). simpl in Hxn.
    pose proof (Hl x Hx) as [Hxc|Hxc]%elem_of_app; [|tauto].
    apply elem_of_concat in Hxc as (gi & Hxgi & Hgi).
    apply list_elem_of_lookup_1 in Hgi as [i Hi].
    exists x, i, gi. tauto. }
  split.
  - intros (i & j & gi & gj & x & y & Hij & Hi & Hj & Hxi & Hyj & Hxl & Hyl).
    intros (g & Hg & Hin).
    apply list_elem_of_lookup_1 in Hg as [k Hk].
    assert (x ∈ g) as Hxg.
    { destruct (Hin x Hxl) as [?|HC]; [done|]. exfalso.
      apply (Hdisj x); [|done]. apply elem_of_concat. exists gi.
      split; [done|]. by apply list_elem_of_lookup_2 with i. }
    assert (y ∈ g) as Hyg.
    { destruct (Hin y Hyl) as [?|HC]; [done|]. exfalso.
      apply (Hdisj y); [|done]. apply elem_of_concat. exists gj.
      split; [done|]. by apply list_elem_of_lookup_2 with j. }
    apply Hij. transitivity k.
    + by apply (group_unique comb i k gi g x).
    + symmetry. by apply (group_unique comb j k gj g y).
  - intros Hnw. destruct comb as [|g0 comb']; [done|].
    destruct (Hout g0) as (x & i & gi & Hxl & _ & Hi & Hxi).
    { apply elem_of_cons; by left. }
    { intros Hin. apply Hnw. exists g0. split; [|done].
      apply elem_of_cons; by left. }
    destruct (Hout gi) as (y & j & gj & Hyl & Hyn & Hj & Hyj).
    { by apply list_elem_of_lookup_2 with i. }
    { intros Hin. apply Hnw. exists gi. split; [|done].
      by apply list_elem_of_lookup_2 with i. }
    exists i, j, gi, gj, x, y. repeat split; try done.
    intros ->. by simplify_eq.
Qed.

Lemma elem_of_excluded_terms (comb : list (list string)) (order : Z)
    (C : list string) (t : term) :
  t ∈ get_excluded_terms comb order C ↔
  t ∈ get_terms (concat comb ++ C) order [] ∧
  ∀ g, g ∈ comb → t ∉ get_terms (g ++ C) order [].
Proof.
  unfold get_excluded_terms. rewrite list_elem_of_filter.
  split.
  - intros [Hno Hall]. split; [done|].
    intros g Hg Hin. apply Hno. apply elem_of_concat.
    exists (get_terms (g ++ C) order []). split; [done|].
    apply elem_of_map. by exists g.
  - intros [Hall Hno]. split; [|done].
    intros (ts & Hin & (g & -> & Hg)%elem_of_map)%elem_of_concat.
    by apply (Hno g).
Qed.

(** C7: for disjoint duplicate-free groups and a conditioning set disjoint
    from them, [__get_excluded_terms] returns exactly the terms of size 2 to
    [order] over all groups and [C] that have features of more than one
    group; it is the difference of the terms over everything and the terms
    over each single group joined with [C], and no term inside one group
    joined with [C] (a pure-[C] term among them) is excluded. *)
Theorem excluded_terms_cross_group (comb : list (list string)) (order : Z)
    (C : list string) :
  comb ≠ [] → NoDup (concat comb ++ C) →
  (∀ t, t ∈ get_excluded_terms comb order C ↔
        ∃ l, t = TTuple l ∧ term_over (concat comb ++ C) order l
             ∧ cross_group comb l)
  ∧ (∀ t, t ∈ get_excluded_terms comb order C ↔
          t ∈ get_terms (concat comb ++ C) order [] ∧
          ∀ g, g ∈ comb → t ∉ get_terms (g ++ C) order [])
  ∧ (∀ l, within_group comb C l →
          TTuple l ∉ get_excluded_terms comb order C).
Proof.
  intros Hne Hnd.
  assert (∀ l, term_over (concat comb ++ C) order l →
               ∀ x, x ∈ l → x ∈ concat comb ++ C) as Hsubset.
  { intros l (Hsub & _) x Hx. by apply (elem_of_sublist l). }
  split; [|split].
  - intros t. split.
    + intros (Hall & Hno)%elem_of_excluded_terms.
      apply elem_of_get_terms in Hall as (l & -> & Hover).
      exists l. split; [done|]. split; [done|].
      apply (cross_iff_not_within comb C l); eauto.
      intros Hw. apply (allowed_iff_within comb order C l) in Hw; [|done..].
      destruct Hw as (g & Hg & Hin). by apply (Hno g).
    + intros (l & -> & Hover & Hcross). apply elem_of_excluded_terms. split.
      * apply elem_of_get_terms. eauto.
      * intros g Hg Hin.
        apply (cross_iff_not_within comb C l) in Hcross; eauto.
        apply Hcross. apply (allowed_iff_within comb order C l); eauto.
  - intros t. apply elem_of_excluded_terms.
  - intros l Hw (Hall & Hno)%elem_of_excluded_terms.
    apply (allowed_iff_within comb order C l) in Hw; [|done|].
    + destruct Hw as (g & Hg & Hin). by apply (Hno g).
    + by apply elem_of_get_terms in Hall as (l' & [= <-] & Hover).
Qed.

Lemma excluded_terms_cross_group_witness :
  ([["a"; "b"]; ["c"]] ≠ []
   ∧ NoDup (concat [["a"; "b"]; ["c"]] ++ ["d"]))
  ∧ ∀ t, t ∈ get_excluded_terms [["a"; "b"]; ["c"]] 2 ["d"] ↔
         ∃ l, t = TTuple l
              ∧ term_over (concat [["a"; "b"]; ["c"]] ++ ["d"]) 2 l
              ∧ cross_group [["a"; "b"]; ["c"]] l.
Proof.
  assert (NoDup (concat [["a"; "b"]; ["c"]] ++ ["d"])) as Hnd.
  { apply (bool_decide_unpack _). vm_compute. exact I. }
  split; [split; [done|exact Hnd]|].
  apply (excluded_terms_cross_group [["a"; "b"]; ["c"]] 2 ["d"]);
    [done|exact Hnd].
Defined.

Example excluded_terms_sample :
  get_excluded_terms [["a"; "b"]; ["c"]] 2 ["d"]
  = [TTuple ["a"; "c"]; TTuple ["b"; "c"]].
Proof. vm_compute. reflexivity. Qed.

(** ** The decomposition *)

(** Supplies the value a closed computation returns. *)
Ltac exists_ok t :=
  let v := eval vm_compute in t in
  match v with Ok ?a => exists a end.

(** Closed equations and disequations, decided by evaluation. *)
Ltac vm_refl :=
  lazymatch goal with
  | |- ?l = ?r => vm_cast_no_check (@eq_refl _ r)
  end.

Lemma Ok_neq {A} (a b : A) : a ≠ b → Ok a ≠ Ok b.
Proof. by intros Hne [=]. Qed.

Ltac vm_neq :=
  lazymatch goal with
  | |- ?l ≠ ?r => apply (bool_decide_eq_false_1 (l = r)); vm_refl
  end.

Section decomposition.
Context `{Lrn : Learner}.

(** Five of the six returned values carry the factor; the fourth is the
    covariance-adjusted additive term as it was before the rescaling: line
    320 multiplies [additive_collab], which nothing reads afterwards. *)
Lemma assemble_fields (var_f1 var_f2 var_GAM var_total var_fC cov var_y_res
    var_y : num) :
  let d := assemble var_f1 var_f2 var_GAM var_total var_fC cov var_y_res var_y in
  let factor := factor_of var_y_res var_y in
  series_at d "var_g1" = Ok (fmul var_f1 factor)
  ∧ series_at d "var_g2" = Ok (fmul var_f2 factor)
  ∧ series_at d "var_gC" = Ok (fmul var_fC factor)
  ∧ series_at d "additive_collab_explv"
    = Ok (wo_cov_of var_f1 var_f2 var_GAM cov var_y_res)
  ∧ series_at d "additive_collab_cov"
    = Ok (fmul (of_Z (-2)) (fmul (fdiv cov var_y_res) factor))
  ∧ series_at d "interactive_collab"
    = Ok (fmul (fsub var_total var_GAM) factor).
Proof. repeat split. Qed.

Lemma assemble_index (var_f1 var_f2 var_GAM var_total var_fC cov var_y_res
    var_y : num) :
  (assemble var_f1 var_f2 var_GAM var_total var_fC cov var_y_res var_y).*1
  = RETURN_NAMES.
Proof. reflexivity. Qed.
End decomposition.

(** C1: on the sample engine, with [C = ['c']], the factor is 18329/2376;
    [var_g1], [var_g2], [var_gC], [additive_collab_cov] and
    [interactive_collab] come back multiplied by it, and
    [additive_collab_explv] comes back as the additive term without it. *)
Theorem compute_explv_not_rescaled :
  ∃ p s,
    (compute_parts [GList ["a"]; GList ["b"]] 2 ["c"] Stub.sample_state).1 = Ok p
    ∧ (compute [GList ["a"]; GList ["b"]] 2 ["c"] Stub.sample_state).1 = Ok s
    ∧ factor_of (p_var_y_res p) (p_var_y p) = Some (18329 # 2376)%Q
    ∧ field s "var_g1"
      = Ok (fmul (p_var_f1 p) (factor_of (p_var_y_res p) (p_var_y p)))
    ∧ field s "additive_collab_explv"
      = Ok (wo_cov_of (p_var_f1 p) (p_var_f2 p) (p_var_GAM p) (p_cov p)
              (p_var_y_res p))
    ∧ field s "additive_collab_explv"
      ≠ Ok (fmul (wo_cov_of (p_var_f1 p) (p_var_f2 p) (p_var_GAM p) (p_cov p)
                    (p_var_y_res p))
                 (factor_of (p_var_y_res p) (p_var_y p))).
Proof.
  exists_ok (compute_parts [GList ["a"]; GList ["b"]] 2 ["c"] Stub.sample_state).1.
  exists_ok (compute [GList ["a"]; GList ["b"]] 2 ["c"] Stub.sample_state).1.
  do 4 (split; [vm_refl|]).
  match goal with |- ?a = ?b ∧ _ => assert (a = b) as H5 by vm_refl end.
  split; [exact H5|]. rewrite H5. apply Ok_neq. vm_neq.
Qed.

(** ** The query layer *)

Section queries.
Context `{Lrn : Learner}.

Lemma check_groups_shorthand (fs0 : list string) (a b : string) :
  check_groups fs0 [GStr a; GStr b] = check_groups fs0 [GList [a]; GList [b]].
Proof. reflexivity. Qed.

Lemma assert_comb_valid_shorthand (a b : string) (C : list string) (st : engine) :
  assert_comb_valid [GStr a; GStr b] C st
  = assert_comb_valid [GList [a]; GList [b]] C st.
Proof. reflexivity. Qed.

(** C9: [get(['a', 'b'], C)] and [get([['a'], ['b']], C)] are one
    computation: the same result or the same exception, and the same engine
    afterwards (both caches, the fit log, the objects made). The same holds
    for [compute]. *)
Theorem get_single_feature_shorthand (a b : string) (C : list string)
    (order : Z) (st : engine) :
  get [GStr a; GStr b] C st = get [GList [a]; GList [b]] C st
  ∧ compute [GStr a; GStr b] order C st
    = compute [GList [a]; GList [b]] order C st.
Proof. split; reflexivity. Qed.

Lemma disjointb_nil (l : list string) : disjointb l [] = true.
Proof.
  unfold disjointb. apply bool_decide_eq_true. apply Forall_forall.
  intros x _. apply not_elem_of_nil.
Qed.

Lemma check_groups_raise (fs0 : list string) (comb : list group_arg) (e : exn) :
  check_groups fs0 comb = Raise e →
  e = AssertionError "The elements of the combination must be strings or lists"
  ∨ e = AssertionError "Feature not in the dataset".
Proof.
  induction comb as [|g comb IH]; simpl; [done|].
  destruct g as [s|l|l|]; simpl;
    try (case_bool_decide; [|intros [= <-]; by right];
         destruct (check_groups fs0 comb); simpl; [done|];
         intros [= <-]; by apply IH).
  intros [= <-]. by left.
Qed.

(** Called without [C], the validator cannot raise the assertion on the
    conditioning set. *)
Lemma assert_comb_valid_without_C (comb : list group_arg) (st : engine) :
  (assert_comb_valid comb [] st).1
  ≠ Raise (AssertionError
      "the conditioning set must be disjoint from the two sets").
Proof.
  unfold assert_comb_valid, bind, gets, lift, ret, raise.
  case_bool_decide; [|done]. simpl.
  destruct (check_groups _ _) eqn:Hc; simpl; [|].
  - rewrite disjointb_nil. by destruct (disjointb _ _).
  - by destruct (check_groups_raise _ _ _ Hc) as [-> | ->].
Qed.

(** [new_split] touches the decomposition cache and never the model cache. *)
Lemma new_split_models (ts : option num) (st : engine) :
  models (new_split ts st).2 = models st.
Proof.
  unfold new_split, bind, gets, modify, lift, ret.
  destruct ts as [ts|]; simpl;
    destruct (loc_cols _ _); simpl; try done;
    destruct (column _ _); simpl; try done;
    destruct (train_test_split _ _ _ _) as [[[[[??]?]?]?]|]; done.
Qed.

Lemma new_split_fit_log (ts : option num) (st : engine) :
  fit_log (new_split ts st).2 = fit_log st.
Proof.
  unfold new_split, bind, gets, modify, lift, ret.
  destruct ts as [ts|]; simpl;
    destruct (loc_cols _ _); simpl; try done;
    destruct (column _ _); simpl; try done;
    destruct (train_test_split _ _ _ _) as [[[[[??]?]?]?]|]; done.
Qed.
End queries.

(** C2: [get] and [compute] call the validator without [C], and so called
    it never raises the assertion on the conditioning set. On the sample
    engine [get([['a'], ['b']], C=['a'])] is not rejected: the validator,
    given that [C], raises the overlap assertion; [get] goes on to fit
    seven learners and returns a Series. *)
Theorem get_overlapping_C_not_rejected :
  (∀ `{Lrn : Learner} (comb : list group_arg) (st : engine),
      (assert_comb_valid comb [] st).1
      ≠ Raise (AssertionError
          "the conditioning set must be disjoint from the two sets"))
  ∧ (assert_comb_valid [GList ["a"]; GList ["b"]] ["a"] Stub.sample_state).1
    = Raise (AssertionError
        "the conditioning set must be disjoint from the two sets")
  ∧ (assert_comb_valid [GList ["a"]; GList ["b"]] [] Stub.sample_state).1
    = Ok [["a"]; ["b"]]
  ∧ (∃ s, (get [GList ["a"]; GList ["b"]] ["a"] Stub.sample_state).1 = Ok s)
  ∧ fit_log Stub.sample_state = []
  ∧ length (fit_log (get [GList ["a"]; GList ["b"]] ["a"] Stub.sample_state).2)
    = 7.
Proof.
  split; [intros; apply assert_comb_valid_without_C|].
  split; [vm_refl|]. split; [vm_refl|].
  split; [|split; vm_refl].
  exists_ok (get [GList ["a"]; GList ["b"]] ["a"] Stub.sample_state).1.
  vm_refl.
Qed.

(** C3: [new_split] leaves the model cache as it was, for every engine and
    argument. On the sample engine, a query, a resplit and the same query
    again: the training rows have changed, the four predictors fitted on
    the old rows are still cached, and the second query fits nothing. *)
Theorem new_split_keeps_models :
  (∀ `{Lrn : Learner} (ts : option num) (st : engine),
      models (new_split ts st).2 = models st)
  ∧ (let st1 := (get [GStr "a"; GStr "b"] [] Stub.sample_state).2 in
     let st2 := (new_split None st1).2 in
     let st3 := (get [GStr "a"; GStr "b"] [] st2).2 in
     X_train st2 ≠ X_train st1
     ∧ decomps st2 = ∅
     ∧ size (models st1) = 4 ∧ size (models st2) = 4
     ∧ length (fit_log st1) = 4 ∧ length (fit_log st3) = 4).
Proof.
  split; [intros; apply new_split_models|].
  intros st1 st2 st3. subst st1 st2 st3.
  split_and!; try vm_refl. vm_neq.
Qed.

(** C4: on the sample engine, asking first for [[['b'], ['a']]] and then
    for [[['a'], ['b']]] gives the same [var_g1] and the same [var_g2]
    twice, although the two differ: the miss returns the Series in
    canonical order and only a hit is relabelled. Asked in the other order,
    the two answers have the fields exchanged. *)
Theorem get_miss_not_relabelled :
  let ba := [GList ["b"]; GList ["a"]] in
  let ab := [GList ["a"]; GList ["b"]] in
  (∃ s1 s2 v1 v2,
      (get ba [] Stub.sample_state).1 = Ok s1
      ∧ (get ab [] (get ba [] Stub.sample_state).2).1 = Ok s2
      ∧ field s1 "var_g1" = Ok v1 ∧ field s2 "var_g1" = Ok v1
      ∧ field s1 "var_g2" = Ok v2 ∧ field s2 "var_g2" = Ok v2
      ∧ v1 ≠ v2)
  ∧ (∃ s1 s2 v1 v2,
      (get ab [] Stub.sample_state).1 = Ok s1
      ∧ (get ba [] (get ab [] Stub.sample_state).2).1 = Ok s2
      ∧ field s1 "var_g1" = Ok v1 ∧ field s2 "var_g1" = Ok v2
      ∧ field s1 "var_g2" = Ok v2 ∧ field s2 "var_g2" = Ok v1
      ∧ v1 ≠ v2).
Proof.
  intros ba ab. subst ba ab. split.
  - exists_ok (get [GList ["b"]; GList ["a"]] [] Stub.sample_state).1.
    exists_ok (get [GList ["a"]; GList ["b"]] []
                 (get [GList ["b"]; GList ["a"]] [] Stub.sample_state).2).1.
    exists (Some (-15011 # 9900)%Q), (Some (-2791 # 9900)%Q).
    split_and!; try vm_refl. vm_neq.
  - exists_ok (get [GList ["a"]; GList ["b"]] [] Stub.sample_state).1.
    exists_ok (get [GList ["b"]; GList ["a"]] []
                 (get [GList ["a"]; GList ["b"]] [] Stub.sample_state).2).1.
    exists (Some (-15011 # 9900)%Q), (Some (-2791 # 9900)%Q).
    split_and!; try vm_refl. vm_neq.
Qed.

(** C6 fails as stated: the evaluation target of [flat_state] is constant,
    its variance is zero, and [compute] raises nothing: it returns a Series
    whose values are what division by zero gives. *)
Lemma compute_zero_variance_returns :
  np_var (sub_pred (y_test Stub.flat_state) (PScalar (of_Z 0))) = of_Z 0
  ∧ ¬ (∃ e st', compute [GList ["a"]; GList ["b"]] 2 [] Stub.flat_state
                = (Raise e, st'))
  ∧ ∃ s, (compute [GList ["a"]; GList ["b"]] 2 [] Stub.flat_state).1 = Ok s
         ∧ field s "var_gC" = Ok None.
Proof.
  split; [vm_refl|]. split.
  - assert (is_Ok (compute [GList ["a"]; GList ["b"]] 2 [] Stub.flat_state).1
            = true) as Hok by vm_refl.
    intros (e & st' & Heq). rewrite Heq in Hok. discriminate Hok.
  - exists_ok (compute [GList ["a"]; GList ["b"]] 2 [] Stub.flat_state).1.
    split; vm_refl.
Qed.

(** ** The model cache *)

Section model_cache.
Context `{Lrn : Learner}.

#[global] Instance same_data_preorder : PreOrder same_data.
Proof.
  split.
  - by intros st.
  - intros st1 st2 st3. unfold same_data. intros H12 H23.
    destruct_and!. repeat split; congruence.
Qed.

#[global] Instance later_preorder : PreOrder later.
Proof.
  split.
  - intros st. unfold later. split_and!; done.
  - intros st1 st2 st3 (Hd1 & Hm1 & Hn1 & Hl1 & Hi1) (Hd2 & Hm2 & Hn2 & Hl2 & Hi2).
    unfold later. split_and!; [by etrans..|auto].
Qed.

Lemma steps_bind {A B} (R : engine → engine → Prop) `{!PreOrder R}
    (m : M A) (k : A → M B) :
  steps R m → (∀ a, steps R (k a)) → steps R (bind m k).
Proof.
  intros Hm Hk st. unfold bind. specialize (Hm st).
  destruct (m st) as [[a|e] st1]; simpl in *; [|done].
  etrans; [done|]. apply Hk.
Qed.

Lemma steps_pure {A} (R : engine → engine → Prop) `{!PreOrder R} (m : M A) :
  (∀ st, (m st).2 = st) → steps R m.
Proof. intros Hm st. by rewrite Hm. Qed.
End model_cache.

Section model_cache_facts.
Context `{Lrn : Learner}.

Lemma sorted_str_idemp (l : list string) : sorted_str (sorted_str l) = sorted_str l.
Proof. apply sorted_idemp; apply _. Qed.

Lemma sorted_str_perm (l : list string) : sorted_str l ≡ₚ l.
Proof. apply sorted_perm; apply _. Qed.

(** [__get_model] is its explicit form, for every recursion depth from two
    on: the depth bound is never met. *)
Lemma get_model_fuel_unfold (n : nat) (comb : list (list string)) (order : Z)
    (C : list string) (st : engine) :
  get_model_fuel (S (S n)) comb order C st = get_model_explicit comb order C st.
Proof.
  unfold get_model_explicit, fit_step, exclude_for, fitted.
  unfold get_model_fuel, get_model_body, bind, gets, lift, ret, modify,
    new_fitted, fresh, log_fit, bind, ret, modify, set_models.
  destruct (models st !! _) eqn:Hk; [done|].
  destruct (bool_decide (0 < length (sorted_str C))) eqn:HC.
  - simpl.
    change (sort_comb [sorted_str C] false) with [sorted_str (sorted_str C)].
    change (sorted_str []) with (@nil string).
    rewrite sorted_str_idemp, !app_nil_r.
    destruct (models st !! (order, [sorted_str C], [])) eqn:Hc.
    + simpl. destruct (loc_cols (X_train st) (sorted_str C)); simpl; [|done].
      by destruct (loc_cols (X_train st) (concat comb ++ C)).
    + simpl. destruct (loc_cols (X_train st) (sorted_str C)) eqn:E1; simpl;
        rewrite ?E1; simpl; [|done].
      by destruct (loc_cols (X_train st) (concat comb ++ C)).
  - simpl. by destruct (loc_cols (X_train st) (concat comb ++ C)).
Qed.

Lemma get_model_unfold (comb : list (list string)) (order : Z)
    (C : list string) (st : engine) :
  get_model comb order C st = get_model_explicit comb order C st.
Proof. apply (get_model_fuel_unfold 0). Qed.

(** A cached key is served as it is stored, and nothing else happens. *)
Lemma get_model_hit (comb : list (list string)) (order : Z) (C : list string)
    (st : engine) (m : predictor_obj) :
  models st !! (order, sort_comb comb false, sorted_str C) = Some m →
  get_model comb order C st = (Ok m, st).
Proof.
  intros Hm. rewrite get_model_unfold. unfold get_model_explicit.
  by rewrite Hm.
Qed.

Lemma column_ok (X : table) (c : string) :
  c ∈ X.*1 → ∃ v, column X c = Ok v.
Proof.
  intros ((c' & v) & -> & Hin)%list_elem_of_fmap. unfold column.
  destruct (list_find _ X) as [[i [c'' v'']]|] eqn:Hf; [eauto|].
  apply list_find_None in Hf. rewrite Forall_forall in Hf.
  by destruct (Hf _ Hin).
Qed.

Lemma loc_cols_ok (X : table) (cols : list string) :
  Forall (λ c, c ∈ X.*1) cols → ∃ T, loc_cols X cols = Ok T.
Proof.
  unfold loc_cols. induction 1 as [|c cols Hc _ [T IH]]; simpl; [eauto|].
  destruct (column_ok X c Hc) as [v ->]. simpl. rewrite IH. simpl. eauto.
Qed.

Lemma loc_cols_raise (X : table) (cols : list string) (e : exn) :
  loc_cols X cols = Raise e → ∃ c, e = KeyError c ∧ c ∈ cols ∧ c ∉ X.*1.
Proof.
  unfold loc_cols. induction cols as [|c cols IH]; simpl; [done|].
  unfold column at 1.
  destruct (list_find _ X) as [[i [c' v]]|] eqn:Hf; simpl.
  - destruct (res_mapM _ cols) eqn:Hr; simpl; [done|].
    intros [= <-]. destruct (IH eq_refl) as (c0 & -> & Hin & Hno).
    exists c0. split; [done|]. split; [|done]. apply elem_of_cons; by right.
  - intros [= <-]. exists c. split; [done|]. split; [apply elem_of_cons; by left|].
    apply list_find_None in Hf. rewrite Forall_forall in Hf.
    intros ((c' & v) & Hc & Hin)%list_elem_of_fmap. by apply (Hf _ Hin).
Qed.

Lemma keyed_app (l1 l2 : list fit_event) : keyed (l1 ++ l2) = keyed l1 ++ keyed l2.
Proof. apply omap_app. Qed.

Lemma fitted_later (key : mkey) (m : predictor) (st : engine) :
  models st !! key = None → later st (fitted key m st).
Proof.
  intros Hk. unfold later, fitted, same_data. simpl. split_and!; try done.
  - by apply insert_subseteq.
  - lia.
  - by apply prefix_app_r.
  - intros [Hnd Hin]. unfold cache_inv. simpl. rewrite keyed_app. simpl. split.
    + apply NoDup_app. split_and!; [done| |apply NoDup_singleton].
      intros k Hk1 ->%list_elem_of_singleton.
      destruct (Hin _ Hk1) as [? ?]. congruence.
    + intros k [Hk1| ->%list_elem_of_singleton]%elem_of_app.
      * destruct (decide (k = key)) as [->|Hne].
        -- rewrite lookup_insert_eq. eauto.
        -- rewrite lookup_insert_ne; [auto|done].
      * rewrite lookup_insert_eq. eauto.
Qed.

Lemma fit_step_later (key : mkey) (e : exclude_arg) (cols : list string)
    (y : vec) (st : engine) :
  models st !! key = None → later st (fit_step key e cols y st).2.
Proof.
  intros Hk. unfold fit_step. destruct (loc_cols _ _); simpl; [|done].
  by apply fitted_later.
Qed.

Lemma fit_step_decomps (key : mkey) (e : exclude_arg) (cols : list string)
    (y : vec) (st : engine) :
  decomps (fit_step key e cols y st).2 = decomps st.
Proof. unfold fit_step. by destruct (loc_cols _ _). Qed.

Lemma fit_step_models (key : mkey) (e : exclude_arg) (cols : list string)
    (y : vec) (st : engine) (k : mkey) :
  k ≠ key → models (fit_step key e cols y st).2 !! k = models st !! k.
Proof.
  intros Hne. unfold fit_step. destruct (loc_cols _ _); simpl; [|done].
  by rewrite lookup_insert_ne.
Qed.

Lemma fit_step_X_train (key : mkey) (e : exclude_arg) (cols : list string)
    (y : vec) (st : engine) :
  X_train (fit_step key e cols y st).2 = X_train st.
Proof. unfold fit_step. by destruct (loc_cols _ _). Qed.

(** A call of [__get_model] leaves the data alone, only adds to the model
    cache and to the fit log, and keeps every key fitted at most once. *)
Lemma get_model_later (comb : list (list string)) (order : Z) (C : list string)
    (st : engine) :
  later st (get_model comb order C st).2.
Proof.
  rewrite get_model_unfold. unfold get_model_explicit.
  destruct (models st !! (order, sort_comb comb false, sorted_str C)) eqn:Hk;
    [done|].
  case_bool_decide as HC; [|by apply fit_step_later].
  destruct (models st !! (order, [sorted_str C], [])) eqn:Hc.
  - destruct (loc_cols _ _); [|done]. by apply fit_step_later.
  - pose proof (fit_step_later (order, [sorted_str C], []) ExclNone
      (sorted_str C) (y_train st) st Hc) as Hl1.
    pose proof (fit_step_models (order, [sorted_str C], []) ExclNone
      (sorted_str C) (y_train st) st
      (order, sort_comb comb false, sorted_str C)) as Hm1.
    destruct (fit_step _ ExclNone _ _ st) as [[b|err] st1]; simpl in *; [|done].
    destruct (loc_cols _ _); [|done].
    etrans; [exact Hl1|]. apply fit_step_later. rewrite Hm1; [done|].
    intros [= _ HCs]. rewrite HCs in HC. simpl in HC. lia.
Qed.

Lemma get_model_decomps (comb : list (list string)) (order : Z) (C : list string)
    (st : engine) :
  decomps (get_model comb order C st).2 = decomps st.
Proof.
  rewrite get_model_unfold. unfold get_model_explicit.
  destruct (models st !! _); [done|].
  case_bool_decide; [|apply fit_step_decomps].
  destruct (models st !! _).
  - destruct (loc_cols _ _); [|done]. apply fit_step_decomps.
  - pose proof (fit_step_decomps (order, [sorted_str C], []) ExclNone
      (sorted_str C) (y_train st) st) as Hd1.
    destruct (fit_step _ ExclNone _ _ st) as [[b|err] st1]; simpl in *; [|done].
    destruct (loc_cols _ _); [|done]. by rewrite fit_step_decomps.
Qed.
End model_cache_facts.

Section steps_facts.
Context `{Lrn : Learner}.

#[global] Instance quiet_preorder : PreOrder quiet.
Proof.
  split.
  - intros st. split; reflexivity.
  - intros st1 st2 st3 [Hl1 Hd1] [Hl2 Hd2]. split; [by etrans|congruence].
Qed.

Lemma quiet_later (st st' : engine) : quiet st st' → later st st'.
Proof. by intros [? _]. Qed.

Lemma steps_ret {A} (R : engine → engine → Prop) `{!PreOrder R} (a : A) :
  steps R (ret a).
Proof. by apply steps_pure. Qed.

Lemma steps_raise {A} (R : engine → engine → Prop) `{!PreOrder R} (e : exn) :
  steps R (raise (A := A) e).
Proof. by apply steps_pure. Qed.

Lemma steps_gets {A} (R : engine → engine → Prop) `{!PreOrder R}
    (f : engine → A) : steps R (gets f).
Proof. by apply steps_pure. Qed.

Lemma steps_lift {A} (R : engine → engine → Prop) `{!PreOrder R} (r : res A) :
  steps R (lift r).
Proof. by apply steps_pure. Qed.

Lemma steps_test_cols (R : engine → engine → Prop) `{!PreOrder R}
    (cols : list string) : steps R (test_cols cols).
Proof. by apply steps_pure. Qed.

Lemma steps_train_cols (R : engine → engine → Prop) `{!PreOrder R}
    (cols : list string) : steps R (train_cols cols).
Proof. by apply steps_pure. Qed.

(** The validator reads [self.fs] and writes nothing. *)
Lemma assert_comb_valid_state (comb : list group_arg) (C : list string)
    (st : engine) : (assert_comb_valid comb C st).2 = st.
Proof.
  unfold assert_comb_valid, bind, gets, lift, ret, raise.
  case_bool_decide; [|done]. simpl.
  destruct (check_groups _ _); simpl; [|done].
  by repeat case_match.
Qed.

Lemma assert_comb_valid_fs (comb : list group_arg) (C : list string)
    (st st' : engine) :
  fs st' = fs st →
  (assert_comb_valid comb C st').1 = (assert_comb_valid comb C st).1.
Proof.
  intros Hfs. unfold assert_comb_valid, bind, gets, lift, ret, raise.
  case_bool_decide; [|done]. simpl. rewrite Hfs.
  destruct (check_groups _ _); simpl; [|done].
  by repeat case_match.
Qed.

Lemma steps_assert (R : engine → engine → Prop) `{!PreOrder R}
    (comb : list group_arg) (C : list string) :
  steps R (assert_comb_valid comb C).
Proof. apply steps_pure; [done|]. apply assert_comb_valid_state. Qed.

Lemma fresh_quiet_at (st : engine) : quiet st (fresh st).2.
Proof.
  unfold quiet, later, same_data, fresh. simpl. split_and!; try done.
  all: try lia.
Qed.

Lemma steps_fresh : steps quiet fresh.
Proof. intros st. apply fresh_quiet_at. Qed.

Lemma steps_new_series (d : list (string * num)) : steps quiet (new_series d).
Proof.
  unfold new_series. apply steps_bind; [apply _|apply steps_fresh|].
  intros i. by apply steps_ret; apply _.
Qed.

(** An auxiliary fit of [compute] has no key: it is logged and changes
    nothing that is cached. *)
Lemma steps_new_fitted_aux (e : exclude_arg) (X : table) (y : vec) :
  steps quiet (new_fitted None e X y).
Proof.
  intros st. unfold quiet, later, same_data, new_fitted, bind, fresh, log_fit,
    modify, ret. simpl. split_and!; try done; try lia.
  - by apply prefix_app_r.
  - intros [Hnd Hin]. unfold cache_inv. simpl. rewrite keyed_app. simpl.
    rewrite app_nil_r. by split.
Qed.

Lemma steps_get_model (comb : list (list string)) (order : Z) (C : list string) :
  steps quiet (get_model comb order C).
Proof.
  intros st. split; [apply get_model_later|apply get_model_decomps].
Qed.
End steps_facts.

Ltac steps_tac :=
  repeat first
    [ progress (cbv zeta)
    | apply steps_ret; apply _
    | apply steps_raise; apply _
    | apply steps_gets; apply _
    | apply steps_lift; apply _
    | apply steps_test_cols; apply _
    | apply steps_train_cols; apply _
    | apply steps_assert; apply _
    | apply steps_new_series
    | apply steps_new_fitted_aux
    | apply steps_get_model
    | (apply steps_bind; [apply _| |intros ?])
    | case_bool_decide
    | lazymatch goal with
      | |- steps _ (if ?b then _ else _) => destruct b
      end ].

Section compute_facts.
Context `{Lrn : Learner}.

Lemma steps_compute_parts (comb : list group_arg) (order : Z) (C : list string) :
  steps quiet (compute_parts comb order C).
Proof. unfold compute_parts. steps_tac. Qed.

Lemma steps_compute (comb : list group_arg) (order : Z) (C : list string) :
  steps quiet (compute comb order C).
Proof.
  unfold compute. apply steps_bind; [apply _|apply steps_compute_parts|].
  intros p. apply steps_new_series.
Qed.

Lemma steps_adjust_order (comb : list (list string)) (s : Series) :
  steps quiet (adjust_order comb s).
Proof. unfold adjust_order. steps_tac. Qed.
End compute_facts.

Section invariants.
Context `{Lrn : Learner}.

Lemma steps_weaken {A} (R R' : engine → engine → Prop) (m : M A) :
  (∀ st st', R st st' → R' st st') → steps R m → steps R' m.
Proof. intros HR Hm st. apply HR, Hm. Qed.

Lemma set_decomps_later (f : gmap dkey Series → gmap dkey Series) (st : engine) :
  later st (set_decomps f st).
Proof. unfold later, same_data, set_decomps. simpl. by split_and!. Qed.

(** [get] leaves the data alone and keeps every key fitted at most once. *)
Lemma steps_get (comb : list group_arg) (C : list string) :
  steps later (get comb C).
Proof.
  unfold get. apply steps_bind; [apply _|apply steps_assert; apply _|].
  intros comb_. cbv zeta. apply steps_bind; [apply _|apply steps_gets; apply _|].
  intros [s|].
  - apply (steps_weaken quiet); [apply quiet_later|apply steps_adjust_order].
  - apply steps_bind; [apply _| |].
    + apply (steps_weaken quiet); [apply quiet_later|apply steps_compute].
    + intros s. apply steps_bind; [apply _| |intros ?; apply steps_ret; apply _].
      intros st. apply set_decomps_later.
Qed.

Lemma quiet_decomps_inv (st st' : engine) :
  quiet st st' → decomps_inv st → decomps_inv st'.
Proof.
  intros [(_ & _ & Hn & _) Hd] Hinv k s Hk. rewrite Hd in Hk.
  destruct (Hinv k s Hk) as [? ?]. split; [done|lia].
Qed.

(** What [compute] returns is a new Series of the six labels. *)
Lemma compute_result (comb : list group_arg) (order : Z) (C : list string)
    (st st' : engine) (s : Series) :
  compute comb order C st = (Ok s, st') →
  index s = RETURN_NAMES ∧ sid s < next_id st'
  ∧ ∃ p st_p,
      compute_parts comb order C st = (Ok p, st_p)
      ∧ sdata s = assemble (p_var_f1 p) (p_var_f2 p) (p_var_GAM p)
                    (p_var_total p) (p_var_fC p) (p_cov p) (p_var_y_res p)
                    (p_var_y p).
Proof.
  unfold compute, bind, new_series, fresh, ret.
  destruct (compute_parts comb order C st) as [[p|e] st_p]; [|done].
  simpl. intros [= <- <-]. simpl. split_and!; [done|lia|eauto].
Qed.

Lemma get_decomps_inv (comb : list group_arg) (C : list string) (st : engine) :
  decomps_inv st → decomps_inv (get comb C st).2.
Proof.
  intros Hinv. unfold get, bind.
  pose proof (assert_comb_valid_state comb [] st) as Hst.
  destruct (assert_comb_valid comb [] st) as [[comb_|e] st0];
    simpl in Hst; subst st0; [|done].
  unfold gets. simpl.
  destruct (decomps st !! _) as [s|] eqn:Hk.
  - apply (quiet_decomps_inv st); [apply steps_adjust_order|done].
  - pose proof (steps_compute (map GTuple (sort_comb comb_ false)) 2 C st) as Hq.
    pose proof (compute_result (map GTuple (sort_comb comb_ false)) 2 C st) as Hr.
    destruct (compute _ 2 C st) as [[s|e] st_c]; simpl in *.
    + destruct (Hr st_c s eq_refl) as (Hidx & Hsid & _).
      pose proof (quiet_decomps_inv _ _ Hq Hinv) as Hinv_c.
      intros k s' Hk'. simpl in Hk'.
      destruct (decide (k = (sort_comb comb_ false, sorted_str C))) as [->|Hne].
      * rewrite lookup_insert_eq in Hk'. by simplify_eq.
      * rewrite lookup_insert_ne in Hk'; [|done]. by apply (Hinv_c k).
    + by apply (quiet_decomps_inv st).
Qed.

Lemma new_split_next_id (ts : option num) (st : engine) :
  next_id (new_split ts st).2 = next_id st.
Proof.
  unfold new_split, bind, gets, modify, lift, ret.
  destruct ts as [ts|]; simpl;
    destruct (loc_cols _ _); simpl; try done;
    destruct (column _ _); simpl; try done;
    destruct (train_test_split _ _ _ _) as [[[[[??]?]?]?]|]; done.
Qed.

Lemma new_split_decomps (ts : option num) (st : engine) :
  decomps (new_split ts st).2 = decomps st ∨ decomps (new_split ts st).2 = ∅.
Proof.
  unfold new_split, bind, gets, modify, lift, ret.
  destruct ts as [ts|]; simpl;
    destruct (loc_cols _ _); simpl; auto;
    destruct (column _ _); simpl; auto;
    destruct (train_test_split _ _ _ _) as [[[[[??]?]?]?]|]; auto.
Qed.

Lemma new_split_cache_inv (ts : option num) (st : engine) :
  cache_inv st → cache_inv (new_split ts st).2.
Proof.
  unfold cache_inv. by rewrite new_split_fit_log, new_split_models.
Qed.

Lemma new_split_decomps_inv (ts : option num) (st : engine) :
  decomps_inv st → decomps_inv (new_split ts st).2.
Proof.
  intros Hinv k s. rewrite new_split_next_id.
  destruct (new_split_decomps ts st) as [-> | ->]; [apply Hinv|].
  by rewrite lookup_empty.
Qed.

Lemma later_cache_inv (st st' : engine) :
  later st st' → cache_inv st → cache_inv st'.
Proof. intros (_ & _ & _ & _ & Hi). exact Hi. Qed.

(** Both invariants hold from the constructor on, whatever is called. *)
Lemma run_call_invariants (c : call) (st : engine) :
  cache_inv st ∧ decomps_inv st →
  cache_inv (run_call c st) ∧ decomps_inv (run_call c st).
Proof.
  intros [Hc Hd]. destruct c as [comb C|comb order C|comb order C|ts]; simpl.
  - split; [|by apply get_decomps_inv].
    apply (later_cache_inv st); [apply steps_get|done].
  - pose proof (steps_compute comb order C st) as Hq. split.
    + apply (later_cache_inv st); [by apply quiet_later|done].
    + by apply (quiet_decomps_inv st).
  - pose proof (steps_get_model comb order C st) as Hq. split.
    + apply (later_cache_inv st); [by apply quiet_later|done].
    + by apply (quiet_decomps_inv st).
  - split; [by apply new_split_cache_inv|by apply new_split_decomps_inv].
Qed.

Lemma run_invariants (cs : list call) (st : engine) :
  cache_inv st ∧ decomps_inv st →
  cache_inv (run cs st) ∧ decomps_inv (run cs st).
Proof.
  revert st. induction cs as [|c cs IH]; intros st Hst; [done|].
  simpl. apply IH. by apply run_call_invariants.
Qed.

Lemma init_invariants (df0 : table) (target0 : string) (ts : num) (v : bool)
    (r0 : rng) (st0 : engine) :
  init df0 target0 ts v r0 = Ok st0 → cache_inv st0 ∧ decomps_inv st0.
Proof.
  unfold init. destruct (loc_cols _ _); simpl; [|done].
  destruct (column _ _); simpl; [|done].
  destruct (train_test_split _ _ _ _) as [[[[[??]?]?]?]|]; simpl; [|done].
  intros [= <-]. split.
  - split; simpl; [constructor|]. by intros k ?%elem_of_nil.
  - intros k s. simpl. by rewrite lookup_empty.
Qed.

Lemma fits_for_absent (k : mkey) (log : list fit_event) :
  k ∉ keyed log → fits_for k log = 0.
Proof.
  unfold fits_for, keyed. induction log as [|ev log IH]; simpl; [done|].
  intros Hk. rewrite filter_cons. destruct (decide (fe_key ev = Some k)) as [He|He].
  - exfalso. apply Hk. rewrite He. apply elem_of_cons; by left.
  - apply IH. intros Hin. apply Hk. destruct (fe_key ev); [|done].
    apply elem_of_cons; by right.
Qed.

(** Keys that are not repeated in the log were fitted at most once. *)
Lemma fits_for_NoDup (k : mkey) (log : list fit_event) :
  NoDup (keyed log) → fits_for k log ≤ 1.
Proof.
  induction log as [|ev log IH]; [by unfold fits_for; simpl; lia|].
  intros Hnd. unfold fits_for. rewrite filter_cons.
  unfold keyed in Hnd. simpl in Hnd.
  destruct (decide (fe_key ev = Some k)) as [He|He].
  - rewrite He in Hnd. apply NoDup_cons in Hnd as [Hk Hnd]. simpl.
    fold (fits_for k log). rewrite fits_for_absent; [lia|done].
  - fold (fits_for k log). apply IH. destruct (fe_key ev); [|done].
    by apply NoDup_cons in Hnd as [_ Hnd].
Qed.
End invariants.

Section memoization.
Context `{Lrn : Learner}.

Lemma fit_step_stores (key : mkey) (e : exclude_arg) (cols : list string)
    (y : vec) (st st' : engine) (m : predictor_obj) :
  fit_step key e cols y st = (Ok m, st') → models st' !! key = Some m.
Proof.
  unfold fit_step. destruct (loc_cols _ _); [|done].
  intros [= <- <-]. simpl. apply lookup_insert_eq.
Qed.

(** What [__get_model] returns is what the cache then holds for the key. *)
Lemma get_model_stores (comb : list (list string)) (order : Z) (C : list string)
    (st st' : engine) (m : predictor_obj) :
  get_model comb order C st = (Ok m, st') →
  models st' !! (order, sort_comb comb false, sorted_str C) = Some m.
Proof.
  rewrite get_model_unfold. unfold get_model_explicit.
  destruct (models st !! (order, sort_comb comb false, sorted_str C)) eqn:Hk.
  { by intros [= <- <-]. }
  case_bool_decide; [|apply fit_step_stores].
  destruct (models st !! (order, [sorted_str C], [])).
  - destruct (loc_cols _ _); [apply fit_step_stores|done].
  - destruct (fit_step _ ExclNone _ _ st) as [[b|err] st1]; [|done].
    destruct (loc_cols _ _); [apply fit_step_stores|done].
Qed.

Lemma swap_of_index (d : list (string * num)) :
  d.*1 = RETURN_NAMES →
  loc_data (rename_data [("var_g1", "var_g2"); ("var_g2", "var_g1")] d) d.*1
  = Ok (swap_groups d).
Proof.
  intros Hd.
  destruct d as [|[l1 v1] [|[l2 v2] [|[l3 v3] [|[l4 v4] [|[l5 v5]
    [|[l6 v6] [|]]]]]]]; try discriminate Hd.
  injection Hd as -> -> -> -> -> ->. reflexivity.
Qed.

(** [__adjust_order] writes to neither cache and fits nothing. With the six
    labels in place it returns the Series itself for a combination in
    canonical order, and otherwise a new Series with the values of the two
    groups exchanged. *)
Lemma adjust_order_spec (comb : list (list string)) (s : Series) (st : engine) :
  index s = RETURN_NAMES →
  ∃ r st',
    adjust_order comb s st = (Ok r, st')
    ∧ quiet st st' ∧ models st' = models st ∧ fit_log st' = fit_log st
    ∧ (sort_comb comb true = sort_comb comb false → r = s ∧ st' = st)
    ∧ (sort_comb comb true ≠ sort_comb comb false →
       sdata r = swap_groups (sdata s) ∧ next_id st ≤ sid r).
Proof.
  intros Hidx. pose proof (steps_adjust_order comb s st) as Hq.
  revert Hq. unfold adjust_order. case_bool_decide as Hc.
  - intros Hq. exists s, st. by split_and!.
  - unfold bind, new_series, fresh, ret, lift. simpl.
    unfold index in *. rewrite (swap_of_index _ Hidx). simpl.
    intros Hq. eexists _, _. split; [done|]. split_and!; try done.
    simpl. split; [done|lia].
Qed.

Lemma adjust_order_caches (comb : list (list string)) (s : Series) (st : engine) :
  models (adjust_order comb s st).2 = models st
  ∧ fit_log (adjust_order comb s st).2 = fit_log st.
Proof.
  unfold adjust_order. case_bool_decide; [done|].
  unfold bind, new_series, fresh, ret, lift. simpl.
  by destruct (loc_data _ _).
Qed.

(** On a hit [get] is the validator followed by [__adjust_order]. *)
Lemma get_hit (comb : list group_arg) (C : list string) (st : engine)
    (comb_ : list (list string)) (s : Series) :
  (assert_comb_valid comb [] st).1 = Ok comb_ →
  decomps st !! (sort_comb comb_ false, sorted_str C) = Some s →
  get comb C st = adjust_order comb_ s st.
Proof.
  intros Hv Hk. unfold get, bind.
  pose proof (assert_comb_valid_state comb [] st) as Hst.
  destruct (assert_comb_valid comb [] st) as [r st0]. simpl in *. subst.
  unfold gets. simpl. by rewrite Hk.
Qed.

(** On a miss it is the validator, [compute] on the canonical order, and
    the insertion of the result under the canonical key. *)
Lemma get_miss (comb : list group_arg) (C : list string) (st : engine)
    (comb_ : list (list string)) :
  (assert_comb_valid comb [] st).1 = Ok comb_ →
  decomps st !! (sort_comb comb_ false, sorted_str C) = None →
  get comb C st =
  match compute (map GTuple (sort_comb comb_ false)) 2 C st with
  | (Ok s, st_c) =>
      (Ok s, set_decomps
               (λ ds, <[(sort_comb comb_ false, sorted_str C) := s]> ds) st_c)
  | (Raise e, st_c) => (Raise e, st_c)
  end.
Proof.
  intros Hv Hk. unfold get, bind.
  pose proof (assert_comb_valid_state comb [] st) as Hst.
  destruct (assert_comb_valid comb [] st) as [r st0]. simpl in *. subst.
  unfold gets. simpl. rewrite Hk.
  by destruct (compute _ 2 C st) as [[s|e] st_c].
Qed.

(** After a successful [get] the combination is valid and its key cached. *)
Lemma get_ok_cached (comb : list group_arg) (C : list string) (st st1 : engine)
    (s : Series) :
  get comb C st = (Ok s, st1) →
  ∃ comb_,
    (assert_comb_valid comb [] st).1 = Ok comb_
    ∧ is_Some (decomps st1 !! (sort_comb comb_ false, sorted_str C)).
Proof.
  intros Hget.
  destruct (assert_comb_valid comb [] st).1 as [comb_|e] eqn:Hv.
  - exists comb_. split; [done|].
    destruct (decomps st !! (sort_comb comb_ false, sorted_str C))
      as [s0|] eqn:Hk.
    + rewrite (get_hit _ _ _ _ _ Hv Hk) in Hget.
      destruct (steps_adjust_order comb_ s0 st) as [_ Hd].
      rewrite Hget in Hd. simpl in Hd. rewrite Hd, Hk. eauto.
    + rewrite (get_miss _ _ _ _ Hv Hk) in Hget.
      destruct (compute _ 2 C st) as [[s'|e] st_c]; [|done].
      injection Hget as <- <-. simpl. rewrite lookup_insert_eq. eauto.
  - exfalso. revert Hget. unfold get, bind.
    destruct (assert_comb_valid comb [] st) as [r st0]. simpl in Hv. by subst.
Qed.

(** A second [get] with the same arguments fits nothing and leaves the
    model cache as it is. *)
Lemma get_again (comb : list group_arg) (C : list string) (st st1 : engine)
    (s : Series) :
  get comb C st = (Ok s, st1) →
  fit_log (get comb C st1).2 = fit_log st1
  ∧ models (get comb C st1).2 = models st1.
Proof.
  intros Hget. destruct (get_ok_cached _ _ _ _ _ Hget) as (comb_ & Hv & [s1 Hk]).
  pose proof (steps_get comb C st) as (Hsd & _). rewrite Hget in Hsd.
  destruct Hsd as (_ & _ & Hfs & _). simpl in Hfs.
  rewrite <-(assert_comb_valid_fs comb [] st st1 Hfs) in Hv.
  rewrite (get_hit _ _ _ _ _ Hv Hk).
  destruct (adjust_order_caches comb_ s1 st1) as [Hm Hl]. by split.
Qed.
End memoization.

(** C5: from the constructor on and without a resplit, whatever is called:
    no model-cache key (order, canonical combination, sorted conditioning
    set) has its learner fitted more than once; a key that is cached is
    answered with the stored predictor object and an unchanged engine; what
    [__get_model] returns is answered again by the next request for the
    key; and a [get] repeated with the same arguments fits nothing. *)
Theorem model_cache_memoizes `{Lrn : Learner} (df0 : table) (target0 : string)
    (ts : num) (v : bool) (r0 : rng) (st0 : engine) (cs : list call) :
  init df0 target0 ts v r0 = Ok st0 →
  existsb is_resplit cs = false →
  let st := run cs st0 in
  (∀ k, fits_for k (fit_log st) ≤ 1)
  ∧ (∀ comb order C m,
       models st !! (order, sort_comb comb false, sorted_str C) = Some m →
       get_model comb order C st = (Ok m, st))
  ∧ (∀ comb order C m st',
       get_model comb order C st = (Ok m, st') →
       get_model comb order C st' = (Ok m, st')
       ∧ ∀ k, fits_for k (fit_log st') ≤ 1)
  ∧ (∀ comb C s st1,
       get comb C st = (Ok s, st1) →
       fit_log (get comb C st1).2 = fit_log st1
       ∧ models (get comb C st1).2 = models st1
       ∧ ∀ k, fits_for k (fit_log st1) ≤ 1).
Proof.
  intros Hinit _ st.
  destruct (run_invariants cs st0 (init_invariants _ _ _ _ _ _ Hinit))
    as [Hc Hd]. fold st in Hc, Hd.
  split_and!.
  - intros k. apply fits_for_NoDup, Hc.
  - intros comb order C m. apply get_model_hit.
  - intros comb order C m st' Hgm. split.
    + by apply get_model_hit, (get_model_stores _ _ _ st).
    + intros k. apply fits_for_NoDup.
      pose proof (get_model_later comb order C st) as Hl. rewrite Hgm in Hl.
      by apply (later_cache_inv st).
  - intros comb C s st1 Hget.
    destruct (get_again _ _ _ _ _ Hget) as [Hl Hm]. split_and!; [done..|].
    intros k. apply fits_for_NoDup.
    pose proof (steps_get comb C st) as Hlater. rewrite Hget in Hlater.
    by apply (later_cache_inv st).
Qed.

Lemma model_cache_memoizes_witness :
  let cs := [CallGet [GStr "a"; GStr "b"] ["c"];
             CallGet [GList ["b"]; GList ["a"]] ["c"];
             CallCompute [GStr "a"; GStr "c"] 2 []] in
  init Stub.sample_df "y" Stub.half false 0 = Ok Stub.sample_state
  ∧ existsb is_resplit cs = false
  ∧ ∀ k, fits_for k (fit_log (run cs Stub.sample_state)) ≤ 1.
Proof.
  intros cs.
  assert (init Stub.sample_df "y" Stub.half false 0 = Ok Stub.sample_state)
    as Hinit by vm_refl.
  split; [exact Hinit|]. split; [reflexivity|].
  apply (model_cache_memoizes _ _ _ _ _ _ cs Hinit eq_refl).
Defined.

(** ** The decomposition cache *)

Section decomposition_cache.
Context `{Lrn : Learner}.

Lemma sort_comb_canonical (comb : list (list string)) :
  sort_comb (sort_comb comb false) true = sort_comb comb false
  ∧ sort_comb (sort_comb comb false) false = sort_comb comb false.
Proof.
  assert (map sorted_str (sort_comb comb false) = sort_comb comb false) as Hin.
  { rewrite sort_comb_full.
    assert (Forall (λ g, sorted_str g = g)
              (sorted (leb_of key_compare) (map sorted_str comb))) as Hfix.
    { rewrite (sorted_perm key_compare). apply Forall_forall.
      intros g (g0 & -> & _)%elem_of_map. apply sorted_str_idemp. }
    induction Hfix as [|g l Hg _ IH]; simpl; [done|]. by rewrite Hg, IH. }
  split; [by rewrite sort_comb_inner|].
  rewrite sort_comb_full, Hin, sort_comb_full. apply sorted_idemp; apply _.
Qed.

(** A hit: the cache is read and not written, nothing is fitted; the
    answer is the cached object for a combination in canonical order, and
    otherwise another object, with the values of the groups exchanged. *)
Lemma get_hit_spec (comb : list group_arg) (C : list string) (st : engine)
    (comb_ : list (list string)) (s0 : Series) :
  decomps_inv st →
  (assert_comb_valid comb [] st).1 = Ok comb_ →
  decomps st !! (sort_comb comb_ false, sorted_str C) = Some s0 →
  ∃ r st1,
    get comb C st = (Ok r, st1)
    ∧ quiet st st1 ∧ models st1 = models st ∧ fit_log st1 = fit_log st
    ∧ (sort_comb comb_ true = sort_comb comb_ false → r = s0)
    ∧ (sort_comb comb_ true ≠ sort_comb comb_ false →
       sdata r = swap_groups (sdata s0) ∧ sid r ≠ sid s0).
Proof.
  intros Hinv Hv Hk. destruct (Hinv _ _ Hk) as [Hidx Hsid].
  rewrite (get_hit _ _ _ _ _ Hv Hk).
  destruct (adjust_order_spec comb_ s0 st Hidx)
    as (r & st1 & Hadj & Hq & Hm & Hl & Hsame & Hswap).
  exists r, st1. split_and!; try done.
  - intros Hc. by destruct (Hsame Hc).
  - intros Hc. destruct (Hswap Hc) as [Hd Hid]. split; [done|lia].
Qed.

(** A miss: what is stored under the canonical key is what [compute]
    returns for the groups in canonical order, whichever order was asked. *)
Lemma get_miss_spec (comb : list group_arg) (C : list string) (st st1 : engine)
    (comb_ : list (list string)) (s : Series) :
  (assert_comb_valid comb [] st).1 = Ok comb_ →
  decomps st !! (sort_comb comb_ false, sorted_str C) = None →
  get comb C st = (Ok s, st1) →
  ∃ st_c,
    compute (map GTuple (sort_comb comb_ false)) 2 C st = (Ok s, st_c)
    ∧ decomps st1 = <[(sort_comb comb_ false, sorted_str C) := s]> (decomps st)
    ∧ index s = RETURN_NAMES.
Proof.
  intros Hv Hk Hget. rewrite (get_miss _ _ _ _ Hv Hk) in Hget.
  pose proof (steps_compute (map GTuple (sort_comb comb_ false)) 2 C st) as Hq.
  pose proof (compute_result (map GTuple (sort_comb comb_ false)) 2 C st) as Hr.
  destruct (compute _ 2 C st) as [[s'|e] st_c]; [|done].
  injection Hget as <- <-. exists st_c. simpl in *.
  destruct Hq as [_ ->]. destruct (Hr _ _ eq_refl) as (Hidx & _). done.
Qed.

(** Queries for one cached key, in whatever order of the groups: each is
    answered from the same stored values, and the cache stays as it is. *)
Lemma ask_hits (qs : list (list group_arg)) (C : list string) (st : engine)
    (kc : list (list string)) (s0 : Series) :
  decomps_inv st →
  Forall (asks_for st kc) qs →
  decomps st !! (kc, sorted_str C) = Some s0 →
  decomps (ask qs C st).2 = decomps st
  ∧ models (ask qs C st).2 = models st
  ∧ fit_log (ask qs C st).2 = fit_log st
  ∧ Forall2 (λ q r, ∃ comb_ s,
        (assert_comb_valid q [] st).1 = Ok comb_ ∧ r = Ok s
        ∧ sdata s = if bool_decide (sort_comb comb_ true = kc)
                    then sdata s0 else swap_groups (sdata s0))
      qs (ask qs C st).1.
Proof.
  revert st. induction qs as [|q qs IH]; intros st Hinv Hqs Hk; simpl.
  { by split_and!. }
  apply Forall_cons in Hqs as [(comb_ & Hv & Hkc) Hqs]. subst kc.
  destruct (get_hit_spec q C st comb_ s0 Hinv Hv Hk)
    as (r & st1 & Hget & Hq & Hm & Hl & Hsame & Hswap).
  rewrite Hget. destruct Hq as [Hlater Hd].
  assert (fs st1 = fs st) as Hfs by (by destruct Hlater as ((_ & _ & ? & _) & _)).
  assert (decomps_inv st1) as Hinv1.
  { by apply (quiet_decomps_inv st). }
  assert (Forall (asks_for st1 (sort_comb comb_ false)) qs) as Hqs1.
  { eapply Forall_impl; [exact Hqs|]. intros q' (c' & Hv' & Hk').
    exists c'. by rewrite (assert_comb_valid_fs q' [] st st1 Hfs). }
  rewrite <-Hd in Hk.
  destruct (IH st1 Hinv1 Hqs1 Hk) as (Hd2 & Hm2 & Hl2 & Hall).
  destruct (ask qs C st1) as [rs st2]. simpl in *.
  split_and!; [congruence..|].
  constructor.
  - exists comb_, r. split_and!; [done..|]. case_bool_decide as Hc.
    + by rewrite (Hsame Hc).
    + by destruct (Hswap Hc).
  - eapply Forall2_impl; [exact Hall|]. intros q' r' (c' & s' & Hv' & -> & Hs').
    exists c', s'. by rewrite <-(assert_comb_valid_fs q' [] st st1 Hfs).
Qed.
End decomposition_cache.

(** C10: from the constructor on, whatever is called: every Series in the
    decomposition cache has the six labels and is an object made earlier;
    a miss stores what [compute] returns for the groups in canonical order;
    a hit leaves both caches and the stored object as they are and answers
    with the stored object itself (canonical order) or with another object
    holding the two group values exchanged; and any sequence of queries for
    one cached key, in either group order, reads the same stored values. *)
Theorem decomps_cache_canonical `{Lrn : Learner} (df0 : table)
    (target0 : string) (ts : num) (v : bool) (r0 : rng) (st0 : engine)
    (cs : list call) :
  init df0 target0 ts v r0 = Ok st0 →
  let st := run cs st0 in
  decomps_inv st
  ∧ (∀ comb C comb_ s st1,
       (assert_comb_valid comb [] st).1 = Ok comb_ →
       decomps st !! (sort_comb comb_ false, sorted_str C) = None →
       get comb C st = (Ok s, st1) →
       sort_comb (sort_comb comb_ false) true = sort_comb comb_ false
       ∧ ∃ st_c,
           compute (map GTuple (sort_comb comb_ false)) 2 C st = (Ok s, st_c)
           ∧ decomps st1
             = <[(sort_comb comb_ false, sorted_str C) := s]> (decomps st))
  ∧ (∀ comb C comb_ s0,
       (assert_comb_valid comb [] st).1 = Ok comb_ →
       decomps st !! (sort_comb comb_ false, sorted_str C) = Some s0 →
       ∃ r st1,
         get comb C st = (Ok r, st1)
         ∧ decomps st1 = decomps st ∧ models st1 = models st
         ∧ (sort_comb comb_ true = sort_comb comb_ false → r = s0)
         ∧ (sort_comb comb_ true ≠ sort_comb comb_ false →
            sdata r = swap_groups (sdata s0) ∧ sid r ≠ sid s0))
  ∧ (∀ qs C kc s0,
       Forall (asks_for st kc) qs →
       decomps st !! (kc, sorted_str C) = Some s0 →
       decomps (ask qs C st).2 = decomps st
       ∧ Forall2 (λ q r, ∃ comb_ s,
             (assert_comb_valid q [] st).1 = Ok comb_ ∧ r = Ok s
             ∧ sdata s = if bool_decide (sort_comb comb_ true = kc)
                         then sdata s0 else swap_groups (sdata s0))
           qs (ask qs C st).1).
Proof.
  intros Hinit st.
  destruct (run_invariants cs st0 (init_invariants _ _ _ _ _ _ Hinit))
    as [Hc Hd]. fold st in Hc, Hd.
  split_and!; [done| | |].
  - intros comb C comb_ s st1 Hv Hk Hget.
    split; [apply sort_comb_canonical|].
    destruct (get_miss_spec _ _ _ _ _ _ Hv Hk Hget) as (st_c & ? & ? & _).
    eauto.
  - intros comb C comb_ s0 Hv Hk.
    destruct (get_hit_spec _ _ _ _ _ Hd Hv Hk)
      as (r & st1 & Hget & [_ Hdec] & Hm & _ & Hsame & Hswap).
    exists r, st1. by split_and!.
  - intros qs C kc s0 Hqs Hk.
    destruct (ask_hits qs C st kc s0 Hd Hqs Hk) as (? & _ & _ & ?). by split.
Qed.

Lemma decomps_cache_canonical_witness :
  let cs := [CallGet [GStr "b"; GStr "a"] []; CallNewSplit None;
             CallGet [GStr "a"; GStr "b"] ["c"]] in
  init Stub.sample_df "y" Stub.half false 0 = Ok Stub.sample_state
  ∧ decomps_inv (run cs Stub.sample_state).
Proof.
  intros cs.
  assert (init Stub.sample_df "y" Stub.half false 0 = Ok Stub.sample_state)
    as Hinit by vm_refl.
  split; [exact Hinit|].
  apply (decomps_cache_canonical _ _ _ _ _ _ cs Hinit).
Defined.

(** ** [compute] returns *)

Section totality.
Context `{Lrn : Learner}.

Lemma ready_quiet (fs0 : list string) (st st' : engine) :
  quiet st st' → ready fs0 st → ready fs0 st'.
Proof.
  intros [((_ & _ & Hfs & _ & Htr & Hte & _) & _) _] [Hf [H1 H2]].
  unfold ready, has_columns. rewrite Hfs, Htr, Hte. done.
Qed.

Lemma succeeds_bind {A B} (fs0 : list string) (m : M A) (k : A → M B)
    (Q : A → Prop) (Q' : B → Prop) :
  succeeds (ready fs0) m Q →
  (∀ a, Q a → succeeds (ready fs0) (k a) Q') →
  succeeds (ready fs0) (bind m k) Q'.
Proof.
  intros Hm Hk st Hst. destruct (Hm st Hst) as (a & st1 & Hma & Hq1 & Ha).
  destruct (Hk a Ha st1 (ready_quiet _ _ _ Hq1 Hst)) as (b & st2 & Hkb & Hq2 & Hb).
  exists b, st2. unfold bind. rewrite Hma. split_and!; [done| |done].
  by etrans.
Qed.

Lemma succeeds_ret {A} (P : engine → Prop) (a : A) (Q : A → Prop) :
  Q a → succeeds P (ret a) Q.
Proof. intros Ha st _. exists a, st. by split_and!. Qed.

Lemma succeeds_gets {A} (P : engine → Prop) (f : engine → A) :
  succeeds P (gets f) (λ _, True).
Proof. intros st _. exists (f st), st. by split_and!. Qed.

Lemma succeeds_weaken {A} (P : engine → Prop) (m : M A) (Q Q' : A → Prop) :
  (∀ a, Q a → Q' a) → succeeds P m Q → succeeds P m Q'.
Proof.
  intros HQ Hm st Hst. destruct (Hm st Hst) as (a & st' & ? & ? & ?).
  exists a, st'. split_and!; auto.
Qed.

Lemma succeeds_test_cols (fs0 cols : list string) :
  Forall (λ c, c ∈ fs0) cols →
  succeeds (ready fs0) (test_cols cols) (λ _, True).
Proof.
  intros Hcols st [Hfs [_ Hte]]. unfold test_cols, lift.
  destruct (loc_cols_ok (X_test st) cols) as [T ->].
  { rewrite Forall_forall in *. intros c Hc. apply Hte. rewrite Hfs. auto. }
  exists T, st. by split_and!.
Qed.

Lemma succeeds_train_cols (fs0 cols : list string) :
  Forall (λ c, c ∈ fs0) cols →
  succeeds (ready fs0) (train_cols cols) (λ _, True).
Proof.
  intros Hcols st [Hfs [Htr _]]. unfold train_cols, lift.
  destruct (loc_cols_ok (X_train st) cols) as [T ->].
  { rewrite Forall_forall in *. intros c Hc. apply Htr. rewrite Hfs. auto. }
  exists T, st. by split_and!.
Qed.

Lemma succeeds_new_fitted_aux (P : engine → Prop) (e : exclude_arg)
    (X : table) (y : vec) :
  succeeds P (new_fitted None e X y) (λ _, True).
Proof.
  intros st _. pose proof (steps_new_fitted_aux e X y st) as Hq.
  eexists _, _. split; [reflexivity|]. by split.
Qed.

Lemma fit_step_ok (key : mkey) (e : exclude_arg) (cols : list string) (y : vec)
    (st : engine) :
  Forall (λ c, c ∈ (X_train st).*1) cols →
  ∃ m, fit_step key e cols y st = (Ok m, fitted key (pfit m) st).
Proof.
  intros Hcols. unfold fit_step. destruct (loc_cols_ok _ _ Hcols) as [T ->].
  by eexists (mkPredictor _ _).
Qed.

(** With the columns in place [__get_model] returns a predictor. *)
Lemma succeeds_get_model (fs0 : list string) (comb : list (list string))
    (order : Z) (C : list string) :
  Forall (λ c, c ∈ fs0) (concat comb ++ C) →
  succeeds (ready fs0) (get_model comb order C) (λ _, True).
Proof.
  intros Hcols st [Hfs [Htr _]].
  pose proof (steps_get_model comb order C st) as Hq.
  assert (∃ m st', get_model comb order C st = (Ok m, st')) as (m & st' & Heq).
  { assert (∀ cols, Forall (λ c, c ∈ fs0) cols →
              Forall (λ c, c ∈ (X_train st).*1) cols) as Hin.
    { intros cols Hc. rewrite Forall_forall in *. intros c ?. apply Htr.
      rewrite Hfs. auto. }
    assert (Forall (λ c, c ∈ fs0) (sorted_str C)) as HCs.
    { rewrite sorted_str_perm. by apply Forall_app in Hcols as [_ ?]. }
    rewrite get_model_unfold. unfold get_model_explicit.
    destruct (models st !! _); [eauto|].
    case_bool_decide.
    - destruct (models st !! _) as [b|].
      + destruct (loc_cols_ok _ _ (Hin _ HCs)) as [T ->].
        destruct (fit_step_ok (order, sort_comb comb false, sorted_str C)
          (exclude_for comb order C) (concat comb ++ C)
          (vsub (y_train st) (predict (pfit b) T)) st (Hin _ Hcols)) as [m ->].
        eauto.
      + destruct (fit_step_ok (order, [sorted_str C], []) ExclNone
          (sorted_str C) (y_train st) st (Hin _ HCs)) as [b ->].
        simpl. destruct (loc_cols_ok _ _ (Hin _ HCs)) as [T ->].
        edestruct (fit_step_ok (order, sort_comb comb false, sorted_str C))
          as [m ->]; [|eauto]. simpl. by apply Hin.
    - edestruct (fit_step_ok (order, sort_comb comb false, sorted_str C))
        as [m ->]; [|eauto]. by apply Hin. }
  rewrite Heq in Hq. exists m, st'. by split_and!.
Qed.

Lemma succeeds_new_series (P : engine → Prop) (d : list (string * num)) :
  succeeds P (new_series d) (λ s, sdata s = d).
Proof.
  intros st _. pose proof (steps_new_series d st) as Hq.
  eexists _, _. split; [reflexivity|]. by split.
Qed.

Lemma check_groups_features (fs0 : list string) (comb : list group_arg)
    (comb_ : list (list string)) :
  check_groups fs0 comb = Ok comb_ → Forall (Forall (λ f, f ∈ fs0)) comb_.
Proof.
  revert comb_. induction comb as [|g comb IH]; intros comb_; simpl.
  { intros [= <-]. constructor. }
  destruct g as [s|l|l|]; simpl; try done;
    (case_bool_decide as Hl; [|done]);
    (destruct (check_groups fs0 comb) as [rest|]; simpl; [|done]);
    intros [= <-]; constructor; auto.
Qed.

(** What the validator returns has its features among the columns. *)
Lemma assert_comb_valid_features (comb : list group_arg) (C : list string)
    (st : engine) (comb_ : list (list string)) :
  (assert_comb_valid comb C st).1 = Ok comb_ →
  Forall (Forall (λ f, f ∈ fs st)) comb_.
Proof.
  unfold assert_comb_valid, bind, gets, lift, ret, raise.
  case_bool_decide; [|done]. simpl.
  destruct (check_groups (fs st) comb) as [c|] eqn:Hc; simpl; [|done].
  repeat case_match; simpl; try done. intros [= <-].
  by apply check_groups_features in Hc.
Qed.

Lemma succeeds_assert (comb : list group_arg) (st0 : engine)
    (comb_ : list (list string)) :
  (assert_comb_valid comb [] st0).1 = Ok comb_ →
  succeeds (ready (fs st0)) (assert_comb_valid comb [])
    (λ c, c = comb_).
Proof.
  intros Hv st [Hfs _]. exists comb_, st.
  pose proof (assert_comb_valid_state comb [] st) as Hst.
  pose proof (assert_comb_valid_fs comb [] st0 st Hfs) as Hr.
  destruct (assert_comb_valid comb [] st) as [r st']. simpl in *. subst.
  rewrite Hv. by split_and!.
Qed.

Lemma succeeds_proceeds {A} (P : engine → Prop) (m : M A) (Q : A → Prop) :
  succeeds P m Q → proceeds P m Q.
Proof. intros Hm st Hst. left. by apply Hm. Qed.

Lemma proceeds_bind {A B} (fs0 : list string) (m : M A) (k : A → M B)
    (Q : A → Prop) (Q' : B → Prop) :
  proceeds (ready fs0) m Q →
  (∀ a, Q a → proceeds (ready fs0) (k a) Q') →
  proceeds (ready fs0) (bind m k) Q'.
Proof.
  intros Hm Hk st Hst. unfold bind.
  destruct (Hm st Hst) as [(a & st1 & -> & Hq1 & Ha)|(st1 & -> & Hq1)].
  - destruct (Hk a Ha st1 (ready_quiet _ _ _ Hq1 Hst))
      as [(b & st2 & -> & Hq2 & Hb)|(st2 & -> & Hq2)].
    + left. exists b, st2. split_and!; [done| |done]. by etrans.
    + right. exists st2. split; [done|]. by etrans.
  - right. by exists st1.
Qed.

(** A scikit-learn call returns or raises [ValueError]. *)
Lemma proceeds_sklearn {A} (P : engine → Prop) (o : option A) :
  proceeds P (lift (sklearn o)) (λ _, True).
Proof.
  intros st _. destruct o as [a|]; [left|right]; unfold lift; simpl.
  - by exists a, st.
  - by exists st.
Qed.

Lemma nth_features (fs0 : list string) (comb_ : list (list string)) (i : nat) :
  Forall (Forall (λ f, f ∈ fs0)) comb_ → Forall (λ f, f ∈ fs0) (nth i comb_ []).
Proof.
  intros Hall. destruct (nth_in_or_default i comb_ []) as [Hin| ->]; [|done].
  rewrite Forall_forall in Hall. apply Hall. by apply list_elem_of_In.
Qed.

Lemma concat_features (fs0 : list string) (comb_ : list (list string)) :
  Forall (Forall (λ f, f ∈ fs0)) comb_ → Forall (λ f, f ∈ fs0) (concat comb_).
Proof.
  induction 1 as [|g c Hg _ IH]; simpl; [done|]. by apply Forall_app.
Qed.
End totality.

Ltac cols_tac :=
  simpl; rewrite ?app_nil_r;
  repeat (apply Forall_app; split);
  auto using nth_features, concat_features.

Ltac proceeds_tac :=
  repeat first
    [ progress (cbv zeta)
    | (apply succeeds_proceeds, succeeds_ret; exact I)
    | apply succeeds_proceeds, succeeds_gets
    | (apply succeeds_proceeds, succeeds_test_cols; cols_tac)
    | (apply succeeds_proceeds, succeeds_train_cols; cols_tac)
    | apply succeeds_proceeds, succeeds_new_fitted_aux
    | (apply succeeds_proceeds, succeeds_get_model; cols_tac)
    | apply proceeds_sklearn
    | (eapply proceeds_bind; [|intros ? _])
    | case_bool_decide
    | lazymatch goal with
      | |- proceeds _ (if ?b then _ else _) _ => destruct b
      end ].

Section compute_returns.
Context `{Lrn : Learner}.

(** With a valid combination and the columns in place, nothing stops
    [compute] before line 296 but a scikit-learn call that raises. *)
Lemma proceeds_compute_parts (comb : list group_arg) (order : Z)
    (C : list string) (st0 : engine) (comb_ : list (list string)) :
  (assert_comb_valid comb [] st0).1 = Ok comb_ →
  Forall (λ c, c ∈ fs st0) C →
  proceeds (ready (fs st0)) (compute_parts comb order C) (λ _, True).
Proof.
  intros Hv HC. pose proof (assert_comb_valid_features _ _ _ _ Hv) as Hfeat.
  unfold compute_parts.
  eapply proceeds_bind; [by apply succeeds_proceeds, succeeds_assert|].
  intros ? ->. proceeds_tac.
Qed.

(** What [compute] returns once line 296 is reached: the six values, with
    the divisions by [var_y_res] carried out whatever that variance is. *)
Lemma compute_of_parts (comb : list group_arg) (order : Z) (C : list string)
    (st st_p : engine) (p : parts) :
  compute_parts comb order C st = (Ok p, st_p) →
  ∃ s st',
    compute comb order C st = (Ok s, st')
    ∧ quiet st_p st'
    ∧ index s = RETURN_NAMES
    ∧ sdata s = assemble (p_var_f1 p) (p_var_f2 p) (p_var_GAM p)
                  (p_var_total p) (p_var_fC p) (p_cov p) (p_var_y_res p)
                  (p_var_y p)
    ∧ field s "additive_collab_cov"
      = Ok (fmul (of_Z (-2))
              (fmul (fdiv (p_cov p) (p_var_y_res p))
                    (fdiv (p_var_y_res p) (p_var_y p))))
    ∧ field s "var_gC"
      = Ok (fmul (p_var_fC p) (fdiv (p_var_y_res p) (p_var_y p))).
Proof.
  intros Hp. unfold compute, bind. rewrite Hp.
  pose proof (steps_new_series
    (assemble (p_var_f1 p) (p_var_f2 p) (p_var_GAM p) (p_var_total p)
       (p_var_fC p) (p_cov p) (p_var_y_res p) (p_var_y p)) st_p) as Hq.
  unfold new_series, bind, fresh, ret in *. simpl in *.
  eexists _, _. split; [done|]. split; [exact Hq|]. unfold field. simpl.
  split_and!; try done; reflexivity.
Qed.

Lemma compute_proceeds (comb : list group_arg) (order : Z)
    (C : list string) (st : engine) (comb_ : list (list string)) :
  has_columns st →
  (assert_comb_valid comb [] st).1 = Ok comb_ →
  Forall (λ c, c ∈ fs st) C →
  (∃ st', compute comb order C st = (Raise ValueError, st') ∧ quiet st st')
  ∨ (∃ p st_p s st',
       compute_parts comb order C st = (Ok p, st_p)
       ∧ compute comb order C st = (Ok s, st')
       ∧ quiet st st'
       ∧ index s = RETURN_NAMES
       ∧ sdata s = assemble (p_var_f1 p) (p_var_f2 p) (p_var_GAM p)
                     (p_var_total p) (p_var_fC p) (p_cov p) (p_var_y_res p)
                     (p_var_y p)).
Proof.
  intros Hcols Hv HC.
  destruct (proceeds_compute_parts comb order C st comb_ Hv HC st)
    as [(p & st_p & Hp & Hq & _)|(st_p & Hp & Hq)]; [by split| |].
  - right. destruct (compute_of_parts _ _ _ _ _ _ Hp)
      as (s & st' & Hc & Hq' & Hi & Hd & _).
    exists p, st_p, s, st'. split_and!; try done. by etrans.
  - left. exists st_p. unfold compute, bind. by rewrite Hp.
Qed.

Lemma bind_returned {A B} (m : M A) (k : A → M B) (st st' : engine) (b : B) :
  bind m k st = (Ok b, st') →
  ∃ a st1, m st = (Ok a, st1) ∧ k a st1 = (Ok b, st').
Proof.
  unfold bind. destruct (m st) as [[a|e] st1]; [|done]. intros Hk.
  by exists a, st1.
Qed.

(** The variance [compute] divides by is that of the evaluation target,
    after the prediction of the baseline on [C] is subtracted when [C] is
    not empty (lines 224 to 232). *)
Lemma compute_parts_target (comb : list group_arg) (order : Z)
    (C : list string) (st st_p : engine) (p : parts) :
  compute_parts comb order C st = (Ok p, st_p) →
  ∃ b,
    p_var_y_res p = np_var (sub_pred (y_test st) b)
    ∧ p_var_fC p = fdiv (var_pred b) (p_var_y_res p)
    ∧ (C = [] → b = PScalar (of_Z 0))
    ∧ (C ≠ [] →
       ∃ m XC, (get_model [C] order [] st).1 = Ok m
               ∧ loc_cols (X_test st) C = Ok XC
               ∧ b = PVec (predict (pfit m) XC)).
Proof.
  unfold compute_parts. intros Hp.
  apply bind_returned in Hp; destruct Hp as (comb_ & st0 & Hv & Hp).
  pose proof (assert_comb_valid_state comb [] st) as Hst.
  rewrite Hv in Hst. simpl in Hst. subst st0. cbv zeta in Hp.
  apply bind_returned in Hp; destruct Hp as (b & st1 & Hb & Hp).
  apply bind_returned in Hp; destruct Hp as (yt & st1' & Hyt & Hp).
  unfold gets in Hyt. injection Hyt as <- <-.
  repeat (apply bind_returned in Hp; destruct Hp as (? & ? & _ & Hp)).
  unfold ret in Hp. injection Hp as <- _. simpl.
  exists b. revert Hb. case_bool_decide as HC.
  - intros Hb.
    apply bind_returned in Hb; destruct Hb as (m & st2 & Hm & Hb).
    apply bind_returned in Hb; destruct Hb as (XC & st3 & HX & Hb).
    unfold ret in Hb. injection Hb as <- <-.
    unfold test_cols, lift in HX. injection HX as HX <-.
    pose proof (steps_get_model [C] order [] st) as [[Hs _] _].
    rewrite Hm in Hs. simpl in Hs.
    destruct Hs as (_ & _ & _ & _ & _ & HXt & _ & Hyt & _).
    rewrite Hyt. split_and!; try done.
    + intros ->. simpl in HC. lia.
    + intros _. exists m, XC. rewrite Hm, <-HXt. by split_and!.
  - unfold ret. intros [= <- <-]. split_and!; try done.
    intros Hne. destruct C; [done|]. simpl in HC. lia.
Qed.

(** C6, as the code has it: [compute] has no check of the variance of the
    evaluation target, and no exception for it. For a valid combination
    and conditioning features that are columns, a scikit-learn call raises
    its [ValueError], or [compute] returns the six values, with the
    divisions by [var_y_res] carried out: that is the variance of the
    evaluation target, after the prediction of the baseline on [C] is
    subtracted when [C] is not empty, and where it is zero the values
    returned are quotients by zero. *)
Theorem compute_no_variance_check (comb : list group_arg) (order : Z)
    (C : list string) (st : engine) (comb_ : list (list string)) :
  has_columns st →
  (assert_comb_valid comb [] st).1 = Ok comb_ →
  Forall (λ c, c ∈ fs st) C →
  (∃ st', compute comb order C st = (Raise ValueError, st'))
  ∨ (∃ b p s st',
       (C = [] → b = PScalar (of_Z 0))
       ∧ (C ≠ [] →
          ∃ m XC, (get_model [C] order [] st).1 = Ok m
                  ∧ loc_cols (X_test st) C = Ok XC
                  ∧ b = PVec (predict (pfit m) XC))
       ∧ (compute_parts comb order C st).1 = Ok p
       ∧ p_var_y_res p = np_var (sub_pred (y_test st) b)
       ∧ p_var_fC p = fdiv (var_pred b) (p_var_y_res p)
       ∧ compute comb order C st = (Ok s, st')
       ∧ sdata s = assemble (p_var_f1 p) (p_var_f2 p) (p_var_GAM p)
                     (p_var_total p) (p_var_fC p) (p_cov p) (p_var_y_res p)
                     (p_var_y p)
       ∧ (np_var (sub_pred (y_test st) b) = of_Z 0 →
          field s "additive_collab_cov"
          = Ok (fmul (of_Z (-2))
                  (fmul (fdiv (p_cov p) (of_Z 0))
                        (fdiv (of_Z 0) (p_var_y p))))
          ∧ field s "var_gC"
            = Ok (fmul (fdiv (var_pred b) (of_Z 0))
                    (fdiv (of_Z 0) (p_var_y p))))).
Proof.
  intros Hcols Hv HC.
  destruct (proceeds_compute_parts comb order C st comb_ Hv HC st)
    as [(p & st_p & Hp & _ & _)|(st_p & Hp & _)]; [by split| |].
  - right. destruct (compute_of_parts _ _ _ _ _ _ Hp)
      as (s & st' & Hc & _ & _ & Hd & Hf1 & Hf2).
    destruct (compute_parts_target _ _ _ _ _ _ Hp)
      as (b & Hres & HfC & Hb0 & Hb1).
    exists b, p, s, st'. rewrite Hp. split_and!; try done.
    intros Hz. rewrite Hf1, Hf2, HfC, Hres, Hz. done.
  - left. exists st_p. unfold compute, bind. by rewrite Hp.
Qed.
End compute_returns.

Lemma compute_no_variance_check_witness :
  (has_columns Stub.flat_state
   ∧ (assert_comb_valid [GList ["a"]; GList ["b"]] [] Stub.flat_state).1
     = Ok [["a"]; ["b"]]
   ∧ Forall (λ c, c ∈ fs Stub.flat_state) [])
  ∧ np_var (sub_pred (y_test Stub.flat_state) (PScalar (of_Z 0))) = of_Z 0
  ∧ ∃ p s st',
      (compute_parts [GList ["a"]; GList ["b"]] 2 [] Stub.flat_state).1
      = Ok p
      ∧ compute [GList ["a"]; GList ["b"]] 2 [] Stub.flat_state = (Ok s, st')
      ∧ field s "additive_collab_cov"
        = Ok (fmul (of_Z (-2))
                (fmul (fdiv (p_cov p) (of_Z 0)) (fdiv (of_Z 0) (p_var_y p))))
      ∧ field s "var_gC"
        = Ok (fmul (fdiv (np_var [of_Z 0]) (of_Z 0))
                (fdiv (of_Z 0) (p_var_y p))).
Proof.
  assert (has_columns Stub.flat_state) as Hcols.
  { split; apply (bool_decide_unpack _); vm_cast_no_check I. }
  assert ((assert_comb_valid [GList ["a"]; GList ["b"]] [] Stub.flat_state).1
          = Ok [["a"]; ["b"]]) as Hv by vm_refl.
  assert (np_var (sub_pred (y_test Stub.flat_state) (PScalar (of_Z 0)))
          = of_Z 0) as Hz by vm_refl.
  split; [split_and!; [exact Hcols|exact Hv|constructor]|].
  split; [exact Hz|].
  destruct (compute_no_variance_check [GList ["a"]; GList ["b"]] 2 []
    Stub.flat_state _ Hcols Hv)
    as [(st' & Hc)|(b & p & s & st' & Hb & _ & Hp & _ & _ & Hc & _ & Hzero)];
    [constructor| |].
  - assert (is_Ok (compute [GList ["a"]; GList ["b"]] 2 []
                     Stub.flat_state).1 = true) as Hok by vm_refl.
    rewrite Hc in Hok. discriminate Hok.
  - rewrite (Hb eq_refl) in Hzero. destruct (Hzero Hz) as [H1 H2].
    exists p, s, st'. by split_and!.
Defined.

(** ** Exceptions and the order of the groups *)

Section exceptions.
Context `{Lrn : Learner}.

Lemma fit_step_raise (key : mkey) (e : exclude_arg) (cols : list string)
    (y : vec) (st st' : engine) (err : exn) :
  fit_step key e cols y st = (Raise err, st') → ∃ c, err = KeyError c.
Proof.
  unfold fit_step. destruct (loc_cols _ _) eqn:Hl; [done|].
  intros [= <- _]. destruct (loc_cols_raise _ _ _ Hl) as (c & -> & _). eauto.
Qed.

(** [__get_model] raises nothing but the [KeyError] of a missing column;
    in particular the recursion never runs out of depth. *)
Lemma get_model_raise (comb : list (list string)) (order : Z) (C : list string)
    (st st' : engine) (err : exn) :
  get_model comb order C st = (Raise err, st') → ∃ c, err = KeyError c.
Proof.
  rewrite get_model_unfold. unfold get_model_explicit.
  destruct (models st !! _); [done|].
  case_bool_decide; [|apply fit_step_raise].
  destruct (models st !! _).
  - destruct (loc_cols _ _) eqn:Hl; [apply fit_step_raise|].
    intros [= <- _]. destruct (loc_cols_raise _ _ _ Hl) as (c & -> & _). eauto.
  - destruct (fit_step _ ExclNone _ _ st) as [[b|err1] st1] eqn:Hf.
    + destruct (loc_cols _ _) eqn:Hl; [apply fit_step_raise|].
      intros [= <- _]. destruct (loc_cols_raise _ _ _ Hl) as (c & -> & _). eauto.
    + intros [= <- _]. by apply fit_step_raise in Hf.
Qed.

(** On a miss [get] does not look at the order of the groups: two valid
    queries with one canonical combination are one computation. *)
Lemma get_miss_order_blind (comb comb' : list group_arg) (C : list string)
    (st : engine) (c c' : list (list string)) :
  (assert_comb_valid comb [] st).1 = Ok c →
  (assert_comb_valid comb' [] st).1 = Ok c' →
  sort_comb c false = sort_comb c' false →
  decomps st !! (sort_comb c false, sorted_str C) = None →
  get comb C st = get comb' C st.
Proof.
  intros Hv Hv' Hs Hk. rewrite (get_miss _ _ _ _ Hv Hk).
  rewrite Hs in Hk. rewrite (get_miss _ _ _ _ Hv' Hk). by rewrite Hs.
Qed.
End exceptions.

(** ** Canonical keys *)

(** ** More on canonicalization *)

Lemma Forall2_perm_l {A B} (R : A → B → Prop) (l1 l1' : list A) (l2 : list B) :
  Forall2 R l1 l2 → l1 ≡ₚ l1' → ∃ l2', l2 ≡ₚ l2' ∧ Forall2 R l1' l2'.
Proof.
  intros HF Hp. revert l2 HF.
  induction Hp as [|x l1 l1' Hp IH|x y l1|l1 l1' l1'' Hp1 IH1 Hp2 IH2];
    intros l2 HF.
  - apply Forall2_nil_inv_l in HF as ->. exists []. by split.
  - apply Forall2_cons_inv_l in HF as (b & l2' & Hb & HF & ->).
    destruct (IH _ HF) as (k & Hk & HFk). exists (b :: k).
    split; [by constructor|by constructor].
  - apply Forall2_cons_inv_l in HF as (b & l2' & Hb & HF & ->).
    apply Forall2_cons_inv_l in HF as (b' & l2'' & Hb' & HF & ->).
    exists (b' :: b :: l2''). split; [apply perm_swap|by repeat constructor].
  - destruct (IH1 _ HF) as (k1 & Hk1 & HF1).
    destruct (IH2 _ HF1) as (k2 & Hk2 & HF2).
    exists k2. split; [by etrans|done].
Qed.

Lemma reordering_refl (comb : list (list string)) : reordering comb comb.
Proof.
  exists comb. split; [|done]. by apply Forall_Forall2_diag, Forall_forall.
Qed.

Lemma reordering_sym (comb comb' : list (list string)) :
  reordering comb comb' → reordering comb' comb.
Proof.
  intros (mid & HF & Hp).
  apply Forall2_flip in HF.
  destruct (Forall2_perm_l _ _ _ _ HF Hp) as (k & Hk & HFk).
  exists k. split; [|by symmetry].
  eapply Forall2_impl; [exact HFk|]. intros x y Hxy. unfold flip in Hxy.
  by symmetry.
Qed.

Lemma reordering_trans (c1 c2 c3 : list (list string)) :
  reordering c1 c2 → reordering c2 c3 → reordering c1 c3.
Proof.
  intros (m1 & HF1 & Hp1) (m2 & HF2 & Hp2).
  symmetry in Hp1.
  destruct (Forall2_perm_l _ _ _ _ HF2 Hp1) as (k & Hk & HFk).
  exists k. split.
  - eapply Forall2_trans; [|exact HF1|exact HFk].
    intros x y z Hxy Hyz. by etrans.
  - by rewrite <-Hk.
Qed.

Lemma reordering_canonical (comb : list (list string)) :
  reordering comb (sort_comb comb false).
Proof.
  exists (map sorted_str comb). split; [apply inner_sort_reordering|].
  rewrite sort_comb_full. symmetry. apply sorted_perm; apply _.
Qed.

Lemma reordering_length (comb comb' : list (list string)) :
  reordering comb comb' → length comb' = length comb.
Proof.
  intros (mid & HF & Hp). rewrite <-Hp. symmetry. by eapply Forall2_length.
Qed.

Lemma reordering_concat (comb comb' : list (list string)) :
  reordering comb comb' → concat comb' ≡ₚ concat comb.
Proof.
  intros (mid & HF & Hp). rewrite <-Hp. clear Hp.
  induction HF as [|g g' c c' Hg _ IH]; simpl; [done|]. by rewrite IH, Hg.
Qed.

(** X1: Two combinations have one canonical key exactly when one is the other
    with its groups permuted and the features inside the groups reordered;
    the key has the groups and features of the combination, and is its own
    canonical form. *)
Theorem canonical_key_sound (comb comb' : list (list string)) :
  (sort_comb comb false = sort_comb comb' false ↔ reordering comb comb')
  ∧ length (sort_comb comb false) = length comb
  ∧ concat (sort_comb comb false) ≡ₚ concat comb
  ∧ sort_comb (sort_comb comb false) false = sort_comb comb false.
Proof.
  split_and!.
  - split; [|apply sort_comb_reordering].
    intros Heq. apply (reordering_trans _ (sort_comb comb false)).
    + apply reordering_canonical.
    + rewrite Heq. apply reordering_sym, reordering_canonical.
  - apply reordering_length, reordering_canonical.
  - apply reordering_concat, reordering_canonical.
  - apply sort_comb_canonical.
Qed.

Lemma sort_comb_pair_false (g1 g2 : list string) :
  sort_comb [g1; g2] false
  = if leb_of key_compare (sorted_str g1) (sorted_str g2)
    then [sorted_str g1; sorted_str g2] else [sorted_str g2; sorted_str g1].
Proof. reflexivity. Qed.

Lemma canonical_pair_iff (g1 g2 : list string) :
  sort_comb [g1; g2] true = sort_comb [g1; g2] false
  ↔ le_of key_compare (sorted_str g1) (sorted_str g2).
Proof.
  rewrite sort_comb_pair_false, sort_comb_inner. unfold le_of. simpl.
  destruct (leb_of key_compare (sorted_str g1) (sorted_str g2)) eqn:E.
  - done.
  - split; [|done]. intros [= Heq _]. rewrite Heq in E.
    unfold leb_of in E. by rewrite (cmp_refl (cmp := key_compare)) in E.
Qed.

(** X2: Of two groups that differ as sets of names, exactly one order is the
    canonical one, the one with the smaller group (or, at equal size, the
    lexicographically smaller sorted group) first; [__adjust_order] relabels
    the other. *)
Theorem relabel_exactly_one_order (g1 g2 : list string) :
  sorted_str g1 ≠ sorted_str g2 →
  (sort_comb [g1; g2] true = sort_comb [g1; g2] false
   ↔ sort_comb [g2; g1] true ≠ sort_comb [g2; g1] false)
  ∧ (sort_comb [g1; g2] true = sort_comb [g1; g2] false
     ↔ length g1 < length g2
       ∨ (length g1 = length g2
          ∧ le_of tuple_compare (sorted_str g1) (sorted_str g2))).
Proof.
  intros Hne. split.
  - rewrite !canonical_pair_iff. split.
    + intros H12 H21. apply Hne.
      by apply (leb_of_antisym key_compare).
    + intros H21.
      destruct (leb_of_total key_compare (sorted_str g1) (sorted_str g2));
        [done|]. by destruct H21.
  - rewrite canonical_pair_iff, key_le_iff.
    by rewrite !(Permutation_length (sorted_str_perm _)).
Qed.

Lemma relabel_exactly_one_order_witness :
  sorted_str ["b"] ≠ sorted_str ["a"; "c"]
  ∧ (sort_comb [["b"]; ["a"; "c"]] true = sort_comb [["b"]; ["a"; "c"]] false
     ↔ sort_comb [["a"; "c"]; ["b"]] true ≠ sort_comb [["a"; "c"]; ["b"]] false).
Proof.
  assert (sorted_str ["b"] ≠ sorted_str ["a"; "c"]) as Hne by (by vm_compute).
  split; [exact Hne|]. apply (relabel_exactly_one_order _ _ Hne).
Defined.

(** ** The terms of a model *)

(** ** More on the term algebra *)

Lemma elem_of_get_terms_exclude (fs0 : list string) (order : Z)
    (exclude : list term) (t : term) :
  t ∈ get_terms fs0 order exclude ↔ t ∈ get_terms fs0 order [] ∧ t ∉ exclude.
Proof.
  unfold get_terms. rewrite !list_elem_of_filter. split.
  - intros [? ?]. split_and!; [apply not_elem_of_nil|done..].
  - intros [[_ ?] ?]. done.
Qed.

Lemma filter_all_out {A} (P : A → Prop) `{!∀ x, Decision (P x)} (l : list A) :
  (∀ x, x ∈ l → ¬ P x) → filter P l = [].
Proof.
  intros Hl. apply elem_of_nil_inv. intros x [HP Hx]%list_elem_of_filter.
  by apply (Hl x).
Qed.

Lemma get_terms_short (fs0 : list string) (order : Z) (exclude : list term) :
  (order < 2)%Z ∨ length fs0 < 2 → get_terms fs0 order exclude = [].
Proof.
  intros Hs. apply elem_of_nil_inv. intros t Ht.
  apply elem_of_get_terms_exclude in Ht as [Ht _].
  apply elem_of_get_terms in Ht as (l & -> & Hsub & H2 & Hord).
  apply sublist_length in Hsub. lia.
Qed.

(** X3: Nothing is excluded for a combination of one group, nor when there
    is no room for an interaction: an order below two, or fewer than two
    features in all. *)
Theorem excluded_terms_empty (comb : list (list string)) (order : Z)
    (C : list string) :
  (∀ g, get_excluded_terms [g] order C = [])
  ∧ ((order < 2)%Z ∨ length (concat comb ++ C) < 2 →
     get_excluded_terms comb order C = []).
Proof.
  split.
  - intros g. unfold get_excluded_terms. simpl. rewrite !app_nil_r.
    apply filter_all_out. intros t Ht Hno. by apply Hno.
  - intros Hs. unfold get_excluded_terms. cbv zeta.
    by rewrite (get_terms_short (concat comb ++ C) order [] Hs).
Qed.

#[global] Instance TTuple_inj : Inj (=) (=) TTuple.
Proof. by intros l1 l2 [= ->]. Qed.

Lemma filter_all_in {A} (P : A → Prop) `{!∀ x, Decision (P x)} (l : list A) :
  (∀ x, x ∈ l → P x) → filter P l = l.
Proof.
  induction l as [|x l IH]; intros Hl; [done|]. rewrite filter_cons.
  destruct (decide (P x)) as [|Hn].
  - f_equal. apply IH. intros y Hy. apply Hl. apply elem_of_cons; by right.
  - exfalso. apply Hn, Hl. apply elem_of_cons; by left.
Qed.

Lemma combinations_NoDup {A} (l : list A) (d : nat) :
  NoDup l → NoDup (combinations l d).
Proof.
  intros Hnd. revert d. induction Hnd as [|x l Hx Hnd IH]; intros [|d].
  - apply NoDup_singleton.
  - constructor.
  - rewrite combinations_0. apply NoDup_singleton.
  - simpl. apply NoDup_app. split_and!.
    + apply (NoDup_fmap_2 (cons x)), IH.
    + intros t (t' & -> & Ht')%elem_of_map Hin.
      apply elem_of_combinations in Hin as [Hsub _]. apply Hx.
      apply (elem_of_sublist (x :: t')); [|done]. apply elem_of_cons; by left.
    + apply IH.
Qed.

Lemma concat_NoDup {A} (ls : list (list A)) :
  Forall (λ l, NoDup l) ls →
  (∀ i j l1 l2 x, ls !! i = Some l1 → ls !! j = Some l2 →
                  x ∈ l1 → x ∈ l2 → i = j) →
  NoDup (concat ls).
Proof.
  induction 1 as [|l ls Hl _ IH]; intros Hdisj; simpl; [constructor|].
  apply NoDup_app. split_and!; [done| |].
  - intros x Hx (l' & Hx' & Hl')%elem_of_concat.
    apply list_elem_of_lookup_1 in Hl' as [j Hj].
    by specialize (Hdisj 0 (S j) l l' x eq_refl Hj Hx Hx').
  - apply IH. intros i j l1 l2 x Hi Hj Hx1 Hx2.
    by specialize (Hdisj (S i) (S j) l1 l2 x Hi Hj Hx1 Hx2) as [= ->].
Qed.

Lemma get_terms_NoDup (fs0 : list string) (order : Z) (exclude : list term) :
  NoDup fs0 → NoDup (get_terms fs0 order exclude).
Proof.
  intros Hnd. unfold get_terms. apply NoDup_filter. apply concat_NoDup.
  - apply Forall_forall. intros ts (d & -> & _)%elem_of_map.
    apply (NoDup_fmap_2 TTuple). by apply combinations_NoDup.
  - intros i j l1 l2 t Hi Hj H1 H2. unfold range2 in *.
    rewrite list_lookup_fmap in Hi, Hj.
    destruct (seq 2 _ !! i) as [d1|] eqn:Hd1; [|done].
    destruct (seq 2 _ !! j) as [d2|] eqn:Hd2; [|done].
    simpl in *. simplify_eq.
    apply elem_of_map in H1 as (t1 & -> & H1).
    apply elem_of_map in H2 as (t2 & [= <-] & H2).
    apply elem_of_combinations in H1 as [_ H1].
    apply elem_of_combinations in H2 as [_ H2].
    apply lookup_seq in Hd1 as [-> _]. apply lookup_seq in Hd2 as [-> _]. lia.
Qed.

Lemma combinations_2_length {A} (l : list A) :
  2 * length (combinations l 2) = length l * (length l - 1).
Proof.
  assert (∀ k : list A, length (combinations k 1) = length k) as H1.
  { induction k as [|x k IH]; simpl; [done|].
    rewrite length_app, length_map, combinations_0. simpl. by rewrite IH. }
  induction l as [|x l IH]; simpl; [done|].
  rewrite length_app, length_map, H1. nia.
Qed.

(** X4: [__get_terms] lists no term twice when the features are distinct, and
    for order two it lists one term for each of the n(n-1)/2 pairs. *)
Theorem get_terms_distinct_pairs (fs0 : list string) (order : Z)
    (exclude : list term) :
  NoDup fs0 →
  NoDup (get_terms fs0 order exclude)
  ∧ 2 * length (get_terms fs0 2 []) = length fs0 * (length fs0 - 1).
Proof.
  intros Hnd. split; [by apply get_terms_NoDup|].
  unfold get_terms. rewrite filter_all_in.
  - simpl. rewrite app_nil_r, length_map. apply combinations_2_length.
  - intros t _. apply not_elem_of_nil.
Qed.

Lemma term_over_weaken (big small : list string) (order : Z) (l : list string) :
  small `sublist_of` big → term_over small order l → term_over big order l.
Proof. intros Hs (Hsub & ?). split; [by etrans|done]. Qed.

Lemma elem_of_terms_C_tuple (C : list string) (order : Z) (l : list string) :
  TTuple l ∈ terms_C_of C order ↔ term_over C order l.
Proof.
  unfold terms_C_of. rewrite elem_of_app, elem_of_get_terms. split.
  - intros [(l' & [= <-] & ?)|(f & [=] & _)%elem_of_map]. done.
  - intros ?. left. eauto.
Qed.

Lemma elem_of_terms_g_tuple (g C : list string) (order : Z) (l : list string) :
  TTuple l ∈ terms_g_of g C order
  ↔ term_over (g ++ C) order l ∧ ¬ term_over C order l.
Proof.
  unfold terms_g_of.
  rewrite elem_of_app, elem_of_get_terms_exclude, elem_of_get_terms,
    elem_of_terms_C_tuple.
  split.
  - intros [[(l' & [= <-] & ?) ?]|(f & [=] & _)%elem_of_map]. done.
  - intros [? ?]. left. eauto.
Qed.

Lemma elem_of_terms_str (g C : list string) (order : Z) (f : string) :
  (TStr f ∈ terms_g_of g C order ↔ f ∈ g)
  ∧ (TStr f ∈ terms_C_of C order ↔ f ∈ C).
Proof.
  unfold terms_g_of, terms_C_of.
  rewrite !elem_of_app, elem_of_get_terms_exclude, !elem_of_get_terms,
    !elem_of_map.
  split; split.
  - intros [[(l & [=] & _) _]|(f' & [= <-] & ?)]. done.
  - intros ?. right. eauto.
  - intros [(l & [=] & _)|(f' & [= <-] & ?)]. done.
  - intros ?. right. eauto.
Qed.

(** A term over [g ++ C] that is no term over [C] has a feature of [g]. *)
Lemma term_has_group_feature (g C : list string) (order : Z) (l : list string) :
  NoDup (g ++ C) →
  term_over (g ++ C) order l → ¬ term_over C order l →
  ∃ x, x ∈ l ∧ x ∈ g.
Proof.
  intros Hnd (Hsub & H2 & Hord) Hno.
  destruct (decide (Forall (λ x, x ∈ C) l)) as [Hall|Hex].
  - exfalso. apply Hno. split; [|done].
    apply (sublist_restrict (g ++ C)); try done.
    + by apply sublist_inserts_l.
    + by apply Forall_forall.
  - apply not_Forall_Exists in Hex; [|apply _].
    apply Exists_exists in Hex as (x & Hx & HxC). exists x. split; [done|].
    pose proof (elem_of_sublist _ _ _ Hx Hsub) as [?|?]%elem_of_app; done.
Qed.

(** X5: The three lists of terms that [compute] hands to [predict_components]
    (lines 267 to 269) share no term, for disjoint duplicate-free groups
    and conditioning set; their interaction terms are together the terms the
    grouped model is allowed, and their main effects are the features. *)
Theorem component_terms_partition (g1 g2 C : list string) (order : Z) :
  NoDup (g1 ++ g2 ++ C) →
  (∀ t, t ∈ terms_g_of g1 C order → t ∉ terms_g_of g2 C order)
  ∧ (∀ t, t ∈ terms_g_of g1 C order → t ∉ terms_C_of C order)
  ∧ (∀ t, t ∈ terms_g_of g2 C order → t ∉ terms_C_of C order)
  ∧ (∀ l, TTuple l ∈ terms_g_of g1 C order ∨ TTuple l ∈ terms_g_of g2 C order
          ∨ TTuple l ∈ terms_C_of C order
          ↔ TTuple l ∈ get_terms (concat [g1; g2] ++ C) order []
            ∧ TTuple l ∉ get_excluded_terms [g1; g2] order C)
  ∧ (∀ f, TStr f ∈ terms_g_of g1 C order ∨ TStr f ∈ terms_g_of g2 C order
          ∨ TStr f ∈ terms_C_of C order
          ↔ f ∈ g1 ++ g2 ++ C).
Proof.
  intros Hnd.
  assert (NoDup (g1 ++ C) ∧ NoDup (g2 ++ C)
          ∧ (∀ x, x ∈ g1 → x ∉ g2) ∧ (∀ x, x ∈ g1 → x ∉ C)
          ∧ (∀ x, x ∈ g2 → x ∉ C)) as (Hnd1 & Hnd2 & H12 & H1C & H2C).
  { apply NoDup_app in Hnd as (Hn1 & Hd1 & Hn2C).
    pose proof Hn2C as (Hn2 & Hd2 & HnC)%NoDup_app.
    split_and!; try done.
    - apply NoDup_app. split_and!; [done| |done].
      intros x Hx HC. apply (Hd1 x Hx). apply elem_of_app; by right.
    - intros x Hx H2. apply (Hd1 x Hx). apply elem_of_app; by left.
    - intros x Hx HC. apply (Hd1 x Hx). apply elem_of_app; by right. }
  assert (∀ g g' l, NoDup (g ++ C) → (∀ x, x ∈ g → x ∉ g') → (∀ x, x ∈ g → x ∉ C) →
            TTuple l ∈ terms_g_of g C order →
            TTuple l ∉ terms_g_of g' C order) as Hcross.
  { intros g g' l Hn Hgg HgC [Ho Hno]%elem_of_terms_g_tuple
      [(Hsub' & _) _]%elem_of_terms_g_tuple.
    destruct (term_has_group_feature g C order l Hn Ho Hno) as (x & Hxl & Hxg).
    pose proof (elem_of_sublist _ _ _ Hxl Hsub') as [?|?]%elem_of_app.
    - by apply (Hgg x).
    - by apply (HgC x). }
  split_and!.
  - intros [l|f] H1 H2.
    + by apply (Hcross g1 g2 l).
    + apply (proj1 (elem_of_terms_str _ _ _ _)) in H1.
      apply (proj1 (elem_of_terms_str _ _ _ _)) in H2.
      by apply (H12 f).
  - intros [l|f] H1 HC.
    + apply elem_of_terms_g_tuple in H1 as [_ Hno].
      by apply elem_of_terms_C_tuple in HC.
    + apply (proj1 (elem_of_terms_str _ _ _ _)) in H1.
      apply (proj2 (elem_of_terms_str [] _ order _)) in HC.
      by apply (H1C f).
  - intros [l|f] H2 HC.
    + apply elem_of_terms_g_tuple in H2 as [_ Hno].
      by apply elem_of_terms_C_tuple in HC.
    + apply (proj1 (elem_of_terms_str _ _ _ _)) in H2.
      apply (proj2 (elem_of_terms_str [] _ order _)) in HC.
      by apply (H2C f).
  - intros l. rewrite !elem_of_terms_g_tuple, elem_of_terms_C_tuple.
    rewrite elem_of_excluded_terms, !elem_of_get_terms.
    assert ((g1 ++ C) `sublist_of` (concat [g1; g2] ++ C)) as Hs1.
    { apply group_sublist_concat. apply elem_of_cons; by left. }
    assert ((g2 ++ C) `sublist_of` (concat [g1; g2] ++ C)) as Hs2.
    { apply group_sublist_concat. apply elem_of_cons; right.
      apply elem_of_cons; by left. }
    split.
    + intros Hcase.
      assert (term_over (g1 ++ C) order l ∨ term_over (g2 ++ C) order l)
        as Hin.
      { destruct Hcase as [[? _]|[[? _]|HC]]; auto.
        left. apply (term_over_weaken _ C); [|done]. by apply sublist_inserts_l. }
      split.
      * exists l. split; [done|].
        destruct Hin; [by apply (term_over_weaken _ (g1 ++ C))
                      |by apply (term_over_weaken _ (g2 ++ C))].
      * intros (_ & Hall). destruct Hin as [Hin|Hin].
        -- apply (Hall g1); [apply elem_of_cons; by left|].
           apply elem_of_get_terms. eauto.
        -- apply (Hall g2); [apply elem_of_cons; right; apply elem_of_cons; by left|].
           apply elem_of_get_terms. eauto.
    + intros [(l' & [= <-] & Hover) Hnot].
      destruct (decide (TTuple l ∈ get_terms (g1 ++ C) order [])) as [H1|H1].
      { apply elem_of_get_terms in H1 as (l' & [= <-] & H1).
        destruct (decide (TTuple l ∈ get_terms C order [])) as [HC|HC].
        - right; right. by apply elem_of_get_terms in HC as (? & [= <-] & ?).
        - left. split; [done|]. intros HC'. apply HC, elem_of_get_terms. eauto. }
      destruct (decide (TTuple l ∈ get_terms (g2 ++ C) order [])) as [H2|H2].
      { apply elem_of_get_terms in H2 as (l' & [= <-] & H2).
        destruct (decide (TTuple l ∈ get_terms C order [])) as [HC|HC].
        - right; right. by apply elem_of_get_terms in HC as (? & [= <-] & ?).
        - right; left. split; [done|]. intros HC'. apply HC, elem_of_get_terms.
          eauto. }
      exfalso. apply Hnot. split; [eauto|].
      intros g [->|[->|[]%elem_of_nil]%elem_of_cons]%elem_of_cons; done.
  - intros f.
    destruct (elem_of_terms_str g1 C order f) as [-> HC].
    destruct (elem_of_terms_str g2 C order f) as [-> _]. rewrite HC.
    rewrite !elem_of_app. tauto.
Qed.

Lemma component_terms_partition_witness :
  NoDup (["a"] ++ ["b"] ++ ["c"])
  ∧ ∀ t, t ∈ terms_g_of ["a"] ["c"] 2 → t ∉ terms_g_of ["b"] ["c"] 2.
Proof.
  assert (NoDup (["a"] ++ ["b"] ++ ["c"])) as Hnd.
  { apply (bool_decide_unpack _). vm_compute. exact I. }
  split; [exact Hnd|].
  apply (component_terms_partition ["a"] ["b"] ["c"] 2 Hnd).
Defined.

(** ** The validator *)

Section validator.
Context `{Lrn : Learner}.

Lemma disjointb_true (a b : list string) :
  disjointb a b = true ↔ ∀ f, f ∈ a → f ∉ b.
Proof.
  unfold disjointb. rewrite bool_decide_eq_true, Forall_forall. done.
Qed.

Lemma disjointb_false (a b : list string) :
  disjointb a b = false ↔ ∃ f, f ∈ a ∧ f ∈ b.
Proof.
  unfold disjointb. rewrite bool_decide_eq_false. split.
  - intros Hno. apply not_Forall_Exists in Hno; [|apply _].
    apply Exists_exists in Hno as (f & Hf & Hb). exists f. split; [done|].
    by apply dec_stable.
  - intros (f & Hf & Hb) Hall. rewrite Forall_forall in Hall.
    by apply (Hall f).
Qed.

(** The loop of the validator accepts a combination when each element is a
    string, a tuple or a list of feature columns, and returns the lists. *)
Lemma check_groups_ok (fs0 : list string) (comb : list group_arg)
    (comb_ : list (list string)) :
  check_groups fs0 comb = Ok comb_ ↔
  Forall2 (λ g l, as_list g = Some l ∧ Forall (λ f, f ∈ fs0) l) comb comb_.
Proof.
  revert comb_. induction comb as [|g comb IH]; intros comb_; simpl.
  - split.
    + intros [= <-]. constructor.
    + intros ->%Forall2_nil_inv_l. done.
  - split.
    + intros Hc.
      destruct g as [s|l|l|]; simpl in Hc; try done;
        match type of Hc with
        | context [bool_decide ?P] => destruct (bool_decide_reflect P) as [Hin|]
        end; try done;
        destruct (check_groups fs0 comb) as [rest|] eqn:Er; simpl in Hc;
        try done; injection Hc as <-;
        (constructor; [done|by apply IH]).
    + intros (l & rest & [Hg Hin] & Hrest & ->)%Forall2_cons_inv_l.
      apply IH in Hrest.
      destruct g as [s|l'|l'|]; simpl in Hg; try done; injection Hg as ->;
        simpl; rewrite bool_decide_eq_true_2 by done; rewrite Hrest; done.
Qed.

(** The loop stops at the first element that is no string, tuple or list,
    or that names a feature the data does not have. *)
Lemma check_groups_fault (fs0 : list string) (comb : list group_arg) (e : exn) :
  check_groups fs0 comb = Raise e →
  (e = AssertionError
         "The elements of the combination must be strings or lists"
   ∧ ∃ g, g ∈ comb ∧ as_list g = None)
  ∨ (e = AssertionError "Feature not in the dataset"
     ∧ ∃ g l f, g ∈ comb ∧ as_list g = Some l ∧ f ∈ l ∧ f ∉ fs0).
Proof.
  induction comb as [|g comb IH]; [done|]. simpl. intros Ec.
  destruct (as_list g) as [l|] eqn:Eg.
  - assert (match g with
            | GStr s => Ok [s]
            | GTuple l | GList l => Ok l
            | GOther => Raise (AssertionError
                "The elements of the combination must be strings or lists")
            end = Ok l) as Hg.
    { destruct g; simpl in Eg; try done; by injection Eg as ->. }
    rewrite Hg in Ec. simpl in Ec.
    destruct (bool_decide_reflect (Forall (λ f, f ∈ fs0) l)) as [Hin|Hin].
    + destruct (check_groups fs0 comb) as [rest|e''] eqn:Er; [done|].
      simpl in Ec. injection Ec as ->.
      destruct (IH eq_refl) as [[-> (g' & ? & ?)]
        |[-> (g' & l' & f & ? & ? & ? & ?)]].
      * left. split; [done|]. exists g'. split; [|done].
        apply elem_of_cons; by right.
      * right. split; [done|]. exists g', l', f.
        split_and!; try done. apply elem_of_cons; by right.
    + injection Ec as <-. right. split; [done|].
      apply not_Forall_Exists in Hin; [|apply _].
      apply Exists_exists in Hin as (f & Hf & Hno).
      exists g, l, f. split_and!; try done. apply elem_of_cons; by left.
  - destruct g; simpl in Eg; try done. simpl in Ec. injection Ec as <-.
    left. split; [done|]. exists GOther. split; [|done].
    apply elem_of_cons; by left.
Qed.

Lemma assert_comb_valid_ok (comb : list group_arg) (C : list string)
    (st : engine) (comb_ : list (list string)) :
  (assert_comb_valid comb C st).1 = Ok comb_ ↔
  ∃ a b la lb,
    comb = [a; b] ∧ comb_ = [la; lb]
    ∧ as_list a = Some la ∧ as_list b = Some lb
    ∧ Forall (λ f, f ∈ fs st) (la ++ lb)
    ∧ (∀ f, f ∈ la → f ∉ lb)
    ∧ (∀ f, f ∈ la ++ lb → f ∉ C).
Proof.
  unfold assert_comb_valid. split.
  - destruct (bool_decide_reflect (length comb = 2)) as [Hlen|]; [|done].
    unfold bind, gets, lift.
    destruct (check_groups (fs st) comb) as [c|] eqn:Ec; [|done].
    destruct (disjointb (nth 0 c []) (nth 1 c [])) eqn:Ed; [|done].
    destruct (disjointb (nth 0 c [] ++ nth 1 c []) C) eqn:EC; [|done].
    simpl. intros [= <-].
    apply check_groups_ok in Ec.
    destruct comb as [|a [|b [|]]]; try done.
    apply Forall2_cons_inv_l in Ec as (la & rest & [Ha Hina] & Ec & ->).
    apply Forall2_cons_inv_l in Ec as (lb & rest' & [Hb Hinb] & Ec & ->).
    apply Forall2_nil_inv_l in Ec as ->. simpl in Ed, EC.
    exists a, b, la, lb. split_and!; try done.
    + by apply Forall_app.
    + by apply disjointb_true.
    + by apply disjointb_true.
  - intros (a & b & la & lb & -> & -> & Ha & Hb & Hin & Hd & HC).
    apply Forall_app in Hin as [Hina Hinb].
    assert (check_groups (fs st) [a; b] = Ok [la; lb]) as Hc.
    { apply check_groups_ok. repeat constructor; done. }
    rewrite bool_decide_eq_true_2 by done.
    unfold bind, gets, lift. rewrite Hc. cbn [nth].
    rewrite (proj2 (disjointb_true la lb) Hd).
    rewrite (proj2 (disjointb_true (la ++ lb) C) HC). done.
Qed.

(** X6: The validator accepts a combination and returns it as two lists when,
    and only when: it has two elements, each a string, a tuple or a list;
    every feature is a column other than the target; the two groups share
    no feature; and neither shares one with the conditioning set. *)
Theorem assert_comb_valid_accepts (comb : list group_arg) (C : list string)
    (st : engine) (comb_ : list (list string)) :
  (assert_comb_valid comb C st).1 = Ok comb_ ↔
  ∃ a b la lb,
    comb = [a; b] ∧ comb_ = [la; lb]
    ∧ as_list a = Some la ∧ as_list b = Some lb
    ∧ Forall (λ f, f ∈ fs st) (la ++ lb)
    ∧ (∀ f, f ∈ la → f ∉ lb)
    ∧ (∀ f, f ∈ la ++ lb → f ∉ C).
Proof. apply assert_comb_valid_ok. Qed.

(** X7: Each assertion message of the validator names the fault that raised it,
    and a rejected combination leaves the engine as it was. *)
Theorem assert_comb_valid_rejects (comb : list group_arg) (C : list string)
    (st : engine) (e : exn) :
  (assert_comb_valid comb C st).1 = Raise e →
  (assert_comb_valid comb C st).2 = st
  ∧ ((e = AssertionError "Please provide exactly two sets of features"
      ∧ length comb ≠ 2)
     ∨ (e = AssertionError
              "The elements of the combination must be strings or lists"
        ∧ ∃ g, g ∈ comb ∧ as_list g = None)
     ∨ (e = AssertionError "Feature not in the dataset"
        ∧ ∃ g l f, g ∈ comb ∧ as_list g = Some l ∧ f ∈ l ∧ f ∉ fs st)
     ∨ (e = AssertionError "the two sets of features must be disjoint"
        ∧ ∃ a b la lb f, comb = [a; b] ∧ as_list a = Some la
            ∧ as_list b = Some lb ∧ f ∈ la ∧ f ∈ lb)
     ∨ (e = AssertionError
              "the conditioning set must be disjoint from the two sets"
        ∧ ∃ g l f, g ∈ comb ∧ as_list g = Some l ∧ f ∈ l ∧ f ∈ C)).
Proof.
  intros Hr. split; [apply assert_comb_valid_state|].
  revert Hr. unfold assert_comb_valid.
  destruct (bool_decide_reflect (length comb = 2)) as [Hlen|Hlen].
  2:{ intros [= <-]. left. done. }
  unfold bind, gets, lift.
  destruct (check_groups (fs st) comb) as [c|e'] eqn:Ec.
  - apply check_groups_ok in Ec.
    destruct comb as [|a [|b [|]]]; try done.
    apply Forall2_cons_inv_l in Ec as (la & rest & [Ha Hina] & Ec & ->).
    apply Forall2_cons_inv_l in Ec as (lb & rest' & [Hb Hinb] & Ec & ->).
    apply Forall2_nil_inv_l in Ec as ->. simpl.
    destruct (disjointb la lb) eqn:Ed.
    + destruct (disjointb (la ++ lb) C) eqn:EC; [done|].
      intros [= <-]. do 4 right. split; [done|].
      apply disjointb_false in EC as (f & [Hf|Hf]%elem_of_app & HfC).
      * exists a, la, f. split_and!; try done. apply elem_of_cons; by left.
      * exists b, lb, f. split_and!; try done.
        apply elem_of_cons; right. apply elem_of_cons; by left.
    + intros [= <-]. do 3 right. left. split; [done|].
      apply disjointb_false in Ed as (f & Hfa & Hfb).
      exists a, b, la, lb, f. done.
  - simpl. intros [= <-]. right.
    destruct (check_groups_fault _ _ _ Ec) as [?|?]; [by left|by right; left].
Qed.

Lemma sorted_str_elem_of (l : list string) (f : string) :
  f ∈ sorted_str l ↔ f ∈ l.
Proof. by rewrite (sorted_str_perm l). Qed.

Lemma assert_comb_valid_canonical (comb : list group_arg) (C : list string)
    (st : engine) (comb_ : list (list string)) :
  (assert_comb_valid comb C st).1 = Ok comb_ →
  (assert_comb_valid (map GTuple (sort_comb comb_ false)) C st).1
  = Ok (sort_comb comb_ false).
Proof.
  intros (a & b & la & lb & -> & -> & Ha & Hb & Hin & Hd & HC)
    %assert_comb_valid_ok.
  apply Forall_app in Hin as [Hina Hinb].
  assert (Forall (λ f, f ∈ fs st) (sorted_str la)) as Hsa.
  { apply Forall_forall. intros f Hf. rewrite sorted_str_elem_of in Hf.
    by apply (proj1 (Forall_forall _ _) Hina). }
  assert (Forall (λ f, f ∈ fs st) (sorted_str lb)) as Hsb.
  { apply Forall_forall. intros f Hf. rewrite sorted_str_elem_of in Hf.
    by apply (proj1 (Forall_forall _ _) Hinb). }
  rewrite sort_comb_pair_false.
  destruct (leb_of key_compare (sorted_str la) (sorted_str lb));
    apply assert_comb_valid_ok; eexists _, _, _, _;
    (split_and!; [reflexivity|reflexivity|reflexivity|reflexivity|..]).
  - by apply Forall_app.
  - intros f Hf Hf'. rewrite sorted_str_elem_of in Hf, Hf'. by apply (Hd f).
  - intros f Hf. apply HC.
    rewrite elem_of_app, !sorted_str_elem_of in Hf. by apply elem_of_app.
  - by apply Forall_app.
  - intros f Hf Hf'. rewrite sorted_str_elem_of in Hf, Hf'. by apply (Hd f).
  - intros f Hf. apply HC.
    rewrite elem_of_app, !sorted_str_elem_of in Hf. apply elem_of_app. tauto.
Qed.

Lemma assert_comb_valid_swap (a b : group_arg) (C : list string)
    (st : engine) (la lb : list string) :
  (assert_comb_valid [a; b] C st).1 = Ok [la; lb] →
  (assert_comb_valid [b; a] C st).1 = Ok [lb; la].
Proof.
  intros (a' & b' & la' & lb' & [= <- <-] & [= <- <-] & Ha & Hb & Hin & Hd & HC)
    %assert_comb_valid_ok.
  apply Forall_app in Hin as [Hina Hinb].
  apply assert_comb_valid_ok. exists b, a, lb, la.
  split_and!; try done.
  - by apply Forall_app.
  - intros f Hfb Hfa. by apply (Hd f).
  - intros f Hf. apply HC. rewrite elem_of_app in Hf. apply elem_of_app. tauto.
Qed.

(** X8: What [get] validates, [compute] validates again in canonical order and
    accepts: the groups that [__sort_comb] returns pass the validator as
    they are. A valid combination is also valid with its two groups
    exchanged, and it has two groups. *)
Theorem canonical_comb_revalidates (comb : list group_arg) (C : list string)
    (st : engine) (comb_ : list (list string)) :
  (assert_comb_valid comb C st).1 = Ok comb_ →
  (assert_comb_valid (map GTuple (sort_comb comb_ false)) C st).1
  = Ok (sort_comb comb_ false)
  ∧ (assert_comb_valid (reverse comb) C st).1 = Ok (reverse comb_)
  ∧ length comb_ = 2.
Proof.
  intros Hv. split; [by eapply assert_comb_valid_canonical|].
  pose proof Hv as (a & b & la & lb & -> & -> & _)%assert_comb_valid_ok.
  split; [|done]. by apply assert_comb_valid_swap.
Qed.
End validator.

(** ** What [__get_model] fits and raises *)

Section model_cache_keys.
Context `{Lrn : Learner}.

Lemma loc_cols_missing (X : table) (cols : list string) (c : string) :
  c ∈ cols → c ∉ X.*1 →
  ∃ c', loc_cols X cols = Raise (KeyError c') ∧ c' ∈ cols ∧ c' ∉ X.*1.
Proof.
  intros Hc Hno.
  destruct (loc_cols X cols) as [T|e] eqn:E.
  - exfalso. revert T E. induction cols as [|d cols IH]; intros T E.
    + by apply elem_of_nil in Hc.
    + unfold loc_cols in E. simpl in E.
      destruct (column X d) as [v|] eqn:Ed; [|done]. simpl in E.
      destruct (res_mapM _ cols) as [T'|] eqn:ET; [|done].
      apply elem_of_cons in Hc as [->|Hc].
      * unfold column in Ed.
        destruct (list_find _ X) as [[i [l v']]|] eqn:Ef; [|done].
        apply list_find_Some in Ef as (Hi & Hl & _). simpl in Hl. subst l.
        apply Hno. apply list_elem_of_fmap. exists (d, v'). split; [done|].
        by eapply list_elem_of_lookup_2.
      * by apply (IH Hc T').
  - destruct (loc_cols_raise _ _ _ E) as (c' & -> & ? & ?). eauto.
Qed.

Lemma fit_step_fail (key : mkey) (e : exclude_arg) (cols : list string)
    (y : vec) (st st' : engine) (err : exn) :
  fit_step key e cols y st = (Raise err, st') →
  st' = st ∧ ∃ c, err = KeyError c ∧ c ∈ cols ∧ c ∉ (X_train st).*1.
Proof.
  unfold fit_step. destruct (loc_cols _ _) eqn:E; [done|].
  intros [= <- <-]. split; [done|]. by apply loc_cols_raise in E.
Qed.

Lemma fit_step_log (key : mkey) (e : exclude_arg) (cols : list string)
    (y : vec) (st st' : engine) (m : predictor_obj) :
  fit_step key e cols y st = (Ok m, st') →
  fit_log st' = fit_log st ++ [mkFit (Some key) (pid m)]
  ∧ models st' = <[key := m]> (models st)
  ∧ X_train st' = X_train st.
Proof.
  unfold fit_step. destruct (loc_cols _ _) eqn:E; [|done].
  intros [= <- <-]. done.
Qed.

Lemma conditioned_key_ne (order : Z) (cs : list (list string)) (C : list string) :
  0 < length C → (order, cs, C) ≠ (order, [C], @nil string).
Proof. intros Hlen [= _ HC]. rewrite HC in Hlen. simpl in Hlen. lia. Qed.

(** X9: A model fitted for one arrangement of the groups and of the
    conditioning set answers the request for every other arrangement: the
    same object, and nothing is fitted. *)
Theorem get_model_answers_reorderings (comb comb' : list (list string))
    (order : Z) (C C' : list string) (st st' : engine) (m : predictor_obj) :
  reordering comb comb' → C ≡ₚ C' →
  get_model comb order C st = (Ok m, st') →
  get_model comb' order C' st' = (Ok m, st').
Proof.
  intros Hr HC Hg. apply get_model_hit.
  rewrite <-(sort_comb_reordering _ _ Hr).
  unfold sorted_str. rewrite <-(sorted_perm_eq _ _ _ HC).
  by apply get_model_stores in Hg.
Qed.

(** X10: [__get_model] fails only with the [KeyError] of a requested column that
    the training partition does not have. It has then cached nothing under
    the requested key, and fitted at most the baseline of the conditioning
    set, which stays cached. *)
Theorem get_model_failure (comb : list (list string)) (order : Z)
    (C : list string) (st st' : engine) (err : exn) :
  get_model comb order C st = (Raise err, st') →
  (∃ c, err = KeyError c ∧ c ∈ concat comb ++ C ∧ c ∉ (X_train st).*1)
  ∧ models st' !! (order, sort_comb comb false, sorted_str C) = None
  ∧ (st' = st
     ∨ ∃ b, fit_log st' = fit_log st
                ++ [mkFit (Some (order, [sorted_str C], [])) (pid b)]
            ∧ models st' = <[(order, [sorted_str C], []) := b]> (models st)).
Proof.
  rewrite get_model_unfold. unfold get_model_explicit.
  destruct (models st !! (order, sort_comb comb false, sorted_str C))
    as [m|] eqn:Ek; [done|].
  assert (∀ c, c ∈ sorted_str C → c ∈ concat comb ++ C) as HinC.
  { intros c Hc. apply elem_of_app. right.
    by rewrite <-(sorted_str_perm C). }
  destruct (bool_decide_reflect (0 < length (sorted_str C))) as [Hlen|Hlen].
  - destruct (models st !! (order, [sorted_str C], [])) as [b|] eqn:Eb.
    + destruct (loc_cols (X_train st) (sorted_str C)) as [XC|e] eqn:EX.
      * intros (-> & c & -> & ? & ?)%fit_step_fail.
        split_and!; [eauto|done|by left].
      * intros [= <- <-]. apply loc_cols_raise in EX as (c & -> & ? & ?).
        split_and!; [eauto|done|by left].
    + destruct (fit_step _ ExclNone _ _ st) as [[b|e] st1] eqn:Ef.
      * pose proof (fit_step_log _ _ _ _ _ _ _ Ef) as (Hlog & Hm & HX).
        assert (models st1 !! (order, sort_comb comb false, sorted_str C)
                = None) as Hk1.
        { rewrite Hm, lookup_insert_ne; [done|].
          intros Heq. by apply (conditioned_key_ne order
            (sort_comb comb false) (sorted_str C)). }
        destruct (loc_cols (X_train st1) (sorted_str C)) as [XC|e] eqn:EX.
        -- intros (-> & c & -> & ? & ?)%fit_step_fail. rewrite HX in *.
           split_and!; [eauto|done|right; eauto].
        -- intros [= <- <-]. apply loc_cols_raise in EX as (c & -> & ? & ?).
           rewrite HX in *. split_and!; [eauto|done|right; eauto].
      * intros [= <- <-]. apply fit_step_fail in Ef as (-> & c & -> & ? & ?).
        split_and!; [eauto|done|by left].
  - intros (-> & c & -> & ? & ?)%fit_step_fail.
    split_and!; [eauto|done|by left].
Qed.

(** X11: Which learners a call of [__get_model] fits: none for a cached key;
    else the one for the key, and before it the baseline of a non-empty
    conditioning set that is not cached yet. Each is stored under its key. *)
Theorem get_model_fits (comb : list (list string)) (order : Z)
    (C : list string) (st st' : engine) (m : predictor_obj) :
  get_model comb order C st = (Ok m, st') →
  let key := (order, sort_comb comb false, sorted_str C) in
  let ckey := (order, [sorted_str C], @nil string) in
  keyed (fit_log st') = keyed (fit_log st) ++
    (if decide (is_Some (models st !! key)) then []
     else (if decide (C ≠ [] ∧ models st !! ckey = None) then [ckey] else [])
          ++ [key])
  ∧ (models st !! key = None → C ≠ [] → is_Some (models st' !! ckey))
  ∧ models st' !! key = Some m.
Proof.
  intros Hg key ckey. split_and!; [| |by apply get_model_stores in Hg].
  all: revert Hg; rewrite get_model_unfold; unfold get_model_explicit;
    fold key; fold ckey.
  all: assert (0 < length (sorted_str C) ↔ C ≠ []) as Hne
    by (rewrite (Permutation_length (sorted_str_perm C));
         destruct C; simpl; split; (done || lia)).
  - destruct (models st !! key) as [m0|] eqn:Ek.
    { intros [= <- <-]. rewrite decide_True by eauto. by rewrite app_nil_r. }
    rewrite decide_False by (by intros [? ?]).
    destruct (bool_decide_reflect (0 < length (sorted_str C))) as [Hlen|Hlen].
    + destruct (models st !! ckey) as [b|] eqn:Eb.
      * rewrite decide_False by (by intros [_ ?]).
        destruct (loc_cols (X_train st) (sorted_str C)); [|done].
        intros (-> & _)%fit_step_log. by rewrite keyed_app.
      * rewrite decide_True by (split; [by apply Hne|done]).
        destruct (fit_step ckey ExclNone _ _ st) as [[b|e] st1] eqn:Ef; [|done].
        apply fit_step_log in Ef as (Hl1 & _).
        destruct (loc_cols (X_train st1) (sorted_str C)); [|done].
        intros (-> & _)%fit_step_log. rewrite Hl1, !keyed_app, <-app_assoc.
        done.
    + rewrite decide_False by (intros [? _]; by apply Hlen, Hne).
      intros (-> & _)%fit_step_log. by rewrite keyed_app.
  - intros Hg Hk HC. revert Hg. rewrite Hk.
    rewrite bool_decide_eq_true_2 by (by apply Hne).
    assert (key ≠ ckey) as Hkc.
    { apply conditioned_key_ne. by apply Hne. }
    destruct (models st !! ckey) as [b|] eqn:Eb.
    + destruct (loc_cols (X_train st) (sorted_str C)); [|done].
      intros (_ & -> & _)%fit_step_log.
      rewrite lookup_insert_ne by done. rewrite Eb. eauto.
    + destruct (fit_step ckey ExclNone _ _ st) as [[b|e] st1] eqn:Ef; [|done].
      apply fit_step_log in Ef as (_ & Hm1 & _).
      destruct (loc_cols (X_train st1) (sorted_str C)); [|done].
      intros (_ & -> & _)%fit_step_log.
      rewrite lookup_insert_ne by done. rewrite Hm1, lookup_insert_eq. eauto.
Qed.
End model_cache_keys.

(** ** What [get] returns and raises *)

Section raising.
Context `{Lrn : Learner}.

Lemma raises_bind {A B} (P : exn → Prop) (m : M A) (k : A → M B) :
  raises_only P m → (∀ a, raises_only P (k a)) → raises_only P (bind m k).
Proof.
  intros Hm Hk st e st'. unfold bind.
  destruct (m st) as [[a|e0] st1] eqn:Em.
  - apply Hk.
  - intros [= <- <-]. by eapply Hm.
Qed.

Lemma raises_only_at {A} (P : exn → Prop) (m : M A) (st st' : engine)
    (e : exn) :
  raises_only P m → m st = (Raise e, st') → P e.
Proof. intros Hr. apply Hr. Qed.

Lemma raises_ret {A} (P : exn → Prop) (a : A) : raises_only P (ret a).
Proof. by intros st e st'. Qed.

Lemma raises_gets {A} (P : exn → Prop) (f : engine → A) :
  raises_only P (gets f).
Proof. by intros st e st'. Qed.

Lemma raises_modify (P : exn → Prop) (f : engine → engine) :
  raises_only P (modify f).
Proof. by intros st e st'. Qed.

Lemma raises_test_cols (cols : list string) :
  raises_only is_library_error (test_cols cols).
Proof.
  intros st e st'. unfold test_cols, lift. intros [= Hl _].
  apply loc_cols_raise in Hl as (c & -> & _). left. by exists c.
Qed.

Lemma raises_train_cols (cols : list string) :
  raises_only is_library_error (train_cols cols).
Proof.
  intros st e st'. unfold train_cols, lift. intros [= Hl _].
  apply loc_cols_raise in Hl as (c & -> & _). left. by exists c.
Qed.

Lemma raises_sklearn {A} (o : option A) :
  raises_only is_library_error (lift (sklearn o)).
Proof.
  intros st e st'. unfold lift. destruct o; simpl; [done|].
  intros [= <- _]. by right.
Qed.

Lemma raises_new_fitted (P : exn → Prop) (key : option mkey) (e : exclude_arg)
    (X : table) (y : vec) :
  raises_only P (new_fitted key e X y).
Proof. by intros st e' st'. Qed.

Lemma raises_new_series (P : exn → Prop) (d : list (string * num)) :
  raises_only P (new_series d).
Proof. by intros st e' st'. Qed.

Lemma raises_get_model (comb : list (list string)) (order : Z) (C : list string) :
  raises_only is_library_error (get_model comb order C).
Proof. intros st e st' Hg. left. by apply get_model_raise in Hg. Qed.
End raising.

Ltac raises_tac :=
  repeat first
    [ progress (cbv zeta)
    | apply raises_ret
    | apply raises_gets
    | apply raises_modify
    | apply raises_test_cols
    | apply raises_train_cols
    | apply raises_new_fitted
    | apply raises_new_series
    | apply raises_get_model
    | apply raises_sklearn
    | (apply raises_bind; [|intros ?])
    | case_bool_decide
    | lazymatch goal with
      | |- raises_only _ (if ?b then _ else _) => destruct b
      end ].

Section query_outcomes.
Context `{Lrn : Learner}.

Lemma swap_groups_index (d : list (string * num)) :
  (swap_groups d).*1 = d.*1.
Proof. by destruct d as [|[l1 v1] [|[l2 v2] rest]]. Qed.

(** After the validator, [compute] raises nothing but the [KeyError] of a
    missing column and the [ValueError] of a scikit-learn call. *)
Lemma raises_compute_parts (comb : list group_arg) (order : Z) (C : list string)
    (st st' : engine) (e : exn) (comb_ : list (list string)) :
  (assert_comb_valid comb [] st).1 = Ok comb_ →
  compute_parts comb order C st = (Raise e, st') → is_library_error e.
Proof.
  intros Hv. unfold compute_parts. unfold bind at 1.
  pose proof (assert_comb_valid_state comb [] st) as Hst.
  destruct (assert_comb_valid comb [] st) as [r st0]. simpl in Hv, Hst.
  subst r st0. cbv beta zeta. intros Hc.
  eapply raises_only_at; [|exact Hc]. raises_tac.
Qed.

Lemma get_ok_index (comb : list group_arg) (C : list string) (st st' : engine)
    (s : Series) :
  decomps_inv st → get comb C st = (Ok s, st') → index s = RETURN_NAMES.
Proof.
  intros Hinv Hg.
  destruct (get_ok_cached _ _ _ _ _ Hg) as (comb_ & Hv & _).
  destruct (decomps st !! (sort_comb comb_ false, sorted_str C))
    as [s0|] eqn:Ek.
  - destruct (Hinv _ _ Ek) as [Hidx _].
    destruct (get_hit_spec _ _ _ _ _ Hinv Hv Ek)
      as (r & st1 & Hg' & _ & _ & _ & Hsame & Hswap).
    rewrite Hg in Hg'. injection Hg' as <- <-.
    destruct (decide (sort_comb comb_ true = sort_comb comb_ false)) as [Hc|Hc].
    + by rewrite (Hsame Hc).
    + destruct (Hswap Hc) as [Hd _]. unfold index in *.
      by rewrite Hd, swap_groups_index.
  - by destruct (get_miss_spec _ _ _ _ _ _ Hv Ek Hg) as (_ & _ & _ & ?).
Qed.

Lemma get_proceeds_aux (comb : list group_arg) (C : list string) (st : engine)
    (comb_ : list (list string)) :
  has_columns st → decomps_inv st →
  (assert_comb_valid comb [] st).1 = Ok comb_ →
  Forall (λ c, c ∈ fs st) C →
  (∃ s st' s0,
     get comb C st = (Ok s, st')
     ∧ index s = RETURN_NAMES
     ∧ later st st' ∧ has_columns st' ∧ decomps_inv st'
     ∧ decomps st' !! (sort_comb comb_ false, sorted_str C) = Some s0
     ∧ (sdata s = sdata s0 ∨ sdata s = swap_groups (sdata s0)))
  ∨ (∃ st',
       get comb C st = (Raise ValueError, st')
       ∧ later st st' ∧ has_columns st' ∧ decomps_inv st'
       ∧ decomps st' = decomps st
       ∧ decomps st !! (sort_comb comb_ false, sorted_str C) = None).
Proof.
  intros Hcols Hinv Hv HC.
  assert (∀ st', later st st' → has_columns st') as Hkeep.
  { intros st' ((_ & _ & Hfs & _ & Htr & Hte & _) & _).
    unfold has_columns. by rewrite Hfs, Htr, Hte. }
  pose proof (steps_get comb C st) as Hl.
  pose proof (get_decomps_inv comb C st Hinv) as Hinv'.
  destruct (decomps st !! (sort_comb comb_ false, sorted_str C))
    as [s0|] eqn:Ek.
  - left. destruct (get_hit_spec _ _ _ _ _ Hinv Hv Ek)
      as (r & st1 & Hg & [_ Hq] & _ & _ & Hsame & Hswap).
    rewrite Hg in Hl, Hinv'. simpl in Hl, Hinv'.
    exists r, st1, s0. split_and!; auto.
    + apply (get_ok_index _ _ _ _ _ Hinv Hg).
    + by rewrite Hq.
    + destruct (decide (sort_comb comb_ true = sort_comb comb_ false))
        as [Hc|Hc].
      * left. by rewrite (Hsame Hc).
      * right. by destruct (Hswap Hc).
  - pose proof (assert_comb_valid_canonical _ _ _ _ Hv) as Hv'.
    pose proof (get_miss _ C _ _ Hv Ek) as Hm.
    destruct (compute_proceeds _ 2 C st _ Hcols Hv' HC)
      as [(st_c & Hc & [_ Hd])|(p & st_p & s & st_c & _ & Hc & _ & Hi & _)];
      rewrite Hc in Hm; rewrite Hm in Hl, Hinv'; simpl in Hl, Hinv'.
    + right. exists st_c. split_and!; auto.
    + left. eexists s, _, s. split_and!; [exact Hm|done|done|auto|done| |by left].
      simpl. by rewrite lookup_insert_eq.
Qed.

(** X12: for a valid query whose conditioning features are columns, when
    both partitions have the feature columns, [get] returns or a
    scikit-learn call raises its [ValueError]. What it returns is a Series
    with the six labels, whose values are those stored under the canonical
    key, as they are or with the two group values exchanged. It raises
    only on a miss, and has then stored no decomposition. *)
Theorem get_proceeds (comb : list group_arg) (C : list string) (st : engine)
    (comb_ : list (list string)) :
  has_columns st → decomps_inv st →
  (assert_comb_valid comb [] st).1 = Ok comb_ →
  Forall (λ c, c ∈ fs st) C →
  (∃ s st' s0,
     get comb C st = (Ok s, st')
     ∧ index s = RETURN_NAMES
     ∧ later st st' ∧ has_columns st' ∧ decomps_inv st'
     ∧ decomps st' !! (sort_comb comb_ false, sorted_str C) = Some s0
     ∧ (sdata s = sdata s0 ∨ sdata s = swap_groups (sdata s0)))
  ∨ (∃ st',
       get comb C st = (Raise ValueError, st')
       ∧ later st st' ∧ has_columns st' ∧ decomps_inv st'
       ∧ decomps st' = decomps st
       ∧ decomps st !! (sort_comb comb_ false, sorted_str C) = None).
Proof. apply get_proceeds_aux. Qed.

(** X13: A [get] that raises has stored no decomposition. What it raises is
    the validator's assertion, with the engine as it was, or the error of
    a library: the [KeyError] of a missing column, or the [ValueError] of
    a scikit-learn call. *)
Theorem get_failure (comb : list group_arg) (C : list string) (st st' : engine)
    (e : exn) :
  get comb C st = (Raise e, st') →
  decomps st' = decomps st
  ∧ later st st'
  ∧ (((assert_comb_valid comb [] st).1 = Raise e ∧ st' = st)
     ∨ is_library_error e).
Proof.
  intros Hg.
  destruct (assert_comb_valid comb [] st) as [[comb_|e0] st0] eqn:Ev.
  - assert ((assert_comb_valid comb [] st).1 = Ok comb_) as Hv
      by (by rewrite Ev).
    destruct (decomps st !! (sort_comb comb_ false, sorted_str C))
      as [s0|] eqn:Ek.
    + rewrite (get_hit _ _ _ _ _ Hv Ek) in Hg.
      pose proof (steps_adjust_order comb_ s0 st) as [Hl Hd].
      rewrite Hg in Hl, Hd. simpl in Hl, Hd. split_and!; try done.
      right. revert Hg. unfold adjust_order. case_bool_decide; [done|].
      unfold bind, new_series, fresh, ret, lift. simpl.
      destruct (loc_data _ _) as [d|e1] eqn:El; [done|].
      intros [= <- _]. clear -El.
      unfold loc_data in El.
      revert El. generalize (index s0). intros labels.
      induction labels as [|l labels IH]; [done|]. simpl.
      unfold series_at at 1.
      destruct (list_find _ _) as [[i [l' v]]|]; simpl.
      * destruct (res_mapM _ labels); [done|]. simpl. intros [= <-].
        by apply IH.
      * intros [= <-]. left. by exists l.
    + rewrite (get_miss _ _ _ _ Hv Ek) in Hg.
      pose proof (steps_compute (map GTuple (sort_comb comb_ false)) 2 C st)
        as [Hl Hd].
      destruct (compute _ 2 C st) as [[s|e1] st_c] eqn:Ec; [done|].
      injection Hg as <- <-. simpl in Hl, Hd. split_and!; try done.
      right. revert Ec. unfold compute, bind.
      destruct (compute_parts _ 2 C st) as [[p|e2] st_p] eqn:Ep; [done|].
      intros [= <- _].
      eapply raises_compute_parts; [|exact Ep].
      by eapply assert_comb_valid_canonical.
  - pose proof (assert_comb_valid_state comb [] st) as Hst.
    rewrite Ev in Hst. simpl in Hst. subst st0.
    revert Hg. unfold get, bind. rewrite Ev. intros [= <- <-].
    split_and!; [done|reflexivity|by left].
Qed.

(** X14: A conditioning feature that is no column of the data is not reported
    by an assertion: the first query with it raises [KeyError] and leaves
    the engine as it was. *)
Theorem get_unknown_conditioning_feature (comb : list group_arg)
    (C : list string) (st : engine) (comb_ : list (list string)) (c : string) :
  (assert_comb_valid comb [] st).1 = Ok comb_ →
  decomps st !! (sort_comb comb_ false, sorted_str C) = None →
  c ∈ C → c ∉ (X_train st).*1 → c ∉ (X_test st).*1 →
  ∃ c', get comb C st = (Raise (KeyError c'), st) ∧ c' ∈ C.
Proof.
  intros Hv Ek Hc Htr Hte.
  rewrite (get_miss _ _ _ _ Hv Ek).
  pose proof (assert_comb_valid_canonical _ _ _ _ Hv) as Hv'.
  pose proof (assert_comb_valid_state
    (map GTuple (sort_comb comb_ false)) [] st) as Hst.
  unfold compute, compute_parts. unfold bind at 1 2.
  destruct (assert_comb_valid (map GTuple (sort_comb comb_ false)) [] st)
    as [r st0]. simpl in Hv', Hst. subst r st0.
  assert (0 < length C) as Hlen.
  { destruct C; [by apply elem_of_nil in Hc|simpl; lia]. }
  rewrite bool_decide_eq_true_2 by done.
  unfold bind at 1 2 3. rewrite get_model_unfold. unfold get_model_explicit.
  assert (sorted_str [] = []) as -> by done.
  assert (sort_comb [C] false = [sorted_str C]) as -> by done. simpl.
  destruct (models st !! (2%Z, [sorted_str C], [])) as [b|] eqn:Eb.
  - unfold test_cols, lift.
    destruct (loc_cols_missing (X_test st) C c Hc Hte) as (c' & -> & ? & _).
    by exists c'.
  - unfold fit_step. rewrite !(app_nil_r C).
    destruct (loc_cols_missing (X_train st) C c Hc Htr) as (c' & -> & ? & _).
    by exists c'.
Qed.

(** X15: [get_all_pairwise] asks for each pair in both orders. Once [get] has
    answered a pair, the reversed pair is a hit: it fits nothing and stores
    nothing. After a miss it returns the very Series object of the first
    answer when the reversed order is the canonical one, and otherwise a
    copy with the two group values exchanged. *)
Theorem get_reversed_is_hit (a b : group_arg) (C : list string)
    (st st1 : engine) (s : Series) :
  decomps_inv st →
  get [a; b] C st = (Ok s, st1) →
  ∃ s' st2 la lb,
    (assert_comb_valid [a; b] [] st).1 = Ok [la; lb]
    ∧ get [b; a] C st1 = (Ok s', st2)
    ∧ models st2 = models st1 ∧ fit_log st2 = fit_log st1
    ∧ decomps st2 = decomps st1
    ∧ index s' = RETURN_NAMES
    ∧ (decomps st !! (sort_comb [la; lb] false, sorted_str C) = None →
       if bool_decide (sort_comb [lb; la] true = sort_comb [lb; la] false)
       then s' = s
       else sdata s' = swap_groups (sdata s) ∧ sid s' ≠ sid s).
Proof.
  intros Hinv Hg.
  destruct (get_ok_cached _ _ _ _ _ Hg) as (comb_ & Hv & [s0 Hk]).
  pose proof Hv as (a' & b' & la & lb & [= <- <-] & -> & _)
    %assert_comb_valid_ok.
  pose proof (get_decomps_inv [a; b] C st Hinv) as Hinv1.
  pose proof (steps_get [a; b] C st) as ((_ & _ & Hfs & _) & _).
  rewrite Hg in Hinv1, Hfs. simpl in Hinv1, Hfs.
  pose proof (assert_comb_valid_swap _ _ _ _ _ _ Hv) as Hv'.
  rewrite <-(assert_comb_valid_fs [b; a] [] st st1 Hfs) in Hv'.
  rewrite (sort_comb_swap la lb) in Hk.
  destruct (get_hit_spec _ _ _ _ _ Hinv1 Hv' Hk)
    as (r & st2 & Hg2 & [_ Hd] & Hm & Hl & Hsame & Hswap).
  exists r, st2, la, lb. split_and!; try done.
  - apply (get_ok_index _ _ _ _ _ Hinv1 Hg2).
  - intros Hmiss.
    destruct (get_miss_spec _ _ _ _ _ _ Hv Hmiss Hg) as (st_c & _ & Hins & _).
    rewrite Hins, (sort_comb_swap la lb), lookup_insert_eq in Hk.
    injection Hk as <-. clear Hins.
    case_bool_decide as Hc; [by apply Hsame|by apply Hswap].
Qed.
End query_outcomes.

(** ** The constructor and the resplit *)

Section construction.
Context `{Lrn : Learner}.

Lemma loc_cols_labels (X T : table) (cols : list string) :
  loc_cols X cols = Ok T → T.*1 = cols.
Proof.
  unfold loc_cols. revert T. induction cols as [|c cols IH]; intros T; simpl.
  - by intros [= <-].
  - destruct (column X c) as [v|]; [|done]. simpl.
    destruct (res_mapM _ cols) as [T'|] eqn:ET; [|done]. simpl.
    intros [= <-]. rewrite fmap_cons. simpl. f_equal. by apply IH.
Qed.

Lemma column_raise (X : table) (c : string) :
  c ∉ X.*1 → column X c = Raise (KeyError c).
Proof.
  intros Hno. unfold column.
  destruct (list_find _ X) as [[i [l v]]|] eqn:Ef; [|done].
  apply list_find_Some in Ef as (Hi & Hl & _). simpl in Hl. subst l.
  exfalso. apply Hno. apply list_elem_of_fmap. exists (c, v). split; [done|].
  by eapply list_elem_of_lookup_2.
Qed.

Lemma features_are_columns (df0 : table) (target0 : string) :
  Forall (λ c, c ∈ df0.*1) (filter (λ col, col ≠ target0) (df0.*1)).
Proof. apply Forall_forall. by intros c [_ ?]%list_elem_of_filter. Qed.

Lemma split_has_columns (X : table) (y : vec) (ts : num) (r : rng)
    (cols : list string) (Xtr Xte : table) (ytr yte : vec) (r' : rng) :
  split_keeps_columns →
  X.*1 = cols →
  train_test_split X y ts r = Some ((Xtr, Xte, ytr, yte), r') →
  Forall (λ c, c ∈ Xtr.*1) cols ∧ Forall (λ c, c ∈ Xte.*1) cols.
Proof.
  intros Hs HX Et. destruct (Hs X y ts r _ Et) as [H1 H2].
  simpl in H1, H2. rewrite H1, H2, HX.
  split; by apply Forall_forall.
Qed.

Lemma init_facts (df0 : table) (target0 : string) (ts : num) (v : bool)
    (r0 : rng) :
  (target0 ∉ df0.*1 → init df0 target0 ts v r0 = Raise (KeyError target0))
  ∧ (target0 ∈ df0.*1 →
     ∃ X y,
       loc_cols df0 (filter (λ col, col ≠ target0) (df0.*1)) = Ok X
       ∧ column df0 target0 = Ok y
       ∧ (train_test_split X y ts r0 = None →
          init df0 target0 ts v r0 = Raise ValueError)
       ∧ (∀ sp, train_test_split X y ts r0 = Some sp →
            ∃ st, init df0 target0 ts v r0 = Ok st
                  ∧ (X_train st, X_test st, y_train st, y_test st,
                     rng_state st) = sp))
  ∧ (∀ st, init df0 target0 ts v r0 = Ok st →
       df st = df0 ∧ target st = target0
       ∧ fs st = filter (λ col, col ≠ target0) (df0.*1)
       ∧ (target0 ∉ fs st) ∧ data_ok st
       ∧ test_size st = ts ∧ verbose st = v
       ∧ decomps st = ∅ ∧ models st = ∅ ∧ fit_log st = []
       ∧ (split_keeps_columns → has_columns st)).
Proof.
  unfold init.
  destruct (loc_cols_ok df0 (filter (λ col, col ≠ target0) (df0.*1))
    (features_are_columns df0 target0)) as [X EX].
  rewrite EX. simpl. split_and!.
  - intros Hno. by rewrite (column_raise _ _ Hno).
  - intros Hin. destruct (column_ok df0 target0 Hin) as [y Ey].
    rewrite Ey. simpl. exists X, y. split_and!; try done.
    + by intros ->.
    + intros [[[[Xtr Xte] ytr] yte] r'] ->. simpl. by eexists.
  - intros st. destruct (column df0 target0) as [y|] eqn:Ey; simpl; [|done].
    destruct (train_test_split X y ts r0)
      as [[[[[Xtr Xte] ytr] yte] r']|] eqn:Et; simpl; [|done].
    intros [= <-]. simpl.
    assert (target0 ∈ df0.*1) as Hin.
    { destruct (decide (target0 ∈ df0.*1)) as [|Hno]; [done|].
      by rewrite (column_raise _ _ Hno) in Ey. }
    split_and!; try done.
    + by intros [? _]%list_elem_of_filter.
    + split; [done|apply features_are_columns].
    + intros Hs. unfold has_columns. simpl.
      apply (split_has_columns X y ts r0 _ Xtr Xte ytr yte r' Hs); [|done].
      by apply loc_cols_labels in EX.
Qed.

(** X16: The constructor raises the [KeyError] of the target when the data
    has no such column. With the target among the columns it raises only
    the [ValueError] of [train_test_split], and otherwise returns an engine
    with the partitions of that split. The engine it returns has the other
    columns as features, in their order, the given test size, and both
    caches empty; its partitions have every feature column when the split
    keeps the columns. *)
Theorem init_result (df0 : table) (target0 : string) (ts : num) (v : bool)
    (r0 : rng) :
  (target0 ∉ df0.*1 → init df0 target0 ts v r0 = Raise (KeyError target0))
  ∧ (target0 ∈ df0.*1 →
     ∃ X y,
       loc_cols df0 (filter (λ col, col ≠ target0) (df0.*1)) = Ok X
       ∧ column df0 target0 = Ok y
       ∧ (train_test_split X y ts r0 = None →
          init df0 target0 ts v r0 = Raise ValueError)
       ∧ (∀ sp, train_test_split X y ts r0 = Some sp →
            ∃ st, init df0 target0 ts v r0 = Ok st
                  ∧ (X_train st, X_test st, y_train st, y_test st,
                     rng_state st) = sp))
  ∧ (∀ st, init df0 target0 ts v r0 = Ok st →
       df st = df0 ∧ target st = target0
       ∧ fs st = filter (λ col, col ≠ target0) (df0.*1)
       ∧ (target0 ∉ fs st) ∧ data_ok st
       ∧ test_size st = ts ∧ verbose st = v
       ∧ decomps st = ∅ ∧ models st = ∅ ∧ fit_log st = []
       ∧ (split_keeps_columns → has_columns st)).
Proof. apply init_facts. Qed.

Lemma new_split_facts (ts : option num) (st : engine) :
  data_ok st →
  ∃ X y r st',
    new_split ts st = (r, st')
    ∧ loc_cols (df st) (fs st) = Ok X
    ∧ column (df st) (target st) = Ok y
    ∧ test_size st' = default (test_size st) ts
    ∧ df st' = df st ∧ fs st' = fs st ∧ target st' = target st
    ∧ models st' = models st
    ∧ next_id st' = next_id st ∧ fit_log st' = fit_log st
    ∧ data_ok st'
    ∧ (train_test_split X y (default (test_size st) ts) (rng_state st) = None →
       r = Raise ValueError
       ∧ decomps st' = decomps st
       ∧ X_train st' = X_train st ∧ X_test st' = X_test st
       ∧ y_train st' = y_train st ∧ y_test st' = y_test st
       ∧ rng_state st' = rng_state st)
    ∧ (∀ sp,
         train_test_split X y (default (test_size st) ts) (rng_state st)
         = Some sp →
         r = Ok tt
         ∧ (X_train st', X_test st', y_train st', y_test st', rng_state st')
           = sp
         ∧ decomps st' = ∅
         ∧ (split_keeps_columns → has_columns st')).
Proof.
  intros [Ht Hf].
  destruct (loc_cols_ok _ _ Hf) as [X EX].
  destruct (column_ok _ _ Ht) as [y Ey].
  exists X, y.
  destruct (train_test_split X y (default (test_size st) ts) (rng_state st))
    as [[[[[Xtr Xte] ytr] yte] r']|] eqn:Et.
  - assert (∃ st', new_split ts st = (Ok tt, st')
      ∧ test_size st' = default (test_size st) ts
      ∧ X_train st' = Xtr ∧ X_test st' = Xte ∧ y_train st' = ytr
      ∧ y_test st' = yte ∧ rng_state st' = r'
      ∧ decomps st' = ∅
      ∧ df st' = df st ∧ fs st' = fs st ∧ target st' = target st
      ∧ models st' = models st
      ∧ next_id st' = next_id st ∧ fit_log st' = fit_log st)
      as (st' & Hn & Hts & HXtr & HXte & Hytr & Hyte & Hr & Hd & Hdf & Hfs
          & Htg & Hm & Hid & Hlog).
    { unfold new_split. destruct ts as [ts|]; simpl in *;
        unfold bind, gets, modify, ret, lift; simpl;
        rewrite EX, Ey; simpl; rewrite Et; simpl;
        (eexists; split; [reflexivity|]); simpl; done. }
    exists (Ok tt), st'. split_and!; try done.
    { unfold data_ok. by rewrite Hdf, Hfs, Htg. }
    intros sp [= <-]. rewrite HXtr, HXte, Hytr, Hyte, Hr, Hd.
    split_and!; try done.
    intros Hs. unfold has_columns. rewrite HXtr, HXte, Hfs.
    apply (split_has_columns X y (default (test_size st) ts) (rng_state st)
      (fs st) Xtr Xte ytr yte r' Hs); [|done].
    by apply loc_cols_labels in EX.
  - assert (∃ st', new_split ts st = (Raise ValueError, st')
      ∧ test_size st' = default (test_size st) ts
      ∧ X_train st' = X_train st ∧ X_test st' = X_test st
      ∧ y_train st' = y_train st ∧ y_test st' = y_test st
      ∧ rng_state st' = rng_state st
      ∧ decomps st' = decomps st
      ∧ df st' = df st ∧ fs st' = fs st ∧ target st' = target st
      ∧ models st' = models st
      ∧ next_id st' = next_id st ∧ fit_log st' = fit_log st)
      as (st' & Hn & Hts & HXtr & HXte & Hytr & Hyte & Hr & Hd & Hdf & Hfs
          & Htg & Hm & Hid & Hlog).
    { unfold new_split. destruct ts as [ts|]; simpl in *;
        unfold bind, gets, modify, ret, lift; simpl;
        rewrite EX, Ey; simpl; rewrite Et; simpl;
        (eexists; split; [reflexivity|]); simpl; done. }
    exists (Raise ValueError), st'. split_and!; try done.
    unfold data_ok. by rewrite Hdf, Hfs, Htg.
Qed.

(** X17: [new_split] on an engine whose data has the target and the
    features records a given test size before anything else (and keeps the
    stored one when none is given), and the data, the features, the target
    and the model cache stay as they are. If [train_test_split] then
    raises, so does [new_split], with the decomposition cache, the
    partitions and the random state as they were. If it returns,
    [new_split] returns with the partitions and the random state of that
    split and an empty decomposition cache. *)
Theorem new_split_outcomes (ts : option num) (st : engine) :
  data_ok st →
  ∃ X y r st',
    new_split ts st = (r, st')
    ∧ loc_cols (df st) (fs st) = Ok X
    ∧ column (df st) (target st) = Ok y
    ∧ test_size st' = default (test_size st) ts
    ∧ df st' = df st ∧ fs st' = fs st ∧ target st' = target st
    ∧ models st' = models st
    ∧ next_id st' = next_id st ∧ fit_log st' = fit_log st
    ∧ data_ok st'
    ∧ (train_test_split X y (default (test_size st) ts) (rng_state st) = None →
       r = Raise ValueError
       ∧ decomps st' = decomps st
       ∧ X_train st' = X_train st ∧ X_test st' = X_test st
       ∧ y_train st' = y_train st ∧ y_test st' = y_test st
       ∧ rng_state st' = rng_state st)
    ∧ (∀ sp,
         train_test_split X y (default (test_size st) ts) (rng_state st)
         = Some sp →
         r = Ok tt
         ∧ (X_train st', X_test st', y_train st', y_test st', rng_state st')
           = sp
         ∧ decomps st' = ∅
         ∧ (split_keeps_columns → has_columns st')).
Proof. apply new_split_facts. Qed.

Lemma init_facts_empty (df0 : table) (target0 : string) (ts : num) (v : bool)
    (r0 : rng) (st0 : engine) :
  init df0 target0 ts v r0 = Ok st0 → decomps st0 = ∅.
Proof. intros Hi. by apply init_facts in Hi as (_ & _ & _ & _ & _ & _ & _ & ? & _). Qed.

Lemma later_data_ok (st st' : engine) :
  later st st' → data_ok st → data_ok st'.
Proof.
  intros ((Hdf & Htg & Hfs & _) & _) [Ht Hf]. unfold data_ok.
  by rewrite Hdf, Htg, Hfs.
Qed.

Lemma later_has_columns (st st' : engine) :
  later st st' → has_columns st → has_columns st'.
Proof.
  intros ((_ & _ & Hfs & _ & Htr & Hte & _) & _) Hc. unfold has_columns.
  by rewrite Hfs, Htr, Hte.
Qed.

Lemma run_call_later (c : call) (st : engine) :
  is_resplit c = false → later st (run_call c st).
Proof.
  destruct c as [comb C|comb order C|comb order C|ts]; simpl; [..|done];
    intros _.
  - apply steps_get.
  - apply steps_compute.
  - apply get_model_later.
Qed.

Lemma run_call_ready (c : call) (st : engine) :
  split_keeps_columns →
  data_ok st ∧ has_columns st →
  (data_ok (run_call c st) ∧ has_columns (run_call c st))
  ∧ df (run_call c st) = df st ∧ fs (run_call c st) = fs st
  ∧ target (run_call c st) = target st.
Proof.
  intros Hs [Hd Hc].
  destruct (is_resplit c) eqn:Er.
  - destruct c as [| | |ts]; try done. simpl.
    destruct (new_split_facts ts st Hd)
      as (X & y & r & st' & -> & _ & _ & _ & Hdf & Hfs & Htg & _ & _ & _
          & Hd' & Hnone & Hsome).
    simpl. split_and!; auto.
    destruct (train_test_split X y (default (test_size st) ts) (rng_state st))
      as [sp|] eqn:Et.
    + by destruct (Hsome sp eq_refl) as (_ & _ & _ & Hc'); auto.
    + destruct (Hnone eq_refl) as (_ & _ & HXtr & HXte & _).
      unfold has_columns. by rewrite HXtr, HXte, Hfs.
  - pose proof (run_call_later c st Er) as Hl.
    split; [split; [by eapply later_data_ok|by eapply later_has_columns]|].
    by destruct Hl as ((? & ? & ? & _) & _).
Qed.

(** X18: From the constructor on, whatever is called and however often the
    data is split again, with a split that returns or one that raises: the
    engine keeps its data, its features and its target, and both partitions
    have every feature column, given a split that keeps the columns. So
    [new_split] raises nothing but the [ValueError] of [train_test_split],
    and [get], for a valid query whose conditioning features are columns,
    returns a Series with the six labels or raises the [ValueError] of a
    scikit-learn call. *)
Theorem engine_stays_ready (df0 : table) (target0 : string) (ts : num)
    (v : bool) (r0 : rng) (st0 : engine) (cs : list call) :
  split_keeps_columns →
  init df0 target0 ts v r0 = Ok st0 →
  let st := run cs st0 in
  df st = df0 ∧ target st = target0
  ∧ fs st = filter (λ col, col ≠ target0) (df0.*1)
  ∧ has_columns st
  ∧ (∀ ts', (new_split ts' st).1 = Ok tt
            ∨ (new_split ts' st).1 = Raise ValueError)
  ∧ (∀ comb C comb_,
       (assert_comb_valid comb [] st).1 = Ok comb_ →
       Forall (λ c, c ∈ fs st) C →
       (∃ s st', get comb C st = (Ok s, st') ∧ index s = RETURN_NAMES)
       ∨ (∃ st', get comb C st = (Raise ValueError, st'))).
Proof.
  intros Hs Hinit st.
  destruct (proj2 (proj2 (init_facts df0 target0 ts v r0)) st0 Hinit)
    as (Hdf & Htg & Hfs & _ & Hd & _ & _ & _ & _ & _ & Hc).
  assert ((data_ok st ∧ has_columns st)
          ∧ df st = df st0 ∧ fs st = fs st0 ∧ target st = target st0)
    as ((Hd' & Hc') & Hdf' & Hfs' & Htg').
  { subst st. clear Hinit Hdf Htg Hfs.
    induction cs as [|c cs IH] using rev_ind; [by auto|].
    unfold run in *. rewrite foldl_app. simpl.
    destruct IH as (Hdc & Hdf' & Hfs' & Htg').
    destruct (run_call_ready c _ Hs Hdc) as (? & -> & -> & ->). done. }
  pose proof (init_invariants _ _ _ _ _ _ Hinit) as Hinv0.
  destruct (run_invariants cs st0 Hinv0) as [_ Hinv]. fold st in Hinv.
  rewrite Hdf', Htg', Hfs', Hdf, Htg, Hfs. split_and!; try done.
  - intros ts'.
    destruct (new_split_facts ts' st Hd')
      as (X & y & r & st' & -> & _ & _ & _ & _ & _ & _ & _ & _ & _ & _
          & Hnone & Hsome).
    simpl.
    destruct (train_test_split X y (default (test_size st) ts') (rng_state st))
      as [sp|].
    + left. by destruct (Hsome sp eq_refl).
    + right. by destruct (Hnone eq_refl).
  - intros comb C comb_ Hv HC.
    destruct (get_proceeds_aux comb C st comb_ Hc' Hinv Hv)
      as [(s & st' & s0 & Hg & Hi & _)|(st' & Hg & _)];
      [by rewrite Hfs', Hfs|left; eauto|right; eauto].
Qed.
End construction.

(** ** The aggregating queries *)

Section aggregation_facts.
Context `{Lrn : Learner}.

(** [get] adds to the decomposition cache and never overwrites it. *)
Lemma get_decomps_subseteq (comb : list group_arg) (C : list string)
    (st : engine) :
  decomps st ⊆ decomps (get comb C st).2.
Proof.
  destruct (assert_comb_valid comb [] st) as [[comb_|e0] st0] eqn:Ev.
  - assert ((assert_comb_valid comb [] st).1 = Ok comb_) as Hv
      by (by rewrite Ev).
    destruct (decomps st !! (sort_comb comb_ false, sorted_str C))
      as [s0|] eqn:Ek.
    + rewrite (get_hit _ _ _ _ _ Hv Ek).
      pose proof (steps_adjust_order comb_ s0 st) as [_ Hd]. by rewrite Hd.
    + rewrite (get_miss _ _ _ _ Hv Ek).
      pose proof (steps_compute (map GTuple (sort_comb comb_ false)) 2 C st)
        as [_ Hd].
      destruct (compute _ 2 C st) as [[s|e1] st_c]; simpl in *.
      * rewrite Hd. by apply insert_subseteq.
      * by rewrite Hd.
  - pose proof (assert_comb_valid_state comb [] st) as Hst.
    rewrite Ev in Hst. simpl in Hst. subst st0.
    unfold get, bind. by rewrite Ev.
Qed.

(** A later state that has every decomposition the earlier one had. *)
#[global] Instance grows_preorder : PreOrder grows.
Proof.
  split.
  - intros st. split; reflexivity.
  - intros st1 st2 st3 [Hl1 Hd1] [Hl2 Hd2]. split; by etrans.
Qed.

Lemma steps_grows_get (comb : list group_arg) (C : list string) :
  steps grows (get comb C).
Proof. intros st. split; [apply steps_get|apply get_decomps_subseteq]. Qed.

Lemma align_index (s : Series) :
  index s = RETURN_NAMES → align s RETURN_NAMES = (sdata s).*2.
Proof.
  unfold index, align. destruct s as [i d]. simpl. intros Hd.
  destruct d as [|[l1 v1] [|[l2 v2] [|[l3 v3] [|[l4 v4] [|[l5 v5]
    [|[l6 v6] [|]]]]]]]; try done.
  by injection Hd as -> -> -> -> -> ->.
Qed.

Lemma set_row_shape (fr : frame) (l : string) (s : Series) :
  l ∈ f_index fr → length (f_rows fr) = length (f_index fr) →
  f_index (set_row fr l s) = f_index fr
  ∧ f_columns (set_row fr l s) = f_columns fr
  ∧ length (f_rows (set_row fr l s)) = length (f_index fr).
Proof.
  intros Hl Hlen. unfold set_row. rewrite bool_decide_eq_true_2 by done.
  simpl. split_and!; try done. rewrite length_zip_with. lia.
Qed.

Lemma set_row_rows (ans : string → Series → Prop) (fr : frame) (l : string)
    (s : Series) (L : list string) :
  l ∈ f_index fr → length (f_rows fr) = length (f_index fr) →
  f_columns fr = RETURN_NAMES → index s = RETURN_NAMES → ans l s →
  rows_from ans L fr → rows_from ans (l :: L) (set_row fr l s).
Proof.
  intros Hl Hlen Hc Hs Ha HL i l' Hi Hin.
  unfold set_row in *. rewrite bool_decide_eq_true_2 in * by done.
  simpl in *.
  assert (is_Some (f_rows fr !! i)) as [r Hr].
  { apply lookup_lt_is_Some. rewrite Hlen. by eapply lookup_lt_Some. }
  rewrite lookup_zip_with, Hi, Hr. simpl.
  case_bool_decide as Heq.
  - subst l'. exists s. split_and!; try done.
    by rewrite Hc, align_index.
  - apply elem_of_cons in Hin as [?|Hin]; [done|].
    destruct (HL i l' Hi Hin) as (s' & Hr' & ? & ?).
    exists s'. split_and!; try done. by rewrite <-Hr'.
Qed.

Lemma rows_from_nil (ans : string → Series → Prop) (fr : frame) :
  rows_from ans [] fr.
Proof. intros i l _ Hl. by apply elem_of_nil in Hl. Qed.

Lemma rows_from_mono (ans : string → Series → Prop) (L L' : list string)
    (fr : frame) :
  (∀ l, l ∈ L' → l ∈ L) → rows_from ans L fr → rows_from ans L' fr.
Proof. intros Hsub HL i l Hi Hl. apply (HL i l Hi). auto. Qed.

(** The loop returns when every query does, with each row it wrote
    holding the values its query returned; it raises when a query does,
    which only a query that may raise does. [R] relates the engines before
    and after, [P] is kept. *)
Lemma fill_rows_proceeds (R : engine → engine → Prop) `{!PreOrder R}
    (may_raise : Prop) (P : engine → Prop) (ans : string → Series → Prop)
    (query : string → M Series) (labels done_ : list string)
    (fr : frame) (st : engine) :
  (∀ l st, l ∈ labels → P st →
     (∃ s st', query l st = (Ok s, st') ∧ index s = RETURN_NAMES
               ∧ P st' ∧ R st st' ∧ ans l s)
     ∨ (may_raise ∧ ∃ st', query l st = (Raise ValueError, st') ∧ R st st')) →
  P st →
  (∀ l, l ∈ labels → l ∈ f_index fr) →
  length (f_rows fr) = length (f_index fr) →
  f_columns fr = RETURN_NAMES →
  rows_from ans done_ fr →
  (∃ fr' st',
     fill_rows query labels fr st = (Ok fr', st')
     ∧ P st' ∧ R st st'
     ∧ f_index fr' = f_index fr ∧ f_columns fr' = RETURN_NAMES
     ∧ length (f_rows fr') = length (f_index fr)
     ∧ rows_from ans (labels ++ done_) fr')
  ∨ (may_raise
     ∧ ∃ st', fill_rows query labels fr st = (Raise ValueError, st')
              ∧ R st st').
Proof.
  revert done_ fr st.
  induction labels as [|l labels IH]; intros done_ fr st Hq HP Hin Hlen Hc Hf.
  - left. simpl. exists fr, st. split_and!; try done.
  - simpl. unfold bind.
    destruct (Hq l st) as [(s & st1 & -> & Hs & HP1 & HR1 & Ha)
                          |(Hmay & st1 & -> & HR1)];
      [apply elem_of_cons; by left|done| |right; split; [done|by exists st1]].
    assert (l ∈ f_index fr) as Hl by (apply Hin, elem_of_cons; by left).
    destruct (set_row_shape fr l s Hl Hlen) as (Hi' & Hc' & Hlen').
    destruct (IH (l :: done_) (set_row fr l s) st1)
      as [(fr' & st' & Hfill & HP' & HR' & Hidx & Hcol & Hlen'' & Hfl)
         |(Hmay & st' & Hfill & HR')].
    + intros l' st0 Hl'. apply Hq. apply elem_of_cons; by right.
    + done.
    + intros l' Hl'. rewrite Hi'. apply Hin, elem_of_cons; by right.
    + by rewrite Hi'.
    + by rewrite Hc'.
    + by apply set_row_rows.
    + left. exists fr', st'. rewrite Hidx, Hi', Hlen'', Hi'.
      split_and!; try done; [by etrans|].
      eapply rows_from_mono; [|exact Hfl]. intros l'.
      rewrite !elem_of_app, !elem_of_cons, elem_of_app. tauto.
    + right. split; [done|]. exists st'. split; [done|]. by etrans.
Qed.

(** What a loop that returned has asked: each label's query returned on an
    engine between the first and the last. *)
Lemma fill_rows_asked (R : engine → engine → Prop) `{!PreOrder R}
    (query : string → M Series) (labels : list string)
    (fr fr' : frame) (st st' : engine) :
  (∀ l, steps R (query l)) →
  fill_rows query labels fr st = (Ok fr', st') →
  R st st'
  ∧ ∀ l, l ∈ labels →
      ∃ sa s sb, R st sa ∧ query l sa = (Ok s, sb) ∧ R sb st'.
Proof.
  intros Hq. revert fr st.
  induction labels as [|l labels IH]; intros fr st; simpl.
  - intros [= <- <-]. split; [reflexivity|]. by intros l ?%elem_of_nil.
  - unfold bind. destruct (query l st) as [[s|e] st1] eqn:Eq; [|done].
    intros Hf. destruct (IH _ _ Hf) as [HR Hall].
    pose proof (Hq l st) as HR1. rewrite Eq in HR1. simpl in HR1.
    split; [by etrans|].
    intros l' [->|Hl']%elem_of_cons.
    + exists st, s, st1. split_and!; [reflexivity|done|done].
    + destruct (Hall l' Hl') as (sa & s' & sb & ? & ? & ?).
      exists sa, s', sb. split_and!; [by etrans|done|done].
Qed.

(** The loop keeps the labels of a frame that has them all. *)
Lemma fill_rows_shape (query : string → M Series) (labels : list string)
    (fr fr' : frame) (st st' : engine) :
  fill_rows query labels fr st = (Ok fr', st') →
  (∀ l, l ∈ labels → l ∈ f_index fr) →
  f_index fr' = f_index fr ∧ f_columns fr' = f_columns fr.
Proof.
  revert fr st. induction labels as [|l labels IH]; intros fr st; simpl.
  - by intros [= <- _].
  - unfold bind. destruct (query l st) as [[s|e] st1]; [|done].
    intros Hf Hin.
    assert (l ∈ f_index fr) as Hl by (apply Hin, elem_of_cons; by left).
    destruct (IH _ _ Hf) as [-> ->].
    + intros l' Hl'. unfold set_row. rewrite bool_decide_eq_true_2 by done.
      simpl. apply Hin, elem_of_cons. by right.
    + unfold set_row. by rewrite bool_decide_eq_true_2 by done.
Qed.

Lemma one_vs_rest_valid (feature : string) (st : engine) :
  feature ∈ fs st →
  (assert_comb_valid
     [GStr feature; GList (filter (λ col, col ≠ feature) (fs st))] [] st).1
  = Ok [[feature]; filter (λ col, col ≠ feature) (fs st)].
Proof.
  intros Hin. apply assert_comb_valid_ok.
  eexists _, _, _, _.
  split_and!; [reflexivity|reflexivity|reflexivity|reflexivity|..].
  - apply Forall_app. split; [by repeat constructor|].
    apply Forall_forall. by intros c [_ ?]%list_elem_of_filter.
  - intros f ->%list_elem_of_singleton [Hne _]%list_elem_of_filter. done.
  - intros f _. apply not_elem_of_nil.
Qed.

Lemma one_vs_rest_invalid (feature : string) (st : engine) :
  feature ∉ fs st →
  get_one_vs_rest feature st
  = (Raise (AssertionError "Feature not in the dataset"), st).
Proof.
  intros Hno. unfold get_one_vs_rest, bind, gets, get, assert_comb_valid.
  simpl. unfold bind, gets, lift. simpl.
  rewrite bool_decide_eq_false_2; [done|].
  intros Hall. apply Hno. by apply Forall_inv in Hall.
Qed.

Lemma one_vs_rest_proceeds (feature : string) (st : engine) :
  feature ∈ fs st → has_columns st → decomps_inv st →
  (∃ s st' s0,
     get_one_vs_rest feature st = (Ok s, st')
     ∧ index s = RETURN_NAMES
     ∧ later st st' ∧ has_columns st' ∧ decomps_inv st'
     ∧ decomps st'
         !! (sort_comb [[feature]; filter (λ col, col ≠ feature) (fs st)] false,
             []) = Some s0
     ∧ (sdata s = sdata s0 ∨ sdata s = swap_groups (sdata s0)))
  ∨ (∃ st',
       get_one_vs_rest feature st = (Raise ValueError, st')
       ∧ later st st' ∧ has_columns st' ∧ decomps_inv st'
       ∧ decomps st' = decomps st).
Proof.
  intros Hin Hc Hinv.
  destruct (get_proceeds_aux _ [] st _ Hc Hinv (one_vs_rest_valid _ _ Hin))
    as [(s & st' & s0 & Hg & ?)|(st' & Hg & ? & ? & ? & ? & _)]; [done| |].
  - left. exists s, st', s0. split; [|done].
    unfold get_one_vs_rest, bind, gets. exact Hg.
  - right. exists st'. split; [|done].
    unfold get_one_vs_rest, bind, gets. exact Hg.
Qed.

(** X19: [get_one_vs_rest] rejects a feature that is no column with the
    validator's assertion and leaves the engine as it was. For a feature of
    the data it returns the six values, stored under the key of the feature
    and the sorted others, or raises the [ValueError] of a scikit-learn
    call, with nothing stored. *)
Theorem get_one_vs_rest_spec (feature : string) (st : engine) :
  (feature ∉ fs st →
   get_one_vs_rest feature st
   = (Raise (AssertionError "Feature not in the dataset"), st))
  ∧ (feature ∈ fs st → has_columns st → decomps_inv st →
     (∃ s st' s0,
        get_one_vs_rest feature st = (Ok s, st')
        ∧ index s = RETURN_NAMES
        ∧ later st st' ∧ has_columns st' ∧ decomps_inv st'
        ∧ decomps st'
            !! (sort_comb [[feature]; filter (λ col, col ≠ feature) (fs st)]
                  false, []) = Some s0
        ∧ (sdata s = sdata s0 ∨ sdata s = swap_groups (sdata s0)))
     ∨ (∃ st',
          get_one_vs_rest feature st = (Raise ValueError, st')
          ∧ later st st' ∧ has_columns st' ∧ decomps_inv st'
          ∧ decomps st' = decomps st)).
Proof.
  split; [apply one_vs_rest_invalid|apply one_vs_rest_proceeds].
Qed.

Lemma empty_frame_shape (idx cols : list string) :
  length (f_rows (empty_frame idx cols)) = length (f_index (empty_frame idx cols)).
Proof. unfold empty_frame. simpl. by rewrite length_map. Qed.




(** A query that [get] has answered is a hit on every later engine that
    has the earlier decompositions: it returns, fits nothing and stores
    nothing. *)
Lemma get_hit_later (comb : list group_arg) (C : list string)
    (sa sb st : engine) (s : Series) :
  get comb C sa = (Ok s, sb) → grows sb st → decomps_inv st →
  ∃ s' st', get comb C st = (Ok s', st')
    ∧ index s' = RETURN_NAMES
    ∧ grows st st' ∧ decomps_inv st'
    ∧ fit_log st' = fit_log st ∧ models st' = models st
    ∧ decomps st' = decomps st.
Proof.
  intros Hg [Hl Hsub] Hinv.
  destruct (get_ok_cached _ _ _ _ _ Hg) as (comb_ & Hv & [s0 Hk]).
  pose proof (steps_get comb C sa) as Hla. rewrite Hg in Hla. simpl in Hla.
  assert (fs st = fs sa) as Hfs.
  { destruct Hla as ((_ & _ & H1 & _) & _).
    destruct Hl as ((_ & _ & H2 & _) & _). by rewrite H2, H1. }
  rewrite <-(assert_comb_valid_fs comb [] sa st Hfs) in Hv.
  pose proof (lookup_weaken _ _ _ _ Hk Hsub) as Hk'.
  destruct (get_hit_spec _ _ _ _ _ Hinv Hv Hk')
    as (r & st2 & Hg2 & [Hl2 Hd] & Hm & Hlog & _).
  exists r, st2. split_and!; try done.
  - apply (get_ok_index _ _ _ _ _ Hinv Hg2).
  - split; [done|by rewrite Hd].
  - pose proof (get_decomps_inv comb C st Hinv) as Hi. by rewrite Hg2 in Hi.
Qed.

(** X22: The rows of a repeated [get_all_one_vs_rest] come from the
    decomposition cache: after a call that returned, the next one returns
    too, a frame of the same index and columns, each row holding the six
    values [get_one_vs_rest] returned for its feature; it fits no learner
    and stores nothing. *)
Theorem get_all_one_vs_rest_again (st st1 : engine) (fr : frame) :
  decomps_inv st →
  get_all_one_vs_rest st = (Ok fr, st1) →
  ∃ fr' st2,
    get_all_one_vs_rest st1 = (Ok fr', st2)
    ∧ fit_log st2 = fit_log st1 ∧ models st2 = models st1
    ∧ decomps st2 = decomps st1
    ∧ f_index fr' = f_index fr ∧ f_columns fr' = f_columns fr
    ∧ length (f_rows fr') = length (f_index fr)
    ∧ rows_from
        (λ f s, ∃ sa sb, grows st1 sa ∧ get_one_vs_rest f sa = (Ok s, sb))
        (f_index fr) fr'.
Proof.
  intros Hinv. unfold get_all_one_vs_rest, bind, gets. intros Hf.
  assert (∀ l, steps grows (get_one_vs_rest l)) as Hsteps.
  { intros l st0. unfold get_one_vs_rest, bind, gets. apply steps_grows_get. }
  destruct (fill_rows_asked grows get_one_vs_rest _ _ _ _ _ Hsteps Hf)
    as [Hg Hall].
  assert (fs st1 = fs st) as Hfs by (by destruct Hg as (((_ & _ & ? & _) & _) & _)).
  assert (decomps_inv st1) as Hinv1.
  { clear -Hinv Hf. revert Hinv Hf.
    generalize (empty_frame (fs st) RETURN_NAMES). generalize (fs st) at 1.
    intros labels. revert st.
    induction labels as [|l labels IH]; intros st fr0 Hinv; simpl.
    - by intros [= _ <-].
    - unfold bind at 1.
      destruct (get_one_vs_rest l st) as [[s|e] st0] eqn:Eq; [|done].
      apply IH.
      pose proof (get_decomps_inv [GStr l; GList (filter (λ col, col ≠ l) (fs st))]
        [] st Hinv) as Hi.
      unfold get_one_vs_rest, bind, gets in Eq. by rewrite Eq in Hi. }
  destruct (fill_rows_shape _ _ _ _ _ _ Hf) as [Hidx0 Hcol0]; [done|].
  simpl in Hidx0, Hcol0.
  rewrite Hfs.
  pose (Rq := λ sa sb : engine,
    grows sa sb ∧ fit_log sb = fit_log sa ∧ models sb = models sa
    ∧ decomps sb = decomps sa).
  assert (PreOrder Rq) as HRq.
  { split.
    - intros sa. unfold Rq. split_and!; done.
    - intros s1 s2 s3 (Hg1 & Hl1 & Hm1 & Hd1) (Hg2 & Hl2 & Hm2 & Hd2).
      unfold Rq. split_and!; [|congruence..].
      by etrans. }
  destruct (fill_rows_proceeds Rq False
    (λ st0, grows st1 st0 ∧ decomps_inv st0)
    (λ f s, ∃ sa sb, grows st1 sa ∧ get_one_vs_rest f sa = (Ok s, sb))
    get_one_vs_rest (fs st) [] (empty_frame (fs st) RETURN_NAMES) st1)
    as [(fr' & st2 & Hf2 & _ & (_ & Hlog & Hm & Hd) & Hidx & Hcol & Hlen & Hfl)
       |([] & _)].
  - intros l st0 Hl (Hg0 & Hinv0). left.
    destruct (Hall l Hl) as (sa & s & sb & _ & Hq & Hb).
    assert (fs st0 = fs sa) as Hfs0.
    { pose proof (Hsteps l sa) as Hs'. rewrite Hq in Hs'. simpl in Hs'.
      destruct Hs' as (((_ & _ & H1 & _) & _) & _).
      destruct Hb as (((_ & _ & H2 & _) & _) & _).
      destruct Hg0 as (((_ & _ & H3 & _) & _) & _). by rewrite H3, H2, H1. }
    assert (get_one_vs_rest l st0
            = get [GStr l; GList (filter (λ col, col ≠ l) (fs sa))] [] st0)
      as Heq by (unfold get_one_vs_rest, bind, gets; by rewrite Hfs0).
    unfold get_one_vs_rest, bind, gets in Hq.
    destruct (get_hit_later _ _ sa sb st0 s Hq) as (s' & st' & Hg' & Hi' & Hgr
      & Hinv' & Hlog' & Hm' & Hd'); [by etrans|done|].
    exists s', st'. rewrite Heq. split_and!; try done.
    + by etrans.
    + exists st0, st'. by rewrite Heq.
  - split; [reflexivity|done].
  - done.
  - apply empty_frame_shape.
  - done.
  - apply rows_from_nil.
  - exists fr', st2. simpl in *. rewrite app_nil_r in Hfl.
    rewrite Hidx0, Hcol0. by split_and!.
Qed.
End aggregation_facts.

(** ** Cache keys as combinations *)

Section any_value_facts.
Context `{Lrn : Learner}.

Lemma strings_of_names (l : list string) : strings_of (map PStr l) = l.
Proof.
  induction l as [|x l IH]; [done|].
  change (strings_of (map PStr (x :: l))) with (x :: strings_of (map PStr l)).
  by rewrite IH.
Qed.

Lemma in_fs_names (fs0 l : list string) :
  forallb (in_fs fs0) (map PStr l) = bool_decide (Forall (λ f, f ∈ fs0) l).
Proof.
  induction l as [|x l IH]; [done|]. simpl. rewrite IH.
  destruct (bool_decide_reflect (x ∈ fs0)) as [Hx|Hx];
    destruct (bool_decide_reflect (Forall (λ f, f ∈ fs0) l)) as [Hl|Hl]; simpl.
  - by rewrite bool_decide_eq_true_2 by (by constructor).
  - rewrite bool_decide_eq_false_2; [done|]. by intros [_ ?]%Forall_cons.
  - rewrite bool_decide_eq_false_2; [done|]. by intros [? _]%Forall_cons.
  - rewrite bool_decide_eq_false_2; [done|]. by intros [? _]%Forall_cons.
Qed.

(** On strings, tuples and lists of names the validator for any values is
    the validator. *)
Lemma check_groups_obj_names (fs0 : list string) (comb : list group_arg) :
  check_groups_obj fs0 (map of_group_arg comb) = check_groups fs0 comb.
Proof.
  induction comb as [|g comb IH]; [done|].
  cbn [map check_groups_obj check_groups]. rewrite IH.
  destruct g as [s|l|l|]; cbn [of_group_arg res_bind]; try done.
  - change [PStr s] with (map PStr [s]).
    by rewrite in_fs_names, strings_of_names.
  - by rewrite in_fs_names, strings_of_names.
  - by rewrite in_fs_names, strings_of_names.
Qed.

Lemma assert_comb_valid_obj_names (comb : list group_arg) (C : list string)
    (st : engine) :
  assert_comb_valid_obj (map of_group_arg comb) C st
  = assert_comb_valid comb C st.
Proof.
  unfold assert_comb_valid_obj, assert_comb_valid. rewrite length_map.
  case_bool_decide; [|done].
  unfold bind, gets, lift. by rewrite check_groups_obj_names.
Qed.

Lemma get_obj_names (comb : list group_arg) (C : list string) (st : engine) :
  get_obj (map of_group_arg comb) C st = get comb C st.
Proof.
  unfold get_obj, get. unfold bind at 1 3.
  by rewrite assert_comb_valid_obj_names.
Qed.

(** A tuple of groups is no feature name. *)
Lemma key_rejected (k : dkey) (C : list string) (st : engine) :
  k.1 ≠ [] →
  get_obj (key_items k) C st
  = (Raise (AssertionError "Feature not in the dataset"), st).
Proof.
  destruct k as [[|g gs] Ck]; [done|]. intros _.
  reflexivity.
Qed.

Lemma get_decomps_cases (comb : list group_arg) (C : list string)
    (st : engine) :
  decomps (get comb C st).2 = decomps st
  ∨ ∃ comb_ s,
      (assert_comb_valid comb [] st).1 = Ok comb_
      ∧ decomps (get comb C st).2
        = <[(sort_comb comb_ false, sorted_str C) := s]> (decomps st).
Proof.
  destruct (assert_comb_valid comb [] st) as [[comb_|e0] st0] eqn:Ev.
  - assert ((assert_comb_valid comb [] st).1 = Ok comb_) as Hv
      by (by rewrite Ev).
    destruct (decomps st !! (sort_comb comb_ false, sorted_str C))
      as [s0|] eqn:Ek.
    + rewrite (get_hit _ _ _ _ _ Hv Ek).
      pose proof (steps_adjust_order comb_ s0 st) as [_ Hd]. by left.
    + rewrite (get_miss _ _ _ _ Hv Ek).
      pose proof (steps_compute (map GTuple (sort_comb comb_ false)) 2 C st)
        as [_ Hd].
      destruct (compute _ 2 C st) as [[s|e1] st_c]; simpl in *.
      * right. exists comb_, s. by rewrite Hd.
      * by left.
  - pose proof (assert_comb_valid_state comb [] st) as Hst.
    rewrite Ev in Hst. simpl in Hst. subst st0.
    unfold get, bind. rewrite Ev. by left.
Qed.

Lemma run_call_keys_inv (c : call) (st : engine) :
  keys_inv st → keys_inv (run_call c st).
Proof.
  intros Hk. destruct c as [comb C|comb order C|comb order C|ts]; simpl.
  - destruct (get_decomps_cases comb C st) as [Hd|(comb_ & s & Hv & Hd)];
      unfold keys_inv; rewrite Hd; [done|].
    intros k s' [[<- <-]|[_ Hold]]%lookup_insert_Some; [|by eapply Hk].
    simpl. rewrite (reordering_length _ _ (reordering_canonical comb_)).
    by apply assert_comb_valid_ok in Hv
      as (a & b & la & lb & _ & -> & _).
  - pose proof (steps_compute comb order C st) as [_ Hd].
    unfold keys_inv. by rewrite Hd.
  - unfold keys_inv. by rewrite get_model_decomps.
  - unfold keys_inv.
    destruct (new_split_decomps ts st) as [->| ->]; [done|].
    intros k s. by rewrite lookup_empty.
Qed.

Lemma run_keys_inv (cs : list call) (st : engine) :
  keys_inv st → keys_inv (run cs st).
Proof.
  revert st. induction cs as [|c cs IH]; intros st Hst; [done|].
  simpl. apply IH. by apply run_call_keys_inv.
Qed.

(** X23: [get_all_pairwise(only_precomputed=True)], and [save] through it,
    passes each key of the decomposition cache to [get] as the
    combination. From the constructor on, whatever is called, [get]
    rejects every key that is cached: the first element of a key is the
    tuple of the two groups, and a group is no feature name. The validator
    for values of any type is the validator on strings, tuples and lists
    of names. *)
Theorem get_rejects_cache_key (df0 : table) (target0 : string) (ts : num)
    (v : bool) (r0 : rng) (st0 : engine) (cs : list call) :
  init df0 target0 ts v r0 = Ok st0 →
  let st := run cs st0 in
  (∀ k s C,
     decomps st !! k = Some s →
     get_obj (key_items k) C st
     = (Raise (AssertionError "Feature not in the dataset"), st))
  ∧ (∀ comb C st',
       assert_comb_valid_obj (map of_group_arg comb) C st'
       = assert_comb_valid comb C st'
       ∧ get_obj (map of_group_arg comb) C st' = get comb C st').
Proof.
  intros Hinit st. split.
  - intros k s C Hk. apply key_rejected.
    assert (keys_inv st0) as Hk0.
    { apply init_facts_empty in Hinit. intros k' s'.
      by rewrite Hinit, lookup_empty. }
    pose proof (run_keys_inv cs st0 Hk0 k s Hk) as Hlen.
    intros Hnil. by rewrite Hnil in Hlen.
  - intros comb C st'.
    split; [apply assert_comb_valid_obj_names|apply get_obj_names].
Qed.
End any_value_facts.

(** ** The auxiliary fits of [compute] *)

Section auxiliary_fits.
Context `{Lrn : Learner}.

Lemma unkeyed_app (l1 l2 : list fit_event) :
  unkeyed (l1 ++ l2) = unkeyed l1 + unkeyed l2.
Proof. unfold unkeyed. by rewrite filter_app, length_app. Qed.

Lemma adds_bind {A B} (n n' : nat) (m : M A) (k : A → M B) :
  adds n m → (∀ a, adds n' (k a)) → adds (n + n') (bind m k).
Proof.
  intros Hm Hk st b st'. unfold bind.
  destruct (m st) as [[a|e] st1] eqn:Em; [|done].
  intros Hb. rewrite (Hk a _ _ _ Hb), (Hm _ _ _ Em). lia.
Qed.

Lemma adds_ret {A} (a : A) : adds 0 (ret a).
Proof. intros st b st' [= _ <-]. lia. Qed.

Lemma adds_gets {A} (f : engine → A) : adds 0 (gets f).
Proof. intros st b st' [= _ <-]. lia. Qed.

Lemma adds_pure {A} (m : M A) : (∀ st, (m st).2 = st) → adds 0 m.
Proof.
  intros Hm st a st' Ha. pose proof (Hm st) as Hs. rewrite Ha in Hs.
  simpl in Hs. subst st'. lia.
Qed.

Lemma adds_test_cols (cols : list string) : adds 0 (test_cols cols).
Proof. by apply adds_pure. Qed.

Lemma adds_train_cols (cols : list string) : adds 0 (train_cols cols).
Proof. by apply adds_pure. Qed.

Lemma adds_assert (comb : list group_arg) (C : list string) :
  adds 0 (assert_comb_valid comb C).
Proof. apply adds_pure, assert_comb_valid_state. Qed.

Lemma adds_new_series (d : list (string * num)) : adds 0 (new_series d).
Proof.
  intros st a st'. unfold new_series, bind, fresh, ret. intros [= _ <-].
  unfold unkeyed. simpl. lia.
Qed.

Lemma adds_new_fitted_aux (e : exclude_arg) (X : table) (y : vec) :
  adds 1 (new_fitted None e X y).
Proof.
  intros st a st'. unfold new_fitted, bind, fresh, log_fit, modify, ret.
  intros [= _ <-]. simpl. rewrite unkeyed_app. unfold unkeyed at 2.
  by rewrite filter_cons_True by done.
Qed.

Lemma fit_step_unkeyed (key : mkey) (e : exclude_arg) (cols : list string)
    (y : vec) (st : engine) :
  unkeyed (fit_log (fit_step key e cols y st).2) = unkeyed (fit_log st).
Proof.
  unfold fit_step. destruct (loc_cols _ _); [|done]. simpl.
  rewrite unkeyed_app. unfold unkeyed at 2.
  rewrite filter_cons_False by done. simpl. lia.
Qed.

(** [__get_model] fits for its key and for the baseline's, nothing else. *)
Lemma get_model_unkeyed (comb : list (list string)) (order : Z)
    (C : list string) (st : engine) :
  unkeyed (fit_log (get_model comb order C st).2) = unkeyed (fit_log st).
Proof.
  rewrite get_model_unfold. unfold get_model_explicit.
  destruct (models st !! _) as [m|]; [done|].
  case_bool_decide; [|apply fit_step_unkeyed].
  assert (∃ r st1,
    match models st !! (order, [sorted_str C], []) with
    | Some b => (Ok b, st)
    | None => fit_step (order, [sorted_str C], []) ExclNone (sorted_str C)
                (y_train st) st
    end = (r, st1) ∧ unkeyed (fit_log st1) = unkeyed (fit_log st))
    as (r & st1 & -> & Hu).
  { destruct (models st !! (order, [sorted_str C], [])) as [b|].
    - by eexists _, _.
    - eexists _, _. split; [apply surjective_pairing|].
      apply fit_step_unkeyed. }
  destruct r as [b|e]; [|done].
  destruct (loc_cols _ _); [|done]. by rewrite fit_step_unkeyed.
Qed.

Lemma adds_get_model (comb : list (list string)) (order : Z) (C : list string) :
  adds 0 (get_model comb order C).
Proof.
  intros st a st' Hg. pose proof (get_model_unkeyed comb order C st) as Hu.
  rewrite Hg in Hu. simpl in Hu. lia.
Qed.

Lemma adds_if {A} (b : bool) (n1 n2 : nat) (m1 m2 : M A) :
  adds n1 m1 → adds n2 m2 →
  adds (if b then n1 else n2) (if b then m1 else m2).
Proof. by destruct b. Qed.

Lemma adds_lift {A} (r : res A) : adds 0 (lift r).
Proof. by apply adds_pure. Qed.

Lemma adds_bind_none {A B} (m : M A) (k : A → M B) :
  adds 0 m → (∀ a, adds 0 (k a)) → adds 0 (bind m k).
Proof. intros Hm Hk. apply (adds_bind 0 0 m k Hm Hk). Qed.

Lemma adds_when {A} (b : bool) (m1 m2 : M A) :
  adds 0 m1 → adds 0 m2 → adds 0 (if b then m1 else m2).
Proof. by destruct b. Qed.

Lemma adds_eq {A} (n n' : nat) (m : M A) : adds n m → n = n' → adds n' m.
Proof. by intros ? <-. Qed.
End auxiliary_fits.

Ltac adds_tac :=
  repeat first
    [ progress (cbv zeta)
    | apply adds_ret
    | apply adds_gets
    | apply adds_test_cols
    | apply adds_train_cols
    | apply adds_assert
    | apply adds_new_series
    | apply adds_new_fitted_aux
    | apply adds_get_model
    | apply adds_lift
    | (apply adds_if)
    | (apply adds_when)
    | (eapply adds_bind; [|intros ?])
    | (apply adds_bind_none; [|intros ?]) ].

Section compute_fits.
Context `{Lrn : Learner}.

Lemma adds_compute (comb : list group_arg) (order : Z) (C : list string) :
  adds (if bool_decide (0 < length C) then 2 else 0) (compute comb order C).
Proof.
  unfold compute, compute_parts.
  eapply adds_eq; [adds_tac|].
  by destruct (bool_decide (0 < length C)).
Qed.

(** X24: [compute] writes nothing to the decomposition cache. With a
    conditioning set it fits two auxiliary learners on every call, which no
    cache keeps; without one it fits none. *)
Theorem compute_refits_auxiliaries (comb : list group_arg) (order : Z)
    (C : list string) (st st' : engine) (s : Series) :
  compute comb order C st = (Ok s, st') →
  decomps st' = decomps st
  ∧ unkeyed (fit_log st')
    = unkeyed (fit_log st) + (if bool_decide (0 < length C) then 2 else 0).
Proof.
  intros Hc. split.
  - pose proof (steps_compute comb order C st) as [_ Hd].
    by rewrite Hc in Hd.
  - by apply (adds_compute comb order C st s st').
Qed.

(** X25: [get] adds to the two caches and to the log of fits: it never
    overwrites or removes a cached decomposition or a cached model. *)
Theorem get_only_adds (comb : list group_arg) (C : list string) (st : engine) :
  decomps st ⊆ decomps (get comb C st).2
  ∧ models st ⊆ models (get comb C st).2
  ∧ fit_log st `prefix_of` fit_log (get comb C st).2
  ∧ next_id st ≤ next_id (get comb C st).2.
Proof.
  destruct (steps_grows_get comb C st) as [(_ & Hm & Hn & Hl & _) Hd].
  done.
Qed.
End compute_fits.

(** ** Instances on the sample engine *)

Lemma pair_of_fst {A B} (p : A * B) (a : A) : p.1 = a → p = (a, p.2).
Proof. destruct p as [x y]. simpl. by intros ->. Qed.

Lemma sample_init :
  init Stub.sample_df "y" Stub.half false 0 = Ok Stub.sample_state.
Proof. vm_refl. Qed.

Lemma sample_has_columns : has_columns Stub.sample_state.
Proof. split; apply (bool_decide_unpack _); vm_cast_no_check I. Qed.

Lemma sample_decomps_inv : decomps_inv Stub.sample_state.
Proof. apply (init_invariants _ _ _ _ _ _ sample_init). Qed.

Lemma q_split_keeps_columns : @split_keeps_columns Stub.q_external.
Proof.
  intros X y ts r sp. simpl. unfold Stub.q_split.
  destruct ts as [t|]; [|done].
  destruct (Qlt_le_dec 0 t); [|done].
  destruct (Qlt_le_dec t 1); [|done].
  case_bool_decide; [done|]. intros [= <-]. simpl.
  rewrite <-!list_fmap_compose. split; by apply list_fmap_ext.
Qed.

Lemma get_terms_distinct_pairs_witness :
  NoDup ["a"; "b"; "c"]
  ∧ 2 * length (get_terms ["a"; "b"; "c"] 2 []) = 3 * (3 - 1).
Proof.
  assert (NoDup ["a"; "b"; "c"]) as Hnd.
  { apply (bool_decide_unpack _). vm_compute. exact I. }
  split; [exact Hnd|].
  apply (get_terms_distinct_pairs ["a"; "b"; "c"] 2 [] Hnd).
Defined.

Lemma assert_comb_valid_rejects_witness :
  (assert_comb_valid [GStr "a"; GOther] [] Stub.sample_state).1
  = Raise (AssertionError
      "The elements of the combination must be strings or lists")
  ∧ (assert_comb_valid [GStr "a"; GOther] [] Stub.sample_state).2
    = Stub.sample_state.
Proof.
  assert ((assert_comb_valid [GStr "a"; GOther] [] Stub.sample_state).1
    = Raise (AssertionError
        "The elements of the combination must be strings or lists")) as Hr
    by vm_refl.
  split; [exact Hr|].
  apply (assert_comb_valid_rejects _ _ _ _ Hr).
Defined.

Lemma canonical_comb_revalidates_witness :
  (assert_comb_valid [GList ["b"; "a"]; GStr "c"] [] Stub.sample_state).1
  = Ok [["b"; "a"]; ["c"]]
  ∧ (assert_comb_valid (map GTuple (sort_comb [["b"; "a"]; ["c"]] false)) []
       Stub.sample_state).1
    = Ok (sort_comb [["b"; "a"]; ["c"]] false).
Proof.
  assert ((assert_comb_valid [GList ["b"; "a"]; GStr "c"] []
             Stub.sample_state).1 = Ok [["b"; "a"]; ["c"]]) as Hv by vm_refl.
  split; [exact Hv|].
  apply (canonical_comb_revalidates _ _ _ _ Hv).
Defined.

Lemma get_model_answers_reorderings_witness :
  ∃ m,
    (get_model [["a"; "b"]; ["c"]] 2 [] Stub.sample_state).1 = Ok m
    ∧ reordering [["a"; "b"]; ["c"]] [["c"]; ["b"; "a"]]
    ∧ get_model [["c"]; ["b"; "a"]] 2 []
        (get_model [["a"; "b"]; ["c"]] 2 [] Stub.sample_state).2
      = (Ok m, (get_model [["a"; "b"]; ["c"]] 2 [] Stub.sample_state).2).
Proof.
  exists_ok (get_model [["a"; "b"]; ["c"]] 2 [] Stub.sample_state).1.
  assert (reordering [["a"; "b"]; ["c"]] [["c"]; ["b"; "a"]]) as Hr.
  { exists [["b"; "a"]; ["c"]]. split; [|apply perm_swap].
    constructor; [apply perm_swap|]. by constructor. }
  lazymatch goal with
  | |- ?h = ?v ∧ _ => assert (h = v) as Hg by vm_refl
  end.
  split; [exact Hg|]. split; [exact Hr|].
  apply (get_model_answers_reorderings _ _ 2 [] [] _ _ _ Hr
    (Permutation_refl _) (pair_of_fst _ _ Hg)).
Defined.

Lemma get_model_failure_witness :
  get_model [["a"]; ["z"]] 2 [] Stub.sample_state
  = (Raise (KeyError "z"), Stub.sample_state)
  ∧ models Stub.sample_state !! (2%Z, sort_comb [["a"]; ["z"]] false,
                                 sorted_str []) = None.
Proof.
  assert (get_model [["a"]; ["z"]] 2 [] Stub.sample_state
    = (Raise (KeyError "z"), Stub.sample_state)) as Hg by vm_refl.
  split; [exact Hg|].
  apply (get_model_failure _ _ _ _ _ _ Hg).
Defined.

Lemma get_model_fits_witness :
  ∃ m,
    (get_model [["a"]; ["b"]] 2 ["c"] Stub.sample_state).1 = Ok m
    ∧ models (get_model [["a"]; ["b"]] 2 ["c"] Stub.sample_state).2
        !! (2%Z, sort_comb [["a"]; ["b"]] false, sorted_str ["c"]) = Some m.
Proof.
  exists_ok (get_model [["a"]; ["b"]] 2 ["c"] Stub.sample_state).1.
  lazymatch goal with
  | |- ?h = ?v ∧ _ => assert (h = v) as Hg by vm_refl
  end.
  split; [exact Hg|].
  apply (get_model_fits _ _ _ _ _ _ (pair_of_fst _ _ Hg)).
Defined.

Lemma get_proceeds_witness :
  (has_columns Stub.sample_state ∧ decomps_inv Stub.sample_state
   ∧ (assert_comb_valid [GStr "a"; GStr "b"] [] Stub.sample_state).1
     = Ok [["a"]; ["b"]]
   ∧ Forall (λ c, c ∈ fs Stub.sample_state) ["c"])
  ∧ ∃ s st', get [GStr "a"; GStr "b"] ["c"] Stub.sample_state = (Ok s, st')
             ∧ index s = RETURN_NAMES.
Proof.
  assert ((assert_comb_valid [GStr "a"; GStr "b"] [] Stub.sample_state).1
          = Ok [["a"]; ["b"]]) as Hv by vm_refl.
  assert (Forall (λ c, c ∈ fs Stub.sample_state) ["c"]) as HC.
  { apply (bool_decide_unpack _). vm_cast_no_check I. }
  split; [split_and!; [apply sample_has_columns|apply sample_decomps_inv
                      |exact Hv|exact HC]|].
  destruct (get_proceeds _ _ _ _ sample_has_columns sample_decomps_inv Hv HC)
    as [(s & st' & s0 & Hg & Hi & _)|(st' & Hg & _)].
  - exists s, st'. by split.
  - assert (is_Ok (get [GStr "a"; GStr "b"] ["c"] Stub.sample_state).1
            = true) as Hok by vm_refl.
    rewrite Hg in Hok. discriminate Hok.
Defined.

Lemma get_failure_witness :
  (get [GStr "a"; GStr "b"] [] Stub.nan_state).1 = Raise ValueError
  ∧ decomps (get [GStr "a"; GStr "b"] [] Stub.nan_state).2
    = decomps Stub.nan_state
  ∧ is_library_error ValueError.
Proof.
  assert ((get [GStr "a"; GStr "b"] [] Stub.nan_state).1 = Raise ValueError)
    as Hg by vm_refl.
  split; [exact Hg|].
  destruct (get_failure _ _ _ _ _ (pair_of_fst _ _ Hg))
    as (Hd & _ & [[Hv _]|He]).
  - assert (is_Ok (assert_comb_valid [GStr "a"; GStr "b"] []
                     Stub.nan_state).1 = true) as Hok by vm_refl.
    rewrite Hv in Hok. discriminate Hok.
  - by split.
Defined.

Lemma get_unknown_conditioning_feature_witness :
  ((assert_comb_valid [GStr "a"; GStr "b"] [] Stub.sample_state).1
   = Ok [["a"]; ["b"]]
   ∧ ("z" ∉ (X_train Stub.sample_state).*1)
   ∧ ("z" ∉ (X_test Stub.sample_state).*1))
  ∧ ∃ c', get [GStr "a"; GStr "b"] ["z"] Stub.sample_state
          = (Raise (KeyError c'), Stub.sample_state)
          ∧ c' ∈ ["z"].
Proof.
  assert ((assert_comb_valid [GStr "a"; GStr "b"] [] Stub.sample_state).1
          = Ok [["a"]; ["b"]]) as Hv by vm_refl.
  assert (decomps Stub.sample_state
            !! (sort_comb [["a"]; ["b"]] false, sorted_str ["z"]) = None)
    as Hk.
  { rewrite (init_facts_empty _ _ _ _ _ _ sample_init). apply lookup_empty. }
  assert ("z" ∉ (X_train Stub.sample_state).*1) as Htr.
  { apply (bool_decide_unpack _). vm_cast_no_check I. }
  assert ("z" ∉ (X_test Stub.sample_state).*1) as Hte.
  { apply (bool_decide_unpack _). vm_cast_no_check I. }
  split; [by split_and!|].
  apply (get_unknown_conditioning_feature _ ["z"] _ _ "z" Hv Hk); try done.
  apply elem_of_cons; by left.
Defined.

Lemma get_reversed_is_hit_witness :
  ∃ s,
    (get [GStr "b"; GStr "a"] [] Stub.sample_state).1 = Ok s
    ∧ ∃ s' st2,
        get [GStr "a"; GStr "b"] []
          (get [GStr "b"; GStr "a"] [] Stub.sample_state).2 = (Ok s', st2)
        ∧ fit_log st2
          = fit_log (get [GStr "b"; GStr "a"] [] Stub.sample_state).2.
Proof.
  exists_ok (get [GStr "b"; GStr "a"] [] Stub.sample_state).1.
  lazymatch goal with
  | |- ?h = ?v ∧ _ => assert (h = v) as Hg by vm_refl
  end.
  split; [exact Hg|].
  destruct (get_reversed_is_hit _ _ _ _ _ _ sample_decomps_inv
    (pair_of_fst _ _ Hg)) as (s' & st2 & la & lb & _ & Hg2 & _ & Hl & _).
  exists s', st2. by split.
Defined.

Lemma new_split_outcomes_witness :
  data_ok Stub.sample_state
  ∧ ∃ st', new_split (Some Stub.half) Stub.sample_state = (Ok tt, st')
           ∧ decomps st' = ∅.
Proof.
  assert (data_ok Stub.sample_state) as Hd.
  { split.
    - apply (bool_decide_unpack _). vm_cast_no_check I.
    - apply (bool_decide_unpack _). vm_cast_no_check I. }
  split; [exact Hd|].
  destruct (@new_split_outcomes Stub.q_external Stub.stub_learner
    (Some Stub.half) _ Hd)
    as (X & y & r & st' & Hn & _ & _ & _ & _ & _ & _ & _ & _ & _ & _
        & Hnone & Hsome).
  assert (is_Ok (new_split (Some Stub.half) Stub.sample_state).1 = true)
    as Hok by vm_refl.
  rewrite Hn in Hok. simpl in Hok.
  destruct (train_test_split X y
    (default (test_size Stub.sample_state) (Some Stub.half))
    (rng_state Stub.sample_state)) as [sp|] eqn:Esp.
  - destruct (Hsome sp eq_refl) as (-> & _ & He & _). exists st'. by split.
  - destruct (Hnone eq_refl) as (-> & _). discriminate Hok.
Defined.

Lemma engine_stays_ready_witness :
  (@split_keeps_columns Stub.q_external
   ∧ init Stub.sample_df "y" Stub.half false 0 = Ok Stub.sample_state)
  ∧ has_columns
      (run [CallGet [GStr "a"; GStr "b"] []; CallNewSplit None]
         Stub.sample_state).
Proof.
  split; [split; [apply q_split_keeps_columns|apply sample_init]|].
  apply (engine_stays_ready _ _ _ _ _ _
    [CallGet [GStr "a"; GStr "b"] []; CallNewSplit None]
    q_split_keeps_columns sample_init).
Defined.


Lemma get_all_one_vs_rest_again_witness :
  ∃ fr,
    (get_all_one_vs_rest Stub.sample_state).1 = Ok fr
    ∧ ∃ fr' st2,
        get_all_one_vs_rest (get_all_one_vs_rest Stub.sample_state).2
        = (Ok fr', st2)
        ∧ fit_log st2 = fit_log (get_all_one_vs_rest Stub.sample_state).2.
Proof.
  exists_ok (get_all_one_vs_rest Stub.sample_state).1.
  lazymatch goal with
  | |- ?h = ?v ∧ _ => assert (h = v) as Hg by vm_refl
  end.
  split; [exact Hg|].
  destruct (get_all_one_vs_rest_again _ _ _ sample_decomps_inv
    (pair_of_fst _ _ Hg)) as (fr' & st2 & Hg2 & Hl & _).
  exists fr', st2. by split.
Defined.

Lemma get_rejects_cache_key_witness :
  init Stub.sample_df "y" Stub.half false 0 = Ok Stub.sample_state
  ∧ ∀ k s C,
      decomps (run [CallGet [GStr "a"; GStr "b"] []] Stub.sample_state) !! k
      = Some s →
      get_obj (key_items k) C
        (run [CallGet [GStr "a"; GStr "b"] []] Stub.sample_state)
      = (Raise (AssertionError "Feature not in the dataset"),
         run [CallGet [GStr "a"; GStr "b"] []] Stub.sample_state).
Proof.
  split; [apply sample_init|].
  apply (get_rejects_cache_key _ _ _ _ _ _
    [CallGet [GStr "a"; GStr "b"] []] sample_init).
Defined.

Lemma compute_refits_auxiliaries_witness :
  ∃ s,
    (compute [GStr "a"; GStr "b"] 2 ["c"] Stub.sample_state).1 = Ok s
    ∧ unkeyed (fit_log
        (compute [GStr "a"; GStr "b"] 2 ["c"] Stub.sample_state).2)
      = unkeyed (fit_log Stub.sample_state) + 2.
Proof.
  exists_ok (compute [GStr "a"; GStr "b"] 2 ["c"] Stub.sample_state).1.
  lazymatch goal with
  | |- ?h = ?v ∧ _ => assert (h = v) as Hg by vm_refl
  end.
  split; [exact Hg|].
  apply (compute_refits_auxiliaries _ _ _ _ _ _ (pair_of_fst _ _ Hg)).
Defined.
